From HB Require Import structures.
From mathcomp Require Import boot order algebra field.
From mathcomp Require Import ring.
From Stdlib Require Import String Ascii.
From Stdlib Require DecimalString DecimalNat.

Set Implicit Arguments.
Unset Strict Implicit.
Unset Printing Implicit Defensive.

Import GRing.Theory Num.Theory Order.Theory.
Local Open Scope ring_scope.

(** * QuTIpy: discrete Weyl operators, qudit gates and Pauli strings

    A shallow embedding of [src/qutipy/weyl.py] and
    [src/qutipy/Pauli/generate_nQubit_Pauli_Z.py].

    Numbers.  The Python code computes with complex floating-point numbers.
    Here the scalars are the elements of an archimedean algebraically closed
    field [C] with its conjugation (the algebraic numbers [algC] are one
    instance), and arithmetic is exact: machine rounding of the floating-point
    operations is not part of the model, while the explicit rounding done by
    [np.around] is.  The value [np.exp(2 * np.pi * 1j / d)] is a parameter
    [w d], of which the theory only uses that it is a primitive [d]-th root
    of unity.

    Arrays.  A two-dimensional numpy array is the list of its rows. *)

(** Strings are compared with Stdlib's decidable equality, so that pairs of
    strings can be the keys of a dictionary. *)
HB.instance Definition _ := hasDecEq.Build string String.eqb_spec.

(** ** Python containers and control *)

Section Python.

(** [range(a, b)] *)
Definition range (a b : nat) : seq nat := iota a (b - a).

(** [range(a, b, 2)] *)
Definition range_step2 (a b : nat) : seq nat :=
  [seq a + 2 * k | k <- iota 0 (uphalf (b - a))]%N.

(** [itertools.product] over a list of pools, as the Python documentation
    defines it:
    [result = [[]]], then for every pool
    [result = [x + [y] for x in result for y in pool]]. *)
Definition product (T : Type) (pools : seq (seq T)) : seq (seq T) :=
  foldl (fun result pool => [seq rcons x y | x <- result, y <- pool])
        [:: [::]] pools.

(** [np.mod(-i, d)] on a natural number [i] *)
Definition mod_neg (i d : nat) : nat := ((d - i %% d) %% d)%N.

(** A [dict] keeps its items in insertion order; assigning to a key that is
    present replaces the value in place. *)
Definition dict (K : eqType) (V : Type) : Type := seq (K * V).

Fixpoint setitem (K : eqType) (V : Type) (D : dict K V) (k : K) (v : V)
  : dict K V :=
  match D with
  | [::] => [:: (k, v)]
  | kv :: D' => if kv.1 == k then (k, v) :: D' else kv :: setitem D' k v
  end.

(** [D[k]]; [None] stands for [KeyError]. *)
Fixpoint getitem (K : eqType) (V : Type) (D : dict K V) (k : K) : option V :=
  match D with
  | [::] => None
  | kv :: D' => if kv.1 == k then Some kv.2 else getitem D' k
  end.

Definition keys (K : eqType) (V : Type) (D : dict K V) : seq K := unzip1 D.

(** A [for] loop whose body may raise: the state is threaded through the
    iterations and an exception ([None]) ends the loop. *)
Definition for_each (T St : Type) (xs : seq T) (body : St -> T -> option St)
  (init : St) : option St :=
  foldl (fun st x => obind (fun s => body s x) st) (Some init) xs.

(** [str(n)] for a non-negative [int] *)
Definition str_int (n : nat) : string :=
  DecimalString.NilEmpty.string_of_uint (Nat.to_uint n).

(** [str(l)] for a list of non-negative ints: ["[0, 1, 2]"] *)
Definition str_list (l : seq nat) : string :=
  String.append "[" (String.append (String.concat ", " (map str_int l)) "]").

End Python.

(** ** Dense complex matrices *)

Section Arrays.

Variable C : archiClosedFieldType.

Definition ndarray : Type := seq (seq C).

Implicit Types (A B M : ndarray) (c : C).

Definition mkarray (m n : nat) (f : nat -> nat -> C) : ndarray :=
  mkseq (fun i => mkseq (fun j => f i j) n) m.

Definition nrows A : nat := size A.
Definition ncols A : nat := size (head [::] A).

(** [A[i, j]] *)
Definition item A (i j : nat) : C := nth 0 (nth [::] A i) j.

(** [A.shape == (m, n)] *)
Definition has_shape (m n : nat) A : bool :=
  (size A == m) && all (fun r => size r == n) A.

(** [np.zeros((m, n))] *)
Definition zeros (m n : nat) : ndarray := mkarray m n (fun _ _ => 0).

(** [A + B] *)
Definition madd A B : ndarray :=
  mkarray (nrows A) (ncols A) (fun i j => item A i j + item B i j).

(** [c * A] *)
Definition mscale c A : ndarray :=
  mkarray (nrows A) (ncols A) (fun i j => c * item A i j).

(** [A @ B] for arrays whose shapes agree *)
Definition mmul A B : ndarray :=
  mkarray (nrows A) (ncols B)
    (fun i j => \sum_(0 <= k < ncols A) item A i k * item B k j).

(** [np.kron(A, B)] *)
Definition kron A B : ndarray :=
  mkarray (nrows A * nrows B) (ncols A * ncols B)
    (fun i j => item A (i %/ nrows B) (j %/ ncols B)
                * item B (i %% nrows B) (j %% ncols B)).

(** [V[i, j] = v] *)
Definition setentry A (i j : nat) c : ndarray :=
  set_nth [::] A i (set_nth 0 (nth [::] A i) j c).

(** Modelled from the spec: [qutipy.general_functions] is not among the
    sources.  Section 6 of the spec: [eye(d)] is the d x d identity matrix. *)
Definition eye (d : nat) : ndarray := mkarray d d (fun i j => (i == j)%:R).

(** Modelled from the spec: [ket(d, i)] is the d x 1 column standard basis
    vector with 1 at row [i]. *)
Definition ket (d i : nat) : ndarray := mkarray d 1 (fun r _ => (r == i)%:R).

(** Modelled from the spec: [dag(M)] is the conjugate transpose. *)
Definition dag M : ndarray :=
  mkarray (ncols M) (nrows M) (fun i j => (item M j i)^* ).

(** Modelled from the spec: [Tr(M)] is the trace, a complex scalar. *)
Definition Tr M : C := \sum_(0 <= i < nrows M) item M i i.

(** [numpy.linalg.matrix_power(M, k)] for [k >= 0]: the k-fold product, and
    the identity for [k = 0]. *)
Fixpoint matrix_power M (k : nat) : ndarray :=
  match k with
  | 0%N => eye (nrows M)
  | k'.+1 => mmul (matrix_power M k') M
  end.

(** *** Python values that are a scalar or an array

    The folds of [weyl.py] start from the Python integer [1] and go on with
    arrays, so their accumulator is either. *)
Inductive operand : Type :=
  | Scalar (c : C)
  | Matrix (M : ndarray).

(** Modelled from the spec: [tensor(A, B)] is the Kronecker product, with
    the scalar 1 as the left identity of a left fold.  On a scalar argument
    [np.kron] multiplies by it. *)
Definition tensor (a b : operand) : operand :=
  match a, b with
  | Scalar x, Scalar y => Scalar (x * y)
  | Scalar x, Matrix B => Matrix (mscale x B)
  | Matrix A, Scalar y => Matrix (mscale y A)
  | Matrix A, Matrix B => Matrix (kron A B)
  end.

(** [A @ B] on arrays: [None] stands for the [ValueError] raised when the
    shapes do not agree. *)
Definition matmul_arrays A B : option ndarray :=
  if ncols A == nrows B then Some (mmul A B) else None.

(** [a @ b] on values: the operator is not defined on scalars. *)
Definition matmul (a b : operand) : option ndarray :=
  match a, b with
  | Matrix A, Matrix B => matmul_arrays A B
  | _, _ => None
  end.

(** [dag] on values: the conjugate on a scalar. *)
Definition dag_value (a : operand) : operand :=
  match a with
  | Scalar x => Scalar x^*
  | Matrix A => Matrix (dag A)
  end.

(** The array an operand stands for, a scalar read as the 1 x 1 array. *)
Definition as_array (a : operand) : ndarray :=
  match a with
  | Scalar x => [:: [:: x]]
  | Matrix A => A
  end.

(** *** Rounding *)

(** Round to the nearest integer, ties to the even one ([np.rint]). *)
Definition rint (x : C) : int :=
  let f := Num.floor x in
  let r := x - f%:~R in
  if r < 2%:R^-1 then f
  else if 2%:R^-1 < r then f + 1
  else if odd `|f|%N then f + 1 else f.

Definition around_real (x : C) (decimals : nat) : C :=
  (rint (x * 10%:R ^+ decimals))%:~R / 10%:R ^+ decimals.

(** [np.around(z, decimals)]: the real and the imaginary part are rounded
    separately. *)
Definition around (z : C) (decimals : nat) : C :=
  around_real ('Re z) decimals + 'i * around_real ('Im z) decimals.

(** [np.array(M, dtype=int)] on a non-negative real entry: truncation. *)
Definition astype_int (x : C) : nat := Num.truncn x.

End Arrays.

(** ** weyl.py *)

Section Weyl.

Variable C : archiClosedFieldType.

(** [w d] is [np.exp(2 * np.pi * 1j / d)]. *)
Variable w : nat -> C.

Local Notation ndarray := (ndarray C).
Local Notation operand := (operand C).

Definition discrete_Weyl_X (d : nat) : ndarray :=
  foldl (fun X i => madd X (mmul (ket C d ((i + 1) %% d)) (dag (ket C d i))))
        (mmul (ket C d 1) (dag (ket C d 0)))
        (range 1 d).

Definition discrete_Weyl_Z (d : nat) : ndarray :=
  foldl (fun Z i =>
           madd Z (mmul (mscale (w d ^+ i) (ket C d i)) (dag (ket C d i))))
        (mmul (ket C d 0) (dag (ket C d 0)))
        (range 1 d).

Definition discrete_Weyl (d z x : nat) : ndarray :=
  mmul (matrix_power (discrete_Weyl_Z d) z) (matrix_power (discrete_Weyl_X d) x).

Definition discrete_Weyl_basis (d : nat) : seq ndarray :=
  foldl (fun B z => foldl (fun B x => rcons B (discrete_Weyl d z x)) B (range 0 d))
        [::] (range 0 d).

Definition generate_nQudit_X (d : nat) (indices : seq nat) : operand :=
  let X := discrete_Weyl_X d in
  foldl (fun out index => tensor out (Matrix (matrix_power X index)))
        (Scalar 1) indices.

Definition generate_nQudit_Z (d : nat) (indices : seq nat) : operand :=
  let Z := discrete_Weyl_Z d in
  foldl (fun out index => tensor out (Matrix (matrix_power Z index)))
        (Scalar 1) indices.

Definition nQudit_discrete_Weyl_basis (d n : nat) : option (seq ndarray) :=
  let S := product (nseq n (range 0 d)) in
  for_each S (fun B s1 =>
    for_each S (fun B s2 =>
      omap (fun M => rcons B M)
           (matmul (generate_nQudit_Z d s1) (generate_nQudit_X d s2))) B) [::].

Definition nQudit_quadratures (d n : nat) : dict nat operand :=
  (foldl (fun st i =>
            let: (S0, count) := st in
            let v := [seq astype_int x | x <- flatten (dag (ket C n count))] in
            let S1 := setitem S0 i (generate_nQudit_X d v) in
            let S2 := setitem S1 (i + 1)%N (generate_nQudit_Z d v) in
            (S2, (count + 1)%N))
         ([::], 0%N) (range_step2 1 (2 * n + 1))).1.

Definition nQudit_cov_matrix (X : ndarray) (d n : nat) : option ndarray :=
  let S := nQudit_quadratures d n in
  for_each (range 0 (2 * n)) (fun V i =>
    for_each (range 0 (2 * n)) (fun V j =>
      if getitem S (i + 1)%N is Some Si then
        if matmul (Matrix X) Si is Some XS then
          if getitem S (j + 1)%N is Some Sj then
            if matmul (Matrix XS) (dag_value Sj) is Some P then
              Some (setentry V i j (Tr P))
            else None
          else None
        else None
      else None) V) (zeros C (2 * n) (2 * n)).

Definition nQudit_Weyl_coeff (X : ndarray) (d n : nat)
  : option (dict (string * string)%type C) :=
  let S := product (nseq n (range 0 d)) in
  for_each S (fun Ctab s =>
    for_each S (fun Ctab t =>
      if matmul (generate_nQudit_X d s) (generate_nQudit_Z d t) is Some G then
        if matmul_arrays (dag G) X is Some P then
          Some (setitem Ctab (str_list s, str_list t)
                        ((d ^ n)%:R^-1 * around (Tr P) 10))
        else None
      else None) Ctab) [::].

Definition flip_sign (d : nat) : ndarray :=
  foldl (fun P i => madd P (mmul (ket C d (mod_neg i d)) (dag (ket C d i))))
        (mmul (ket C d 0) (dag (ket C d 0)))
        (range 1 d).

Definition CNOT_qudit (d : nat) (alt : bool) : ndarray :=
  let P := flip_sign d in
  let C0 := kron (mmul (ket C d 0) (dag (ket C d 0))) (eye C d) in
  let X := discrete_Weyl_X d in
  foldl (fun Cacc i =>
           let Xi := matrix_power X i in
           if alt then madd Cacc (kron (mmul (ket C d i) (dag (ket C d i))) Xi)
           else madd Cacc (kron (mmul (ket C d i) (dag (ket C d i))) (mmul Xi P)))
        C0 (range 1 d).

End Weyl.

(** ** Notions the properties are stated with *)

Section Notions.

Variable C : archiClosedFieldType.
Variable w : nat -> C.

(** The sum of a list of m x n arrays. *)
Definition msum (m n : nat) (s : seq (ndarray C)) : ndarray C :=
  foldl (@madd C) (zeros C m n) s.

(** The block [W_i] that the qudit CNOT applies to the target when the
    control is [|i>]. *)
Definition CNOT_block (d : nat) (alt : bool) (i : nat) : ndarray C :=
  if i == 0%N then eye C d
  else if alt then matrix_power (discrete_Weyl_X C d) i
  else mmul (matrix_power (discrete_Weyl_X C d) i) (flip_sign C d).

(** The [n] base-[d] digits of [i], the most significant first: the [i]-th
    tuple of [itertools.product(range(d), repeat=n)], which lists the tuples
    in lexicographic order, the rightmost element varying fastest. *)
Fixpoint digits (d n i : nat) : seq nat :=
  match n with
  | 0%N => [::]
  | n'.+1 => rcons (digits d n' (i %/ d)%N) (i %% d)%N
  end.

(** The number that a list of base-[d] digits stands for. *)
Definition digits_value (d : nat) (s : seq nat) : nat :=
  foldl (fun acc x => (acc * d + x)%N) 0%N s.

(** The [c]-th standard basis vector of length [n], as a list of ints. *)
Definition unit_vector (n c : nat) : seq nat :=
  [seq (j == c : nat) | j <- iota 0 n].

(** The quadrature operator that [nQudit_quadratures(d, n)] stores under the
    key [i + 1]: X-type at slot [i / 2] for even [i], Z-type for odd [i]. *)
Definition quadrature (d n i : nat) : operand C :=
  if odd i then generate_nQudit_Z w d (unit_vector n i./2)
  else generate_nQudit_X C d (unit_vector n i./2).

(** The weighted sum that rebuilds an operator from a coefficient table:
    the sum over all pairs [(s, t)] in [[0,d)^n x [0,d)^n] of
    [Ctab[(str(s), str(t))] * (generate_nQudit_X(d, s) @ generate_nQudit_Z(d, t))].
    A missing key or a failing product ends it with [None]. *)
Definition weyl_weighted_sum (Ctab : dict (string * string)%type C)
    (d n : nat) : option (ndarray C) :=
  let S := product (nseq n (range 0 d)) in
  for_each S (fun R s =>
    for_each S (fun R t =>
      if getitem Ctab (str_list s, str_list t) is Some c then
        if matmul (generate_nQudit_X C d s) (generate_nQudit_Z w d t)
          is Some G then Some (madd R (mscale c G))
        else None
      else None) R) (zeros C (d ^ n) (d ^ n)).

(** The standard two-qubit CNOT gate. *)
Definition CNOT_standard : ndarray C :=
  [:: [:: 1; 0; 0; 0]; [:: 0; 1; 0; 0]; [:: 0; 0; 0; 1]; [:: 0; 0; 1; 0]].

End Notions.

(** ** Closed forms used in the proofs *)

Section ClosedForms.

Variable C : archiClosedFieldType.
Variable w : nat -> C.

(** [sub_mod i x d] is the index that the shift by [x] sends to [i]. *)
Definition sub_mod (i x d : nat) : nat := ((i + (d - x %% d)) %% d)%N.

(** The entries of the block [W_i], [i >= 1]. *)
Definition block_entry (d : nat) (alt : bool) (i a b : nat) : C :=
  if alt then (a == (b + i) %% d)%N%:R
  else (a == (mod_neg b d + i) %% d)%N%:R.

(** The entries of the qudit CNOT. *)
Definition CNOT_entry (d : nat) (alt : bool) (r c : nat) : C :=
  (r %/ d == c %/ d)%N%:R *
  (if (r %/ d == 0)%N then (r %% d == c %% d)%N%:R
   else block_entry d alt (r %/ d) (r %% d) (c %% d)).

(** The entries of a tensor product of powers of the shift operator, the
    index list read from its last element: the last tensor factor acts on
    the least significant base-[d] digit of the row and column index. *)
Fixpoint shift_entry (d : nat) (r : seq nat) (a b : nat) : bool :=
  match r with
  | [::] => true
  | x :: r' =>
      shift_entry d r' (a %/ d) (b %/ d) && (a %% d == (b %% d + x) %% d)%N
  end.

(** The diagonal of a tensor product of powers of the phase operator, the
    index list read from its last element. *)
Fixpoint phase_entry (d : nat) (r : seq nat) (a : nat) : C :=
  match r with
  | [::] => 1
  | z :: r' => phase_entry d r' (a %/ d) * w d ^+ ((a %% d) * z)
  end.

(** The array of a quadrature operator. *)
Definition quadrature_array (d n i : nat) : ndarray C :=
  as_array (quadrature w d n i).

(** The entry that the loop body of [nQudit_cov_matrix] computes. *)
Definition cov_entry (X : ndarray C) (d n i j : nat) : C :=
  Tr (mmul (mmul X (quadrature_array d n i)) (dag (quadrature_array d n j))).

(** The array of [generate_nQudit_X(d, s) @ generate_nQudit_Z(d, t)] for
    index lists of length [n]. *)
Definition weyl_array (d n : nat) (s t : seq nat) : ndarray C :=
  mkarray (d ^ n) (d ^ n)
    (fun a b => (shift_entry d (rev s) a b)%:R * phase_entry d (rev t) b).

(** The coefficient that [nQudit_Weyl_coeff] stores for [(s, t)]. *)
Definition weyl_coefficient (X : ndarray C) (d n : nat) (s t : seq nat) : C :=
  (d ^ n)%:R^-1 * around (Tr (mmul (dag (weyl_array d n s t)) X)) 10.

End ClosedForms.

(** *** The text of [str(list)] *)

Section Rendering.

Definition is_digit (c : ascii) : bool :=
  (48 <= nat_of_ascii c)%N && (nat_of_ascii c <= 57)%N.

Fixpoint digit_string (s : string) : bool :=
  match s with
  | EmptyString => true
  | String c s' => is_digit c && digit_string s'
  end.

Definition starts_nondigit (s : string) : bool :=
  match s with
  | EmptyString => false
  | String c _ => ~~ is_digit c
  end.

(** What follows the first element in [str(x :: l)]. *)
Fixpoint render_tail (l : seq nat) : string :=
  match l with
  | [::] => "]"
  | x :: l' => String.append ", " (String.append (str_int x) (render_tail l'))
  end.

End Rendering.

(** ** Pauli/generate_nQubit_Pauli_Z.py *)

Section Pauli.

Variable C : archiClosedFieldType.

(** What the function returns: the accumulator of the fold, or the error
    message, a string. *)
Inductive pauli_result : Type :=
  | Out (out : operand C)
  | Message (s : string).

Definition pauli_error : string := "Error: Indices must be bits, either 0 or 1!".

(** The loop of the function.  The first component counts the calls of
    [tensor] made so far; it is not part of the Python state. *)
Fixpoint pauli_loop (calls : nat) (out : operand C) (indices : seq int)
  : nat * pauli_result :=
  let Id := eye C 2 in
  let Sz : ndarray C := [:: [:: 1; 0]; [:: 0; -1]] in
  match indices with
  | [::] => (calls, Out out)
  | index :: rest =>
      if index == 0 then pauli_loop calls.+1 (tensor out (Matrix Id)) rest
      else if index == 1 then pauli_loop calls.+1 (tensor out (Matrix Sz)) rest
      else (calls, Message pauli_error)
  end.

Definition generate_nQubit_Pauli_Z (indices : seq int) : pauli_result :=
  (pauli_loop 0 (Scalar 1) indices).2.

(** An index that is a bit, and the factor the loop appends for it. *)
Definition is_bit (index : int) : bool := (index == 0) || (index == 1).

Definition pauli_factor (index : int) : operand C :=
  if index == 0 then Matrix (eye C 2)
  else Matrix ([:: [:: 1; 0]; [:: 0; -1]] : ndarray C).

End Pauli.

(** ** An instance: the algebraic numbers *)

Section AlgebraicNumbers.

(** A primitive [d]-th root of unity among the algebraic numbers. *)
Definition wC (d : nat) : algC :=
  match d with
  | 0%N => 1
  | d'.+1 => sval (C_prim_root_exists (ltn0Sn d'))
  end.

(** The Pauli-Y matrix, a Hermitian operator on one qubit. *)
Definition pauli_Y : ndarray algC := [:: [:: 0; - 'i]; [:: 'i; 0]].

(** An operator on one qubit whose only entry is [10^-10]. *)
Definition tiny_operator : ndarray algC :=
  [:: [:: (10%:R ^+ 10)^-1; 0]; [:: 0; 0]].

(** The 2 x 2 identity, as a list of rows. *)
Definition identity2 : ndarray algC := [:: [:: 1; 0]; [:: 0; 1]].

(** The coefficient that the specification's wording gives for [(s, t)]:
    [(1/d^n) * Tr(dag(G) @ X)], the whole of it rounded to 10 decimal
    places. *)
Definition claimed_coefficient (X G : ndarray algC) (d n : nat) : algC :=
  around ((d ^ n)%:R^-1 * Tr (mmul (dag G) X)) 10.

End AlgebraicNumbers.

(** ** Proof automation *)

(** How the sums and arrays of a one-qubit computation unfold. *)
Ltac expand_sums :=
  rewrite /index_iota /= ?big_cons ?big_nil /=.

(** ** Notions for the further properties *)

Section FurtherNotions.

(** The target digit that the qudit CNOT gives to [|i>|j>]: [j] when the
    control [i] is 0, and otherwise [(j + i) mod d] with [alt] and
    [((-j) mod d + i) mod d] without. *)
Definition CNOT_target (d : nat) (alt : bool) (i j : nat) : nat :=
  if i == 0%N then j
  else if alt then ((j + i) %% d)%N else ((mod_neg j d + i) %% d)%N.

(** The target digit that the qudit CNOT sends to [j] under the control
    [i]. *)
Definition CNOT_source (d : nat) (alt : bool) (i j : nat) : nat :=
  if i == 0%N then j
  else if alt then sub_mod j i d else mod_neg (sub_mod j i d) d.

(** The same on the index [c = i * d + j] of a basis vector of two qudits. *)
Definition CNOT_image (d : nat) (alt : bool) (c : nat) : nat :=
  (c %/ d * d + CNOT_target d alt (c %/ d) (c %% d))%N.

Definition CNOT_preimage (d : nat) (alt : bool) (c : nat) : nat :=
  (c %/ d * d + CNOT_source d alt (c %/ d) (c %% d))%N.

(** The sum of the products of the corresponding entries of two index
    lists. *)
Definition dot (s t : seq nat) : nat := sumn [seq (p.1 * p.2)%N | p <- zip s t].

End FurtherNotions.

(** * Theory *)

(** ** Arrays given by their entries *)

Section ArrayTheory.

Variable C : archiClosedFieldType.
Implicit Types (A B M : ndarray C) (c : C) (f g : nat -> nat -> C).

Lemma nrows_mkarray m n f : nrows (mkarray m n f) = m.
Proof. by rewrite /nrows size_mkseq. Qed.

Lemma ncols_mkarray m n f : (0 < m)%N -> ncols (mkarray m n f) = n.
Proof. by case: m => // m _; rewrite /ncols /mkarray /mkseq /= size_map size_iota. Qed.

Lemma item_mkarray m n f i j :
  (i < m)%N -> (j < n)%N -> item (mkarray m n f) i j = f i j.
Proof.
move=> im jn; rewrite /item /mkarray (nth_mkseq _ _ im).
exact: nth_mkseq.
Qed.

Lemma item_mkarray_out m n f i j :
  item (mkarray m n f) i j = if (i < m)%N && (j < n)%N then f i j else 0.
Proof.
case: (ltnP i m) => [im|mi] /=.
  case: (ltnP j n) => [jn|nj]; first exact: item_mkarray.
  by rewrite /item /mkarray (nth_mkseq _ _ im) nth_default // size_mkseq.
by rewrite /item /mkarray (nth_default _ (s := mkseq _ _)) ?size_mkseq // nth_nil.
Qed.

Lemma eq_mkarray m n f g :
  (forall i j, (i < m)%N -> (j < n)%N -> f i j = g i j) ->
  mkarray m n f = mkarray m n g.
Proof.
move=> fg; rewrite /mkarray /mkseq.
apply/eq_in_map => i; rewrite mem_iota add0n => /andP[_ im].
by apply/eq_in_map => j; rewrite mem_iota add0n => /andP[_ jn]; apply: fg.
Qed.

Lemma has_shape_mkarray m n f : has_shape m n (mkarray m n f).
Proof.
rewrite /has_shape size_mkseq eqxx /=.
by apply/allP => r /mapP[i _ ->]; rewrite size_mkseq.
Qed.

Lemma has_shape_nrows m n A : has_shape m n A -> nrows A = m.
Proof. by case/andP => /eqP. Qed.

Lemma has_shape_ncols m n A : (0 < m)%N -> has_shape m n A -> ncols A = n.
Proof.
move=> m0 /andP[/eqP sz]; rewrite /ncols.
by case: A sz m0 => [<- //|r A _ _] /= /andP[/eqP].
Qed.

Lemma mkarray_item m n A : has_shape m n A -> mkarray m n (item A) = A.
Proof.
case/andP => /eqP szA /allP szr.
apply: (@eq_from_nth _ [::]); first by rewrite size_mkseq.
move=> i; rewrite size_mkseq => im; rewrite nth_mkseq //.
have szi : size (nth [::] A i) = n.
  by apply/eqP/szr/mem_nth; rewrite szA.
apply: (@eq_from_nth _ 0); first by rewrite size_mkseq.
by move=> j; rewrite size_mkseq => jn; rewrite nth_mkseq.
Qed.

Lemma eq_array m n A B :
  has_shape m n A -> has_shape m n B ->
  (forall i j, (i < m)%N -> (j < n)%N -> item A i j = item B i j) -> A = B.
Proof.
move=> sA sB eAB.
by rewrite -(mkarray_item sA) -(mkarray_item sB); apply: eq_mkarray.
Qed.

Lemma madd_mkarray m n f g :
  (0 < m)%N ->
  madd (mkarray m n f) (mkarray m n g) = mkarray m n (fun i j => f i j + g i j).
Proof.
move=> m0; rewrite /madd nrows_mkarray ncols_mkarray //.
by apply: eq_mkarray => i j im jn; rewrite !item_mkarray.
Qed.

Lemma mscale_mkarray c m n f :
  (0 < m)%N -> mscale c (mkarray m n f) = mkarray m n (fun i j => c * f i j).
Proof.
move=> m0; rewrite /mscale nrows_mkarray ncols_mkarray //.
by apply: eq_mkarray => i j im jn; rewrite !item_mkarray.
Qed.

Lemma mmul_mkarray m n p f g :
  (0 < m)%N -> (0 < n)%N ->
  mmul (mkarray m n f) (mkarray n p g) =
  mkarray m p (fun i j => \sum_(0 <= k < n) f i k * g k j).
Proof.
move=> m0 n0; rewrite /mmul nrows_mkarray !ncols_mkarray //.
apply: eq_mkarray => i j im jp; apply: eq_big_nat => k /andP[_ kn].
by rewrite !item_mkarray.
Qed.

Lemma kron_mkarray m n p q f g :
  (0 < m)%N -> (0 < p)%N ->
  kron (mkarray m n f) (mkarray p q g) =
  mkarray (m * p) (n * q)
    (fun i j => f (i %/ p)%N (j %/ q)%N * g (i %% p)%N (j %% q)%N).
Proof.
move=> m0 p0; rewrite /kron !nrows_mkarray !ncols_mkarray //.
apply: eq_mkarray => i j imp jnq.
have q0 : (0 < q)%N by case: q jnq => //; rewrite muln0.
by rewrite !item_mkarray ?ltn_mod ?ltn_divLR.
Qed.

Lemma dag_mkarray m n f :
  (0 < m)%N -> dag (mkarray m n f) = mkarray n m (fun i j => (f j i)^* ).
Proof.
move=> m0; rewrite /dag nrows_mkarray ncols_mkarray //.
by apply: eq_mkarray => i j im jn; rewrite !item_mkarray.
Qed.

Lemma Tr_mkarray m f : Tr (mkarray m m f) = \sum_(0 <= i < m) f i i.
Proof.
rewrite /Tr nrows_mkarray; apply: eq_big_nat => i /andP[_ im].
by rewrite item_mkarray.
Qed.

End ArrayTheory.

(** ** Sums over an index that is determined *)

Section Sums.

Variable C : archiClosedFieldType.
Implicit Types (F : nat -> C).

Lemma sum_delta_r n c F :
  \sum_(0 <= i < n) F i * (c == i)%:R = if (c < n)%N then F c else 0.
Proof.
elim: n => [|n IHn]; first by rewrite big_nil.
rewrite big_nat_recr //= IHn ltnS.
case: (ltngtP c n) => [cn|nc|->].
- by rewrite mulr0 addr0.
- by rewrite mulr0 addr0.
- by rewrite mulr1 add0r.
Qed.

Lemma sum_delta_l n c F :
  \sum_(0 <= i < n) (c == i)%:R * F i = if (c < n)%N then F c else 0.
Proof.
rewrite -sum_delta_r; apply: eq_bigr => i _; exact: mulrC.
Qed.

Lemma sum_delta_sym n c F :
  \sum_(0 <= i < n) (i == c)%:R * F i = if (c < n)%N then F c else 0.
Proof.
by rewrite -sum_delta_l; apply: eq_bigr => i _; rewrite eq_sym.
Qed.

Lemma sum_delta_rsym n c F :
  \sum_(0 <= i < n) F i * (i == c)%:R = if (c < n)%N then F c else 0.
Proof.
by rewrite -sum_delta_r; apply: eq_bigr => i _; rewrite eq_sym.
Qed.

(** A sum over [0 <= k < m * n] is a double sum over quotient and
    remainder. *)
Lemma sum_divmod m n F :
  \sum_(0 <= k < m * n) F k =
  \sum_(0 <= i < m) \sum_(0 <= j < n) F (i * n + j)%N.
Proof.
elim: m => [|m IHm]; first by rewrite mul0n !big_nil.
rewrite mulSnr (@big_cat_nat _ _ _ (m * n)) ?leq_addr //= IHm big_nat_recr //=.
congr (_ + _).
rewrite -{1}[(m * n)%N]add0n big_addn addKn.
by apply: eq_bigr => j _; rewrite addnC.
Qed.

End Sums.

(** ** The single-qudit operators, entry by entry *)

Section SingleQudit.

Variable C : archiClosedFieldType.
Variable w : nat -> C.
Implicit Types (d : nat).

Lemma ket_mkarray d i : ket C d i = mkarray d 1 (fun r _ => (r == i)%:R).
Proof. by []. Qed.

Lemma ketbra_mkarray d a b :
  (0 < d)%N ->
  mmul (ket C d a) (dag (ket C d b)) =
  mkarray d d (fun r c => (r == a)%:R * (c == b)%:R).
Proof.
move=> d0; rewrite !ket_mkarray dag_mkarray // mmul_mkarray //.
by apply: eq_mkarray => i j _ _; rewrite big_nat1 conjC_nat.
Qed.

Lemma scaled_ketbra_mkarray d x a b :
  (0 < d)%N ->
  mmul (mscale x (ket C d a)) (dag (ket C d b)) =
  mkarray d d (fun r c => x * (r == a)%:R * (c == b)%:R).
Proof.
move=> d0; rewrite !ket_mkarray dag_mkarray // mscale_mkarray // mmul_mkarray //.
by apply: eq_mkarray => i j _ _; rewrite big_nat1 conjC_nat.
Qed.

(** The loops of [weyl.py] add one array per iteration to an accumulator. *)
Lemma foldl_madd m n (f0 : nat -> nat -> C) (g : nat -> nat -> nat -> C)
    (term : nat -> ndarray C) (s : seq nat) :
  (0 < m)%N ->
  (forall i, i \in s -> term i = mkarray m n (g i)) ->
  foldl (fun A i => madd A (term i)) (mkarray m n f0) s =
  mkarray m n (fun r c => f0 r c + \sum_(i <- s) g i r c).
Proof.
move=> m0; elim: s f0 => [|i s IHs] f0 Hterm /=.
  by apply: eq_mkarray => r c _ _; rewrite big_nil addr0.
rewrite Hterm ?mem_head // madd_mkarray // IHs.
  by move=> k ks; apply: Hterm; rewrite in_cons ks orbT.
apply: eq_mkarray => r c _ _.
by rewrite big_cons addrA.
Qed.

Lemma discrete_Weyl_X_mkarray d :
  (1 < d)%N ->
  discrete_Weyl_X C d = mkarray d d (fun i j => (i == (j + 1) %% d)%N%:R).
Proof.
move=> d1; have d0 : (0 < d)%N by exact: ltnW.
rewrite /discrete_Weyl_X ketbra_mkarray //.
rewrite (@foldl_madd d d _
           (fun i r c => (r == (i + 1) %% d)%N%:R * (c == i)%:R)) //.
  by move=> i _; rewrite ketbra_mkarray.
apply: eq_mkarray => i j id jd.
transitivity (\sum_(0 <= k < d) (i == (k + 1) %% d)%N%:R * (j == k)%:R : C).
  by rewrite big_ltn // add0n modn_small.
by rewrite sum_delta_r jd.
Qed.

Lemma discrete_Weyl_Z_mkarray d :
  (0 < d)%N ->
  discrete_Weyl_Z w d = mkarray d d (fun i j => (i == j)%:R * w d ^+ i).
Proof.
move=> d0; rewrite /discrete_Weyl_Z ketbra_mkarray //.
rewrite (@foldl_madd d d _
           (fun i r c => w d ^+ i * (r == i)%:R * (c == i)%:R)) //.
  by move=> i _; rewrite scaled_ketbra_mkarray.
apply: eq_mkarray => i j id jd.
transitivity (\sum_(0 <= k < d) w d ^+ k * (i == k)%:R * (j == k)%:R).
  by rewrite big_ltn // expr0 mul1r.
rewrite sum_delta_r jd eq_sym; case: eqP => [->|_]; last by rewrite mulr0 !mul0r.
by rewrite !mulr1 mul1r.
Qed.

Lemma mod_neg_small i d : (0 < i < d)%N -> mod_neg i d = (d - i)%N.
Proof.
case/andP=> i0 id; rewrite /mod_neg (modn_small id) modn_small //.
by rewrite ltn_subrL i0 (leq_trans _ id).
Qed.

Lemma mod_neg0 d : mod_neg 0 d = 0%N.
Proof. by rewrite /mod_neg mod0n subn0 modnn. Qed.

Lemma flip_sign_mkarray d :
  (0 < d)%N ->
  flip_sign C d = mkarray d d (fun i j => (i == mod_neg j d)%:R).
Proof.
move=> d0; rewrite /flip_sign ketbra_mkarray //.
rewrite (@foldl_madd d d _
           (fun i r c => (r == mod_neg i d)%:R * (c == i)%:R)) //.
  by move=> i _; rewrite ketbra_mkarray.
apply: eq_mkarray => i j id jd.
transitivity (\sum_(0 <= k < d) (i == mod_neg k d)%:R * (j == k)%:R : C).
  by rewrite big_ltn // mod_neg0.
by rewrite sum_delta_r jd.
Qed.

End SingleQudit.

(** ** Arithmetic modulo the dimension *)

Section ModularShift.

Implicit Types (d i j l x : nat).

Lemma sub_mod_lt i x d : (0 < d)%N -> (sub_mod i x d < d)%N.
Proof. by move=> d0; rewrite /sub_mod ltn_mod. Qed.

Lemma compl_mod x d : (0 < d)%N -> (((d - x %% d) + x) %% d = 0)%N.
Proof.
move=> d0; rewrite -modnDmr subnK ?modnn //.
exact/ltnW/ltn_pmod.
Qed.

Lemma add_sub_mod i x d :
  (0 < d)%N -> (i < d)%N -> ((sub_mod i x d + x) %% d)%N = i.
Proof.
move=> d0 id; rewrite /sub_mod modnDml -addnA -modnDmr compl_mod //.
by rewrite addn0 modn_small.
Qed.

Lemma sub_add_mod l x d :
  (0 < d)%N -> (l < d)%N -> sub_mod ((l + x) %% d) x d = l.
Proof.
move=> d0 ld; rewrite /sub_mod modnDml -addnA -modnDmr [(x + _)%N]addnC.
by rewrite compl_mod // addn0 modn_small.
Qed.

Lemma shift_eq i l x d :
  (0 < d)%N -> (i < d)%N -> (l < d)%N ->
  (i == (l + x) %% d)%N = (l == sub_mod i x d).
Proof.
move=> d0 id ld; apply/eqP/eqP => [->|->].
  by rewrite sub_add_mod.
by rewrite add_sub_mod.
Qed.

Lemma sub_mod_inj i j x d :
  (0 < d)%N -> (i < d)%N -> (j < d)%N ->
  (sub_mod i x d == sub_mod j x d) = (i == j).
Proof.
move=> d0 id jd; apply/eqP/eqP => [e|-> //].
by rewrite -(add_sub_mod x d0 id) e add_sub_mod.
Qed.

Lemma sub_mod_inj_shift l x y d :
  (0 < d)%N -> (l < d)%N -> (x < d)%N -> (y < d)%N ->
  (sub_mod l x d == sub_mod l y d) = (x == y).
Proof.
move=> d0 ld xd yd; apply/eqP/eqP => [e|-> //].
have ex : ((sub_mod l x d + x) %% d = (sub_mod l x d + y) %% d)%N.
  by rewrite add_sub_mod // e add_sub_mod.
have := ex; rewrite -[in X in X -> _](modn_small xd) -[in X in X -> _](modn_small yd).
move/eqP; rewrite !modnDmr eqn_modDl => /eqP.
by rewrite !modn_small.
Qed.

End ModularShift.

(** ** Roots of unity *)

Section Roots.

Variable C : archiClosedFieldType.
Variable w : nat -> C.
Hypothesis w_prim : forall d, (0 < d)%N -> d.-primitive_root (w d).

Lemma w_conj d : (0 < d)%N -> w d * (w d)^* = 1.
Proof.
move=> d0; rewrite -normCK.
have /eqP : `|w d| ^+ d == 1 by rewrite -normrX (prim_expr_order (w_prim d0)) normr1.
by move/eqP; rewrite pexpr_eq1 // => /eqP ->; rewrite expr1n.
Qed.

Lemma wX_conj d k : (0 < d)%N -> w d ^+ k * (w d ^+ k)^* = 1.
Proof. by move=> d0; rewrite rmorphXn /= -exprMn w_conj // expr1n. Qed.

Lemma w_neq0 d : (0 < d)%N -> w d != 0.
Proof.
move=> d0; apply/eqP => w0; have := w_conj d0.
by rewrite w0 mul0r => /eqP; rewrite eq_sym oner_eq0.
Qed.

(** The characters of the cyclic group are orthogonal. *)
Lemma sum_w_orth d z z' :
  (0 < d)%N -> (z < d)%N -> (z' < d)%N ->
  \sum_(0 <= l < d) (w d ^+ (l * z))^* * w d ^+ (l * z') =
  if z == z' then d%:R else 0.
Proof.
move=> d0 zd z'd.
pose u := (w d ^+ z)^* * w d ^+ z'.
have -> : \sum_(0 <= l < d) (w d ^+ (l * z))^* * w d ^+ (l * z')
          = \sum_(0 <= l < d) u ^+ l.
  apply: eq_bigr => l _.
  by rewrite /u exprMn -rmorphXn /= -!exprM ![(_ * l)%N]mulnC.
case: eqP => [zz|/eqP zz].
  have -> : u = 1 by rewrite /u -zz mulrC wX_conj.
  under eq_bigr do rewrite expr1n.
  by rewrite big_const_nat subn0 iter_addr_0.
have ud : u ^+ d = 1.
  rewrite /u exprMn -rmorphXn /= -!exprM ![(_ * d)%N]mulnC !exprM.
  by rewrite (prim_expr_order (w_prim d0)) !expr1n rmorph1 mulr1.
have u1 : u - 1 != 0.
  rewrite subr_eq0 /u; apply/eqP => e.
  have : w d ^+ z' == w d ^+ z.
    by rewrite -[w d ^+ z']mul1r -(wX_conj z d0) -mulrA e mulr1.
  rewrite (eq_prim_root_expr (w_prim d0)) !modn_small // => /eqP e'.
  by rewrite e' eqxx in zz.
apply: (mulfI u1); rewrite mulr0 big_mkord -subrX1 ud.
exact: subrr.
Qed.

End Roots.

(** ** Powers and products of the shift and the phase operator *)

Section WeylOperators.

Variable C : archiClosedFieldType.
Variable w : nat -> C.
Hypothesis w_prim : forall d, (0 < d)%N -> d.-primitive_root (w d).

Implicit Types (d : nat).

Lemma matrix_power_X d k :
  (1 < d)%N ->
  matrix_power (discrete_Weyl_X C d) k =
  mkarray d d (fun i j => (i == (j + k) %% d)%N%:R).
Proof.
move=> d1; have d0 : (0 < d)%N by exact: ltnW.
rewrite discrete_Weyl_X_mkarray //.
elim: k => [|k IHk] /=.
  rewrite nrows_mkarray; apply: eq_mkarray => i j id jd.
  by rewrite addn0 modn_small.
rewrite IHk mmul_mkarray //; apply: eq_mkarray => i j id jd.
under eq_bigr do rewrite -natrM mulnb andbC -mulnb natrM.
rewrite sum_delta_sym ltn_pmod // modnDml addnAC addnS addn0.
by rewrite -addn1 addnAC addn1 addnS.
Qed.

Lemma matrix_power_Z d k :
  (0 < d)%N ->
  matrix_power (discrete_Weyl_Z w d) k =
  mkarray d d (fun i j => (i == j)%:R * w d ^+ (i * k)).
Proof.
move=> d0; rewrite discrete_Weyl_Z_mkarray //.
elim: k => [|k IHk] /=.
  rewrite nrows_mkarray; apply: eq_mkarray => i j id jd.
  by rewrite muln0 expr0 mulr1.
rewrite IHk mmul_mkarray //; apply: eq_mkarray => i j id jd.
under eq_bigr do rewrite -mulrA.
rewrite sum_delta_l id mulrCA mulrA -mulrA -exprD mulnS addnC.
by [].
Qed.

Lemma discrete_Weyl_mkarray d z x :
  (1 < d)%N ->
  discrete_Weyl w d z x =
  mkarray d d (fun i j => w d ^+ (i * z) * (i == (j + x) %% d)%N%:R).
Proof.
move=> d1; have d0 : (0 < d)%N by exact: ltnW.
rewrite /discrete_Weyl matrix_power_Z // matrix_power_X // mmul_mkarray //.
apply: eq_mkarray => i j id jd.
under eq_bigr do rewrite -mulrA.
by rewrite sum_delta_l id.
Qed.

End WeylOperators.

(** ** Lists built by nested loops *)

Section Loops.

Lemma foldl_rcons_map (T R : Type) (f : T -> R) (B : seq R) (s : seq T) :
  foldl (fun B x => rcons B (f x)) B s = B ++ map f s.
Proof.
elim: s B => [|x s IHs] B /=; first by rewrite cats0.
by rewrite IHs -cats1 -catA.
Qed.

Lemma foldl_rcons_allpairs (T U R : Type) (f : T -> U -> R) (B : seq R)
    (s : seq T) (t : seq U) :
  foldl (fun B x => foldl (fun B y => rcons B (f x y)) B t) B s
  = B ++ [seq f x y | x <- s, y <- t].
Proof.
elim: s B => [|x s IHs] B /=; first by rewrite cats0.
by rewrite foldl_rcons_map IHs catA.
Qed.

Lemma nth_allpairs_iota (R : Type) (x0 : R) (f : nat -> nat -> R)
    (a m n i j : nat) :
  (i < m)%N -> (j < n)%N ->
  nth x0 [seq f x y | x <- iota a m, y <- iota 0 n] (i * n + j) = f (a + i)%N j.
Proof.
elim: m a i => [//|m IHm] a [|i] im jn /=.
  rewrite nth_cat size_map size_iota mul0n add0n jn.
  by rewrite (nth_map 0%N) ?size_iota // nth_iota // addn0 add0n.
rewrite nth_cat size_map size_iota mulSn -addnA ltnNge leq_addr /=.
by rewrite addKn IHm // addSnnS.
Qed.

End Loops.

Lemma divmod_eq (a b d : nat) :
  ((a %/ d == b %/ d) && (a %% d == b %% d))%N = (a == b).
Proof.
apply/andP/eqP => [[/eqP e1 /eqP e2]|-> //].
by rewrite (divn_eq a d) e1 e2 -divn_eq.
Qed.

Section WeylBasis.

Variable C : archiClosedFieldType.
Variable w : nat -> C.
Hypothesis w_prim : forall d, (0 < d)%N -> d.-primitive_root (w d).

Implicit Types (d : nat).

(** C2.  The Weyl commutation relation: for every [d >= 2],
    [Z @ X = w * (X @ Z)] with [X = discrete_Weyl_X(d)],
    [Z = discrete_Weyl_Z(d)] and [w = exp(2*pi*i/d)]. *)
Theorem weyl_commutation d :
  (1 < d)%N ->
  mmul (discrete_Weyl_Z w d) (discrete_Weyl_X C d) =
  mscale (w d) (mmul (discrete_Weyl_X C d) (discrete_Weyl_Z w d)).
Proof.
move=> d1; have d0 : (0 < d)%N by exact: ltnW.
rewrite discrete_Weyl_Z_mkarray // discrete_Weyl_X_mkarray //.
rewrite !mmul_mkarray // mscale_mkarray //.
apply: eq_mkarray => i j id jd.
rewrite (eq_bigr (fun k => (i == k)%:R
                           * (w d ^+ i * (k == ((j + 1) %% d)%N)%:R)));
  first by move=> k _; rewrite mulrA.
rewrite sum_delta_l id.
rewrite (eq_bigr (fun k => (k == j)%:R
                           * ((i == ((k + 1) %% d)%N)%:R * w d ^+ k)));
  first by move=> k _; rewrite mulrCA.
rewrite sum_delta_sym jd.
case: eqP => [->|_]; last by rewrite !(mul0r, mulr0).
by rewrite mulr1 mul1r (prim_expr_mod (w_prim d0)) addn1 exprS.
Qed.

Lemma discrete_Weyl_basis_allpairs d :
  discrete_Weyl_basis w d =
  [seq discrete_Weyl w d z x | z <- iota 0 d, x <- iota 0 d].
Proof.
by rewrite /discrete_Weyl_basis foldl_rcons_allpairs /range subn0.
Qed.

Lemma nth_discrete_Weyl_basis d a :
  (a < d ^ 2)%N ->
  nth [::] (discrete_Weyl_basis w d) a = discrete_Weyl w d (a %/ d) (a %% d).
Proof.
move=> ad; have d0 : (0 < d)%N by case: d ad.
rewrite discrete_Weyl_basis_allpairs {1}(divn_eq a d).
by rewrite nth_allpairs_iota ?ltn_mod // ltn_divLR // -expnS.
Qed.

Lemma discrete_Weyl_unitary d z x :
  (1 < d)%N ->
  mmul (discrete_Weyl w d z x) (dag (discrete_Weyl w d z x)) = eye C d.
Proof.
move=> d1; have d0 : (0 < d)%N by exact: ltnW.
rewrite discrete_Weyl_mkarray // dag_mkarray // mmul_mkarray //.
apply: eq_mkarray => i j id jd.
transitivity (\sum_(0 <= l < d)
    (w d ^+ (i * z) * (w d ^+ (j * z))^* * (sub_mod i x d == sub_mod j x d)%:R)
    * (l == sub_mod i x d)%:R).
  apply: eq_big_nat => l /andP[_ ld].
  rewrite rmorphM /= conjC_nat (shift_eq x d0 id ld) (shift_eq x d0 jd ld).
  case: (l =P sub_mod i x d) => [->|_]; last by rewrite !(mulr0, mul0r).
  by rewrite !mulr1 mulrA.
rewrite sum_delta_rsym sub_mod_lt // sub_mod_inj //.
case: eqP => [->|_]; last by rewrite mulr0.
by rewrite mulr1 wX_conj.
Qed.

Lemma discrete_Weyl_orthogonal d z x z' x' :
  (1 < d)%N -> (z < d)%N -> (x < d)%N -> (z' < d)%N -> (x' < d)%N ->
  Tr (mmul (dag (discrete_Weyl w d z x)) (discrete_Weyl w d z' x')) =
  if (z == z') && (x == x') then d%:R else 0.
Proof.
move=> d1 zd xd z'd x'd; have d0 : (0 < d)%N by exact: ltnW.
rewrite !discrete_Weyl_mkarray // dag_mkarray // mmul_mkarray // Tr_mkarray.
transitivity (\sum_(0 <= l < d) \sum_(0 <= i < d)
    ((w d ^+ (l * z))^* * w d ^+ (l * z') * (x == x')%:R)
    * (i == sub_mod l x d)%:R).
  rewrite exchange_big /=; apply: eq_big_nat => l /andP[_ ld].
  apply: eq_big_nat => i /andP[_ id].
  rewrite rmorphM /= conjC_nat (shift_eq x d0 ld id) (shift_eq x' d0 ld id).
  case: (i =P sub_mod l x d) => [->|_]; last by rewrite !(mulr0, mul0r).
  by rewrite sub_mod_inj_shift // !mulr1 mulrA.
under eq_bigr do rewrite sum_delta_rsym sub_mod_lt //.
rewrite -big_distrl /= sum_w_orth //.
by case: (z == z'); case: (x == x'); rewrite /= ?mulr1 ?mulr0 ?mul0r.
Qed.

(** C7.  For every [d >= 2], [discrete_Weyl_basis(d)] has exactly [d^2]
    elements, each element [M] is unitary ([M @ dag(M)] is the identity) and
    the elements are pairwise trace-orthogonal:
    [Tr(dag(B[a]) @ B[b])] is [0] for [a != b] and [d] for [a == b]. *)
Theorem discrete_Weyl_basis_unitary_orthogonal d :
  (1 < d)%N ->
  let B := discrete_Weyl_basis w d in
  [/\ size B = (d ^ 2)%N,
      forall a, (a < d ^ 2)%N ->
        mmul (nth [::] B a) (dag (nth [::] B a)) = eye C d
    & forall a b, (a < d ^ 2)%N -> (b < d ^ 2)%N ->
        Tr (mmul (dag (nth [::] B a)) (nth [::] B b)) =
        if a == b then d%:R else 0].
Proof.
move=> d1 B; have d0 : (0 < d)%N by exact: ltnW.
split.
- by rewrite /B discrete_Weyl_basis_allpairs size_allpairs !size_iota expnS expn1.
- by move=> a ad; rewrite /B nth_discrete_Weyl_basis // discrete_Weyl_unitary.
move=> a b ad bd; rewrite /B !nth_discrete_Weyl_basis //.
have divd k : (k < d ^ 2)%N -> (k %/ d < d)%N by move=> kd; rewrite ltn_divLR // -expnS.
rewrite discrete_Weyl_orthogonal ?ltn_mod ?divd //.
by rewrite divmod_eq.
Qed.

End WeylBasis.

(** ** The qudit CNOT gate *)

Section QuditCNOT.

Variable C : archiClosedFieldType.

Implicit Types (d : nat) (alt : bool).

Lemma mod_neg_lt i d : (0 < d)%N -> (mod_neg i d < d)%N.
Proof. by move=> d0; rewrite /mod_neg ltn_mod. Qed.

Lemma power_X_flip_mkarray d i :
  (1 < d)%N ->
  mmul (matrix_power (discrete_Weyl_X C d) i) (flip_sign C d) =
  mkarray d d (block_entry C d false i).
Proof.
move=> d1; have d0 : (0 < d)%N by exact: ltnW.
rewrite matrix_power_X // flip_sign_mkarray // mmul_mkarray //.
apply: eq_mkarray => a b ad bd.
by rewrite sum_delta_rsym mod_neg_lt.
Qed.

Lemma CNOT_block_mkarray d alt i :
  (1 < d)%N ->
  CNOT_block C d alt i =
  mkarray d d (fun a b => if i == 0%N then (a == b)%:R else block_entry C d alt i a b).
Proof.
move=> d1; rewrite /CNOT_block; case: (i == 0%N) => //.
by case: alt; rewrite ?power_X_flip_mkarray ?matrix_power_X.
Qed.

Lemma kron_ketbra_mkarray d i (f : nat -> nat -> C) :
  (0 < d)%N ->
  kron (mmul (ket C d i) (dag (ket C d i))) (mkarray d d f) =
  mkarray (d * d) (d * d)
    (fun r c => (r %/ d == i)%N%:R * (c %/ d == i)%N%:R * f (r %% d)%N (c %% d)%N).
Proof. by move=> d0; rewrite ketbra_mkarray // kron_mkarray. Qed.

Lemma sum_blocks d (F : nat -> nat -> nat -> C) r c :
  (0 < d)%N -> (r < d * d)%N ->
  \sum_(0 <= i < d) (r %/ d == i)%N%:R * (c %/ d == i)%N%:R * F i (r %% d)%N (c %% d)%N
  = (r %/ d == c %/ d)%N%:R * F (r %/ d)%N (r %% d)%N (c %% d)%N.
Proof.
move=> d0 rd.
rewrite (eq_bigr (fun i => (r %/ d == i)%N%:R
           * ((c %/ d == i)%N%:R * F i (r %% d)%N (c %% d)%N))); 
  first by move=> i _; rewrite mulrA.
by rewrite sum_delta_l ltn_divLR // rd eq_sym.
Qed.

Lemma CNOT_qudit_mkarray d alt :
  (1 < d)%N ->
  CNOT_qudit C d alt = mkarray (d * d) (d * d) (CNOT_entry C d alt).
Proof.
move=> d1; have d0 : (0 < d)%N by exact: ltnW.
have dd0 : (0 < d * d)%N by rewrite muln_gt0 d0.
pose term i := kron (mmul (ket C d i) (dag (ket C d i)))
                    (if alt then matrix_power (discrete_Weyl_X C d) i
                     else mmul (matrix_power (discrete_Weyl_X C d) i)
                               (flip_sign C d)).
have -> : CNOT_qudit C d alt =
          foldl (fun A i => madd A (term i))
                (kron (mmul (ket C d 0) (dag (ket C d 0))) (eye C d))
                (range 1 d).
  by rewrite /CNOT_qudit /term; case: (alt).
rewrite /eye kron_ketbra_mkarray //.
rewrite (@foldl_madd _ (d * d) (d * d) _
   (fun i r c => (r %/ d == i)%N%:R * (c %/ d == i)%N%:R
                 * block_entry C d alt i (r %% d) (c %% d))) //.
  move=> i _; rewrite /term {term}; case: alt.
    by rewrite matrix_power_X // kron_ketbra_mkarray.
  by rewrite power_X_flip_mkarray // kron_ketbra_mkarray.
apply: eq_mkarray => r c rd cd.
pose F i a b : C := if i == 0%N then (a == b)%:R else block_entry C d alt i a b.
transitivity (\sum_(0 <= i < d) (r %/ d == i)%N%:R * (c %/ d == i)%N%:R
                                * F i (r %% d)%N (c %% d)%N).
  rewrite /range (big_ltn d0); congr (_ + _).
  by apply: eq_big_nat => i /andP[i0 _]; rewrite /F eqn0Ngt i0.
by rewrite sum_blocks.
Qed.

Lemma msum_mkarray (m n : nat) (g : nat -> nat -> nat -> C)
    (term : nat -> ndarray C) (s : seq nat) :
  (0 < m)%N ->
  (forall i, i \in s -> term i = mkarray m n (g i)) ->
  msum m n [seq term i | i <- s] =
  mkarray m n (fun r c => \sum_(i <- s) g i r c).
Proof.
move=> m0 Hterm.
have -> : msum m n [seq term i | i <- s]
          = foldl (fun A i => madd A (term i)) (zeros C m n) s.
  by rewrite /msum; elim: s (zeros C m n) {Hterm} => [|i s IHs] A //=.
rewrite (@foldl_madd _ m n _ g) //.
by apply: eq_mkarray => r c _ _; rewrite add0r.
Qed.

Lemma CNOT_qudit_block_sum d alt :
  (1 < d)%N ->
  CNOT_qudit C d alt =
  msum (d * d) (d * d)
    [seq kron (mmul (ket C d i) (dag (ket C d i))) (CNOT_block C d alt i)
    | i <- iota 0 d].
Proof.
move=> d1; have d0 : (0 < d)%N by exact: ltnW.
have dd0 : (0 < d * d)%N by rewrite muln_gt0 d0.
rewrite CNOT_qudit_mkarray //.
rewrite (@msum_mkarray (d * d) (d * d)
  (fun i r c => (r %/ d == i)%N%:R * (c %/ d == i)%N%:R
     * (if i == 0%N then (r %% d == c %% d)%N%:R
        else block_entry C d alt i (r %% d) (c %% d)))) //.
  by move=> i _; rewrite CNOT_block_mkarray // kron_ketbra_mkarray.
apply: eq_mkarray => r c rd cd.
have -> : iota 0 d = index_iota 0 d by rewrite /index_iota subn0.
by rewrite (@sum_blocks d (fun i a b => if i == 0%N then (a == b)%:R
                                      else block_entry C d alt i a b)).
Qed.

Lemma kron_ket_mkarray d i j :
  (0 < d)%N ->
  kron (ket C d i) (ket C d j) =
  mkarray (d * d) 1 (fun r _ => (r %/ d == i)%N%:R * (r %% d == j)%N%:R).
Proof.
by move=> d0; rewrite !ket_mkarray kron_mkarray // muln1.
Qed.

Lemma CNOT_qudit_ket d alt i j :
  (1 < d)%N -> (i < d)%N -> (j < d)%N ->
  mmul (CNOT_qudit C d alt) (kron (ket C d i) (ket C d j)) =
  mkarray (d * d) 1 (fun r _ => CNOT_entry C d alt r (i * d + j)).
Proof.
move=> d1 id jd; have d0 : (0 < d)%N by exact: ltnW.
have dd0 : (0 < d * d)%N by rewrite muln_gt0 d0.
rewrite CNOT_qudit_mkarray // kron_ket_mkarray // mmul_mkarray //.
apply: eq_mkarray => r c rd _.
rewrite sum_divmod.
rewrite (eq_big_nat _ _ (F2 := fun c1 => (c1 == i)%:R * CNOT_entry C d alt r (c1 * d + j)));
  last by rewrite sum_delta_sym id.
move=> c1 /andP[_ c1d].
rewrite (eq_big_nat _ _ (F2 := fun c0 =>
           ((c1 == i)%:R * CNOT_entry C d alt r (c1 * d + c0)) * (c0 == j)%:R));
  last by rewrite sum_delta_rsym jd.
move=> c0 /andP[_ c0d].
by rewrite divnMDl // divn_small // addn0 modnMDl modn_small // mulrCA mulrA.
Qed.

(** C5.  For every [d >= 2], [CNOT_qudit(d, alt)] is the block sum over
    [i] in [0, d) of [|i><i| (x) W_i], where [W_0 = eye(d)] and, for
    [i >= 1], [W_i = X^i @ flip_sign(d)] ([alt=False]) or [W_i = X^i]
    ([alt=True]); so for [i] in [1, d) and [j] in [0, d) the gate sends
    [|i> (x) |j>] to [|i> (x) |(i-j) mod d>] ([alt=False]) and to
    [|i> (x) |(i+j) mod d>] ([alt=True]). *)
Theorem CNOT_qudit_blocks_and_action d :
  (1 < d)%N ->
  [/\ forall alt,
        CNOT_qudit C d alt =
        msum (d * d) (d * d)
          [seq kron (mmul (ket C d i) (dag (ket C d i))) (CNOT_block C d alt i)
          | i <- iota 0 d],
      forall i j, (0 < i < d)%N -> (j < d)%N ->
        mmul (CNOT_qudit C d false) (kron (ket C d i) (ket C d j)) =
        kron (ket C d i) (ket C d ((i + (d - j)) %% d))
    & forall i j, (0 < i < d)%N -> (j < d)%N ->
        mmul (CNOT_qudit C d true) (kron (ket C d i) (ket C d j)) =
        kron (ket C d i) (ket C d ((i + j) %% d))].
Proof.
move=> d1; have d0 : (0 < d)%N by exact: ltnW.
split; first by move=> alt; exact: CNOT_qudit_block_sum.
- move=> i j /andP[i0 id] jd.
  rewrite CNOT_qudit_ket // kron_ket_mkarray //.
  apply: eq_mkarray => r c rd _.
  rewrite /CNOT_entry divnMDl // (divn_small jd) addn0 modnMDl (modn_small jd).
  case: (r %/ d =P i)%N => [->|_]; last by rewrite !mul0r.
  rewrite !mul1r eqn0Ngt i0 /block_entry /=.
  congr ((_ == _)%:R); rewrite /mod_neg (modn_small jd) modnDml.
  by rewrite addnC.
move=> i j /andP[i0 id] jd.
rewrite CNOT_qudit_ket // kron_ket_mkarray //.
apply: eq_mkarray => r c rd _.
rewrite /CNOT_entry divnMDl // (divn_small jd) addn0 modnMDl (modn_small jd).
case: (r %/ d =P i)%N => [->|_]; last by rewrite !mul0r.
rewrite !mul1r eqn0Ngt i0 /block_entry /=.
by rewrite addnC.
Qed.

(** C6.  [CNOT_qudit(2, alt=False)] and [CNOT_qudit(2, alt=True)] both are
    the standard CNOT matrix
    [[1,0,0,0],[0,1,0,0],[0,0,0,1],[0,0,1,0]]. *)
Theorem CNOT_qudit_2_standard :
  CNOT_qudit C 2 false = CNOT_standard C /\
  CNOT_qudit C 2 true = CNOT_standard C.
Proof.
by split; rewrite CNOT_qudit_mkarray // /mkarray /mkseq /CNOT_entry /block_entry /= !(mul1r, mulr0, mul0r).
Qed.

End QuditCNOT.

(** ** Tensor products over index lists *)

Section TensorFolds.

Variable C : archiClosedFieldType.
Variable w : nat -> C.

Implicit Types (d : nat) (M : ndarray C).

Lemma mscale1 m n M : has_shape m n M -> (0 < m)%N -> mscale 1 M = M.
Proof.
move=> sM m0; rewrite /mscale (has_shape_nrows sM) (has_shape_ncols m0 sM).
rewrite -[RHS](mkarray_item sM).
by apply: eq_mkarray => i j _ _; rewrite mul1r.
Qed.

Lemma tensor_1_mkarray m n (f : nat -> nat -> C) :
  (0 < m)%N -> tensor (Scalar 1) (Matrix (mkarray m n f)) = Matrix (mkarray m n f).
Proof.
by move=> m0; rewrite /tensor (mscale1 (has_shape_mkarray m n f)).
Qed.

(** C9.  For every [d >= 2], [generate_nQudit_X(d, [])] and
    [generate_nQudit_Z(d, [])] return the scalar 1, the identity element of
    the left fold, and not a 1 x 1 matrix; for a non-empty index list the
    result is the left-fold tensor product that starts from that scalar:
    every further index appends one factor, and the scalar is absorbed by
    the first factor. *)
Theorem generate_nQudit_empty_and_fold d :
  (1 < d)%N ->
  let X := discrete_Weyl_X C d in
  let Z := discrete_Weyl_Z w d in
  [/\ generate_nQudit_X C d [::] = Scalar 1 /\
      generate_nQudit_Z w d [::] = Scalar 1,
      forall s x,
        generate_nQudit_X C d (rcons s x) =
        tensor (generate_nQudit_X C d s) (Matrix (matrix_power X x)) /\
        generate_nQudit_Z w d (rcons s x) =
        tensor (generate_nQudit_Z w d s) (Matrix (matrix_power Z x))
    & forall x s,
        generate_nQudit_X C d (x :: s) =
        foldl (fun out index => tensor out (Matrix (matrix_power X index)))
              (Matrix (matrix_power X x)) s /\
        generate_nQudit_Z w d (x :: s) =
        foldl (fun out index => tensor out (Matrix (matrix_power Z index)))
              (Matrix (matrix_power Z x)) s].
Proof.
move=> d1 X Z; have d0 : (0 < d)%N by exact: ltnW.
split=> //.
- by move=> s x; rewrite /generate_nQudit_X /generate_nQudit_Z !foldl_rcons.
move=> x s; rewrite /generate_nQudit_X /generate_nQudit_Z /=.
by rewrite /X /Z matrix_power_X // matrix_power_Z // !(mscale1 (has_shape_mkarray _ _ _)).
Qed.

End TensorFolds.

(** ** Pauli-Z strings *)

Section PauliZ.

Variable C : archiClosedFieldType.

Implicit Types (indices pre post : seq int) (out : operand C).

Lemma pauli_loop_bits calls out pre rest :
  all is_bit pre ->
  pauli_loop calls out (pre ++ rest) =
  pauli_loop (calls + size pre)
             (foldl (fun out index => tensor out (pauli_factor C index)) out pre)
             rest.
Proof.
elim: pre calls out => [|b pre IHpre] calls out /=; first by rewrite addn0.
case/andP; rewrite /is_bit /pauli_factor.
by case/orP => /eqP -> bits /=; rewrite IHpre // addSnnS.
Qed.

Lemma pauli_loop_invalid calls out x post :
  ~~ is_bit x -> pauli_loop calls out (x :: post) = (calls, Message C pauli_error).
Proof. by rewrite /is_bit negb_or /= => /andP[/negPf -> /negPf ->]. Qed.

Lemma first_invalid indices :
  has (predC is_bit) indices ->
  exists pre x post,
    [/\ indices = pre ++ x :: post, all is_bit pre & ~~ is_bit x].
Proof.
elim: indices => [//|b s IHs] /=.
case bb: (is_bit b) => /=.
  case/IHs => pre [x [post [-> bits nx]]].
  by exists (b :: pre), x, post; split; rewrite //= bb.
by move=> _; exists [::], b, s; split; rewrite // bb.
Qed.

(** C10.  For every index list with an element that is neither 0 nor 1,
    [generate_nQubit_Pauli_Z] returns the string
    ['Error: Indices must be bits, either 0 or 1!'] and no matrix; it is a
    value that is returned, no exception; the loop returns at the first
    such element, so that no factor after it is processed (the only calls of
    [tensor] are those for the bits before it).  For every index list of 0s
    and 1s it returns the tensor product of the identity and Pauli-Z
    factors that the list names. *)
Theorem generate_nQubit_Pauli_Z_spec :
  [/\ forall pre x post,
        all is_bit pre -> ~~ is_bit x ->
        pauli_loop 0 (Scalar 1) (pre ++ x :: post) =
        (size pre, Message C pauli_error),
      forall indices,
        has (predC is_bit) indices ->
        generate_nQubit_Pauli_Z C indices = Message C pauli_error
    & forall indices,
        all is_bit indices ->
        generate_nQubit_Pauli_Z C indices =
        Out (foldl (fun out index => tensor out (pauli_factor C index))
                   (Scalar 1) indices)].
Proof.
have H1 pre x post : all is_bit pre -> ~~ is_bit x ->
    pauli_loop 0 (Scalar 1) (pre ++ x :: post) =
    (size pre, Message C pauli_error).
  by move=> bits nx; rewrite pauli_loop_bits // pauli_loop_invalid.
split=> //.
- move=> indices /first_invalid[pre [x [post [-> bits nx]]]].
  by rewrite /generate_nQubit_Pauli_Z H1.
move=> indices bits.
by rewrite /generate_nQubit_Pauli_Z -{1}[indices]cats0 pauli_loop_bits.
Qed.

End PauliZ.

(** ** The enumeration of index tuples *)

Section Product.

Implicit Types (d n i : nat).

Lemma nseq_rcons (T : Type) n (p : T) : nseq n.+1 p = rcons (nseq n p) p.
Proof. by elim: n => [//|n IHn]; rewrite /= -IHn. Qed.

Lemma product_rcons (T : Type) (pools : seq (seq T)) (p : seq T) :
  product (rcons pools p) = [seq rcons x y | x <- product pools, y <- p].
Proof. by rewrite /product foldl_rcons. Qed.

Lemma product_nseqS (T : Type) n (p : seq T) :
  product (nseq n.+1 p) = [seq rcons x y | x <- product (nseq n p), y <- p].
Proof. by rewrite nseq_rcons product_rcons. Qed.

Lemma size_product d n : size (product (nseq n (range 0 d))) = (d ^ n)%N.
Proof.
elim: n => [//|n IHn].
by rewrite product_nseqS size_allpairs IHn /range subn0 size_iota expnSr.
Qed.

Lemma nth_allpairs (T U R : Type) (x0 : T) (y0 : U) (z0 : R)
    (f : T -> U -> R) (s : seq T) (t : seq U) (i j : nat) :
  (i < size s)%N -> (j < size t)%N ->
  nth z0 [seq f x y | x <- s, y <- t] (i * size t + j) =
  f (nth x0 s i) (nth y0 t j).
Proof.
elim: s i => [//|x s IHs] [|i] /= lis ljt.
  by rewrite nth_cat size_map mul0n add0n ljt (nth_map y0).
rewrite nth_cat size_map mulSn -addnA ltnNge leq_addr /=.
by rewrite addKn IHs.
Qed.

Lemma size_digits d n i : size (digits d n i) = n.
Proof. by elim: n i => [//|n IHn] i; rewrite /= size_rcons IHn. Qed.

Lemma all_digits d n i : (0 < d)%N -> all (fun x => x < d)%N (digits d n i).
Proof.
move=> d0; elim: n i => [//|n IHn] i.
by rewrite /= all_rcons ltn_mod d0 IHn.
Qed.

Lemma digits_valueK d n i :
  (i < d ^ n)%N -> digits_value d (digits d n i) = i.
Proof.
elim: n i => [|n IHn] i; first by rewrite expn0 ltnS leqn0 => /eqP ->.
case: d IHn => [|d] IHn; first by rewrite exp0n.
rewrite expnSr => lt_i; rewrite /digits_value /= foldl_rcons -/(digits_value _ _).
by rewrite IHn ?ltn_divLR // -divn_eq.
Qed.

Lemma nth_product d n i :
  (i < d ^ n)%N ->
  nth [::] (product (nseq n (range 0 d))) i = digits d n i.
Proof.
elim: n i => [|n IHn] i; first by rewrite expn0 ltnS leqn0 => /eqP ->.
case: d IHn => [|d] IHn; first by rewrite exp0n.
rewrite expnSr => lt_i; rewrite product_nseqS.
have sz : size (range 0 d.+1) = d.+1 by rewrite /range subn0 size_iota.
have := @nth_allpairs _ _ _ [::] 0%N [::] rcons
          (product (nseq n (range 0 d.+1))) (range 0 d.+1)
          (i %/ d.+1) (i %% d.+1).
rewrite size_product sz -divn_eq ltn_divLR // ltn_mod => -> //.
by rewrite IHn ?ltn_divLR // /range subn0 nth_iota ?ltn_mod.
Qed.

Lemma product_digits d n :
  product (nseq n (range 0 d)) = [seq digits d n i | i <- iota 0 (d ^ n)].
Proof.
apply: (@eq_from_nth _ [::]); first by rewrite size_product size_map size_iota.
move=> i; rewrite size_product => lt_i.
by rewrite nth_product // (nth_map 0%N) ?size_iota // nth_iota.
Qed.

Lemma mem_product d n (s : seq nat) :
  (0 < d)%N -> s \in product (nseq n (range 0 d)) ->
  size s = n /\ all (fun x => x < d)%N s.
Proof.
move=> d0; rewrite product_digits => /mapP[i _ ->].
by rewrite size_digits all_digits.
Qed.

End Product.

(** ** Loops that may raise *)

Section ForEach.

Lemma for_each_cat (T St : Type) (xs ys : seq T) (body : St -> T -> option St)
    (init : St) :
  for_each (xs ++ ys) body init =
  obind (for_each ys body) (for_each xs body init).
Proof.
rewrite /for_each foldl_cat.
case: (foldl _ _ xs) => [st //|] /=.
by elim: ys => [//|y ys IHys].
Qed.

Lemma for_each_cons (T St : Type) x (xs : seq T) (body : St -> T -> option St)
    (init : St) :
  for_each (x :: xs) body init = obind (for_each xs body) (body init x).
Proof.
rewrite /for_each /=; case: (body init x) => [st //|] /=.
by elim: xs => [//|y ys IHys].
Qed.

(** A loop that appends one computed element per iteration. *)
Lemma for_each_rcons (T : eqType) (R : Type) (xs : seq T)
    (h : T -> option R) (g : T -> R) (B : seq R) :
  {in xs, forall x, h x = Some (g x)} ->
  for_each xs (fun B x => omap (fun M => rcons B M) (h x)) B =
  Some (B ++ map g xs).
Proof.
elim: xs B => [|x xs IHxs] B Hh; first by rewrite cats0.
rewrite for_each_cons Hh ?mem_head //= IHxs -?cats1 -?catA //.
by move=> y ys; apply: Hh; rewrite in_cons ys orbT.
Qed.

Lemma for_each_ext (T : eqType) (St : Type) (xs : seq T)
    (body body' : St -> T -> option St) (init : St) :
  {in xs, forall x st, body st x = body' st x} ->
  for_each xs body init = for_each xs body' init.
Proof.
elim: xs init => [//|x xs IHxs] init Hb.
rewrite !for_each_cons Hb ?mem_head //.
case: (body' init x) => [st|] //=; apply: IHxs.
by move=> y ys; apply: Hb; rewrite in_cons ys orbT.
Qed.

Lemma for_each_allpairs (T : eqType) (R : Type) (xs ys : seq T)
    (h : T -> T -> option R) (g : T -> T -> R) (B : seq R) :
  {in xs & ys, forall x y, h x y = Some (g x y)} ->
  for_each xs (fun B x =>
    for_each ys (fun B y => omap (fun M => rcons B M) (h x y)) B) B =
  Some (B ++ [seq g x y | x <- xs, y <- ys]).
Proof.
elim: xs B => [|x xs IHxs] B Hh; first by rewrite cats0.
have Hx : {in ys, forall y, h x y = Some (g x y)}.
  by move=> y ys'; apply: Hh; rewrite ?mem_head.
rewrite for_each_cons (for_each_rcons _ Hx) /= IHxs ?catA //.
by move=> x' y xs' ys'; apply: Hh; rewrite // in_cons xs' orbT.
Qed.

End ForEach.

(** ** The n-qudit operators, entry by entry *)

Section NQudit.

Variable C : archiClosedFieldType.
Variable w : nat -> C.

Implicit Types (d n : nat) (s t : seq nat) (o : operand C) (B : ndarray C).

Lemma tensor_matrix o B :
  tensor o (Matrix B) = Matrix (as_array (tensor o (Matrix B))).
Proof. by case: o. Qed.

Lemma as_array_tensor p q o B :
  has_shape p q B -> (0 < p)%N ->
  as_array (tensor o (Matrix B)) = kron (as_array o) B.
Proof.
move=> sB p0; case: o => [c|A] //=.
rewrite /mscale /kron (has_shape_nrows sB) (has_shape_ncols p0 sB).
rewrite /nrows /ncols /= !mul1n; apply: eq_mkarray => i j ip jq.
by rewrite !divn_small // !modn_small.
Qed.

Lemma generate_nQudit_X_array d s :
  (1 < d)%N ->
  as_array (generate_nQudit_X C d s) =
  mkarray (d ^ size s) (d ^ size s) (fun a b => (shift_entry d (rev s) a b)%:R).
Proof.
move=> d1; have d0 : (0 < d)%N by exact: ltnW.
elim/last_ind: s => [//|s x IHs].
rewrite /generate_nQudit_X foldl_rcons -/(generate_nQudit_X C d s).
rewrite matrix_power_X // (as_array_tensor _ (has_shape_mkarray _ _ _)) //.
rewrite IHs kron_mkarray ?expn_gt0 ?d0 // size_rcons expnSr rev_rcons.
apply: eq_mkarray => a b _ _ /=.
by rewrite -natrM mulnb.
Qed.

Lemma generate_nQudit_Z_array d s :
  (0 < d)%N ->
  as_array (generate_nQudit_Z w d s) =
  mkarray (d ^ size s) (d ^ size s)
    (fun a b => (a == b)%:R * phase_entry w d (rev s) a).
Proof.
move=> d0; elim/last_ind: s => [|s z IHs].
  by rewrite /= /mkarray /mkseq /= mulr1.
rewrite /generate_nQudit_Z foldl_rcons -/(generate_nQudit_Z w d s).
rewrite matrix_power_Z // (as_array_tensor _ (has_shape_mkarray _ _ _)) //.
rewrite IHs kron_mkarray ?expn_gt0 ?d0 // size_rcons expnSr rev_rcons.
apply: eq_mkarray => a b _ _ /=.
by rewrite mulrACA -natrM mulnb divmod_eq.
Qed.

Lemma generate_nQudit_X_matrix d s :
  (0 < size s)%N ->
  generate_nQudit_X C d s = Matrix (as_array (generate_nQudit_X C d s)).
Proof.
case/lastP: s => [//|s x] _.
by rewrite /generate_nQudit_X foldl_rcons -tensor_matrix.
Qed.

Lemma generate_nQudit_Z_matrix d s :
  (0 < size s)%N ->
  generate_nQudit_Z w d s = Matrix (as_array (generate_nQudit_Z w d s)).
Proof.
case/lastP: s => [//|s x] _.
by rewrite /generate_nQudit_Z foldl_rcons -tensor_matrix.
Qed.

Lemma matmul_mkarray m n p (f g : nat -> nat -> C) :
  (0 < m)%N -> (0 < n)%N ->
  matmul (Matrix (mkarray m n f)) (Matrix (mkarray n p g)) =
  Some (mkarray m p (fun i j => \sum_(0 <= k < n) f i k * g k j)).
Proof.
move=> m0 n0.
by rewrite /matmul /matmul_arrays ncols_mkarray // nrows_mkarray eqxx mmul_mkarray.
Qed.

(** The entries of [generate_nQudit_Z(d, s) @ generate_nQudit_X(d, t)]. *)
Lemma matmul_ZX d n s t :
  (1 < d)%N -> (0 < n)%N -> size s = n -> size t = n ->
  matmul (generate_nQudit_Z w d s) (generate_nQudit_X C d t) =
  Some (mkarray (d ^ n) (d ^ n)
          (fun a b => phase_entry w d (rev s) a * (shift_entry d (rev t) a b)%:R)).
Proof.
move=> d1 n0 ss st; have d0 : (0 < d)%N by exact: ltnW.
have N0 : (0 < d ^ n)%N by rewrite expn_gt0 d0.
rewrite generate_nQudit_Z_matrix ?ss // generate_nQudit_X_matrix ?st //.
rewrite generate_nQudit_Z_array // generate_nQudit_X_array // ss st.
rewrite matmul_mkarray //; congr Some.
apply: eq_mkarray => a b an bn.
rewrite (eq_bigr (fun k => (a == k)%:R
           * (phase_entry w d (rev s) a * (shift_entry d (rev t) k b)%:R)));
  first by move=> k _; rewrite mulrA.
by rewrite sum_delta_l an.
Qed.

(** The entries of [generate_nQudit_X(d, s) @ generate_nQudit_Z(d, t)]. *)
Lemma matmul_XZ d n s t :
  (1 < d)%N -> (0 < n)%N -> size s = n -> size t = n ->
  matmul (generate_nQudit_X C d s) (generate_nQudit_Z w d t) =
  Some (mkarray (d ^ n) (d ^ n)
          (fun a b => (shift_entry d (rev s) a b)%:R * phase_entry w d (rev t) b)).
Proof.
move=> d1 n0 ss st; have d0 : (0 < d)%N by exact: ltnW.
have N0 : (0 < d ^ n)%N by rewrite expn_gt0 d0.
rewrite generate_nQudit_Z_matrix ?st // generate_nQudit_X_matrix ?ss //.
rewrite generate_nQudit_Z_array // generate_nQudit_X_array // ss st.
rewrite matmul_mkarray //; congr Some.
apply: eq_mkarray => a b an bn.
rewrite (eq_bigr (fun k => ((shift_entry d (rev s) a k)%:R
                            * phase_entry w d (rev t) k) * (k == b)%:R));
  first by move=> k _; rewrite [(k == b)%:R * _]mulrC mulrA.
by rewrite sum_delta_rsym bn.
Qed.

(** C8.  For every [d >= 2] and [n >= 1],
    [nQudit_discrete_Weyl_basis(d, n)] returns a sequence of exactly
    [d^(2n)] operators that enumerates the pairs [(s1, s2)] of n-tuples over
    [0, d) in the order of [itertools.product]: lexicographic, the rightmost
    element varying fastest, [s1] the outer loop.  The entry for [(s1, s2)]
    is [generate_nQudit_Z(d, s1) @ generate_nQudit_X(d, s2)], the Z-tensor
    on the left.  The tuple at position [i] of the product order is the list
    of the [n] base-[d] digits of [i]. *)
Theorem nQudit_discrete_Weyl_basis_enumeration d n :
  (1 < d)%N -> (0 < n)%N ->
  exists Bs,
    [/\ nQudit_discrete_Weyl_basis w d n = Some Bs,
        size Bs = (d ^ (2 * n))%N,
        product (nseq n (range 0 d)) = [seq digits d n i | i <- iota 0 (d ^ n)],
        forall i, (i < d ^ n)%N ->
          [/\ size (digits d n i) = n,
              all (fun x => x < d)%N (digits d n i)
            & digits_value d (digits d n i) = i]
      & forall i1 i2, (i1 < d ^ n)%N -> (i2 < d ^ n)%N ->
          matmul (generate_nQudit_Z w d (digits d n i1))
                 (generate_nQudit_X C d (digits d n i2))
          = Some (nth [::] Bs (i1 * d ^ n + i2))].
Proof.
move=> d1 n0; have d0 : (0 < d)%N by exact: ltnW.
pose g s1 s2 := mkarray (d ^ n) (d ^ n)
  (fun a b => phase_entry w d (rev s1) a * (shift_entry d (rev s2) a b)%:R).
set S := product (nseq n (range 0 d)).
have HS : {in S & S, forall s1 s2,
    matmul (generate_nQudit_Z w d s1) (generate_nQudit_X C d s2)
    = Some (g s1 s2)}.
  move=> s1 s2 /(mem_product d0)[sz1 _] /(mem_product d0)[sz2 _].
  exact: matmul_ZX.
exists [seq g s1 s2 | s1 <- S, s2 <- S]; split.
- by rewrite /nQudit_discrete_Weyl_basis -/S (for_each_allpairs _ HS).
- by rewrite size_allpairs size_product mul2n -addnn expnD.
- exact: product_digits.
- by move=> i lt_i; rewrite size_digits all_digits // digits_valueK.
move=> i1 i2 lt1 lt2.
rewrite -{1}(size_product d n) -/S (nth_allpairs [::] [::]) ?size_product //.
rewrite !nth_product //.
by apply: matmul_ZX; rewrite ?size_digits.
Qed.

End NQudit.

(** ** Dictionaries *)

Section Dict.

Variables (K : eqType) (V : Type).
Implicit Types (D : dict K V) (k : K) (v : V).

Lemma getitem_setitem D k v k' :
  getitem (setitem D k v) k' = if k == k' then Some v else getitem D k'.
Proof.
elim: D => [|[k0 v0] D IHD] /=; first by [].
case: (k0 =P k) => [->|ne] /=; first by case: (k =P k').
by rewrite IHD; case: (k0 =P k') => [<-|//]; case: (k =P k0) => [e|//]; case: ne.
Qed.

Lemma setitem_fresh D k v : k \notin keys D -> setitem D k v = rcons D (k, v).
Proof.
elim: D => [//|[k0 v0] D IHD] /=.
by rewrite in_cons negb_or eq_sym => /andP[/negPf -> /IHD ->].
Qed.

Lemma keys_rcons D k v : keys (rcons D (k, v)) = rcons (keys D) k.
Proof. by rewrite /keys /unzip1 map_rcons. Qed.

End Dict.

(** ** Arrays updated in place *)

Section SetEntry.

Variable C : archiClosedFieldType.
Implicit Types (A : ndarray C) (c : C).

Lemma item_setentry A i j c i' j' :
  item (setentry A i j c) i' j' =
  if (i' == i) && (j' == j) then c else item A i' j'.
Proof.
rewrite /item /setentry nth_set_nth /=.
by case: (i' =P i) => [->|//] /=; rewrite nth_set_nth.
Qed.

Lemma has_shape_setentry m n A i j c :
  has_shape m n A -> (i < m)%N -> (j < n)%N ->
  has_shape m n (setentry A i j c).
Proof.
case/andP => /eqP szA /allP szr im jn.
rewrite /has_shape /setentry size_set_nth szA (maxn_idPr im) eqxx /=.
apply/(all_nthP [::]) => k; rewrite size_set_nth szA (maxn_idPr im) => km.
rewrite nth_set_nth /=; case: (k =P i) => [_|_].
  rewrite size_set_nth; have /eqP -> : size (nth [::] A i) == n.
    by apply/szr/mem_nth; rewrite szA.
  by rewrite (maxn_idPr jn).
by apply/szr/mem_nth; rewrite szA.
Qed.

Lemma foldl_setentry_row m n A i (f : nat -> C) (js : seq nat) :
  has_shape m n A -> (i < m)%N -> all (fun j => j < n)%N js ->
  let R := foldl (fun V j => setentry V i j (f j)) A js in
  has_shape m n R /\
  forall i' j', item R i' j' =
    if (i' == i) && (j' \in js) then f j' else item A i' j'.
Proof.
move=> sA im; elim: js A sA => [|j js IHjs] A sA /=.
  by move=> _; split=> // i' j'; rewrite in_nil andbF.
case/andP => jn ljs.
have [sR HR] := IHjs _ (has_shape_setentry (f j) sA im jn) ljs.
split=> // i' j'; rewrite HR item_setentry in_cons.
case: (i' =P i) => //= _; case: (j' \in js); first by rewrite orbT.
by rewrite orbF; case: (j' =P j) => [->|].
Qed.

Lemma foldl_setentry m n A (f : nat -> nat -> C) (rs js : seq nat) :
  has_shape m n A -> all (fun i => i < m)%N rs -> all (fun j => j < n)%N js ->
  let R := foldl (fun V i => foldl (fun V j => setentry V i j (f i j)) V js) A rs in
  has_shape m n R /\
  forall i' j', item R i' j' =
    if (i' \in rs) && (j' \in js) then f i' j' else item A i' j'.
Proof.
move=> + + ljs; elim: rs A => [|i rs IHrs] A sA /=.
  by move=> _; split.
case/andP => im lrs.
have [sR1 HR1] := foldl_setentry_row (f i) sA im ljs.
have [sR HR] := IHrs _ sR1 lrs.
split=> // i' j'; rewrite HR HR1 in_cons.
by case: (i' =P i) => [->|_] /=; case: (_ \in rs) => /=; case: (_ \in js).
Qed.

End SetEntry.

Section ForEachPure.

Lemma for_each_pure (T St : Type) (xs : seq T) (f : St -> T -> St) (init : St) :
  for_each xs (fun st x => Some (f st x)) init = Some (foldl f init xs).
Proof. by elim: xs init => [//|x xs IHxs] init; rewrite for_each_cons /= IHxs. Qed.

End ForEachPure.

(** ** Quadratures and the matrix of second moments *)

Section Covariance.

Variable C : archiClosedFieldType.
Variable w : nat -> C.

Implicit Types (d n : nat) (X : ndarray C).

Lemma unit_vector_of_ket n c :
  (0 < n)%N ->
  [seq astype_int x | x <- flatten (dag (ket C n c))] = unit_vector n c.
Proof.
move=> n0; rewrite ket_mkarray dag_mkarray // /mkarray /mkseq /= cats0.
rewrite -map_comp; apply: eq_map => j /=.
by rewrite conjC_nat /astype_int natrK.
Qed.

Lemma size_unit_vector n c : size (unit_vector n c) = n.
Proof. by rewrite /unit_vector size_map size_iota. Qed.

Lemma range_step2_odd n :
  range_step2 1 (2 * n + 1) = [seq (2 * k + 1)%N | k <- iota 0 n].
Proof.
rewrite /range_step2 addnK mul2n uphalf_double.
by apply: eq_map => k; rewrite addnC.
Qed.

(** The state of the loop of [nQudit_quadratures] after [k] iterations. *)
Lemma quadratures_loop d n k :
  (0 < n)%N ->
  let st := foldl (fun st i =>
            let: (S0, count) := st in
            let v := [seq astype_int x | x <- flatten (dag (ket C n count))] in
            let S1 := setitem S0 i (generate_nQudit_X C d v) in
            let S2 := setitem S1 (i + 1)%N (generate_nQudit_Z w d v) in
            (S2, (count + 1)%N))
         ([::], 0%N) [seq (2 * k + 1)%N | k <- iota 0 k] in
  st.2 = k /\
  forall i, (i < 2 * k)%N -> getitem st.1 (i + 1)%N = Some (quadrature w d n i).
Proof.
move=> n0; elim: k => [|k IHk]; first by split.
have -> : iota 0 k.+1 = rcons (iota 0 k) k by rewrite -addn1 iotaD /= cats1.
rewrite map_rcons foldl_rcons.
case: (foldl _ _ _) IHk => S0 count /= [-> HS0].
rewrite addn1 unit_vector_of_ket //; split=> // i lt_i.
rewrite !getitem_setitem !eqn_add2r.
case: (2 * k + 1 =P i)%N => [<-|ne1].
  by rewrite /quadrature addn1 /= mul2n odd_double /= uphalf_double.
case: (2 * k =P i)%N => [<-|ne0].
  by rewrite /quadrature mul2n odd_double doubleK.
apply: HS0; move: lt_i; rewrite mulnS add2n !ltnS leq_eqVlt.
case/orP => [/eqP e|]; first by case: ne1; rewrite addn1.
rewrite ltnS leq_eqVlt; case/orP => [/eqP e|//].
by case: ne0.
Qed.

Lemma getitem_quadratures d n i :
  (0 < n)%N -> (i < 2 * n)%N ->
  getitem (nQudit_quadratures w d n) (i + 1)%N = Some (quadrature w d n i).
Proof.
move=> n0 lt_i; rewrite /nQudit_quadratures range_step2_odd.
by have [_ ->] := quadratures_loop d n n0.
Qed.

Lemma quadrature_matrix d n i :
  (0 < n)%N -> quadrature w d n i = Matrix (quadrature_array w d n i).
Proof.
move=> n0; rewrite /quadrature_array /quadrature; case: (odd i).
  by rewrite -generate_nQudit_Z_matrix // size_unit_vector.
by rewrite -generate_nQudit_X_matrix // size_unit_vector.
Qed.

Lemma has_shape_quadrature d n i :
  (1 < d)%N -> has_shape (d ^ n) (d ^ n) (quadrature_array w d n i).
Proof.
move=> d1; rewrite /quadrature_array /quadrature; case: (odd i).
  by rewrite generate_nQudit_Z_array ?size_unit_vector ?has_shape_mkarray // ltnW.
by rewrite generate_nQudit_X_array ?size_unit_vector ?has_shape_mkarray.
Qed.

Lemma has_shape_dag m n (A : ndarray C) :
  has_shape m n A -> (0 < m)%N -> has_shape n m (dag A).
Proof.
move=> sA m0.
by rewrite /dag (has_shape_nrows sA) (has_shape_ncols m0 sA) has_shape_mkarray.
Qed.

Lemma has_shape_mmul m n p (A B : ndarray C) :
  has_shape m n A -> has_shape n p B -> (0 < n)%N -> has_shape m p (mmul A B).
Proof.
move=> sA sB n0.
by rewrite /mmul (has_shape_nrows sA) (has_shape_ncols n0 sB) has_shape_mkarray.
Qed.

Lemma matmul_shaped m n p (A B : ndarray C) :
  has_shape m n A -> has_shape n p B -> (0 < m)%N ->
  matmul (Matrix A) (Matrix B) = Some (mmul A B).
Proof.
move=> sA sB m0.
by rewrite /matmul /matmul_arrays (has_shape_ncols m0 sA) (has_shape_nrows sB) eqxx.
Qed.

Lemma cov_body X d n V i j :
  (1 < d)%N -> (0 < n)%N -> has_shape (d ^ n) (d ^ n) X ->
  (i < 2 * n)%N -> (j < 2 * n)%N ->
  (if getitem (nQudit_quadratures w d n) (i + 1)%N is Some Si then
     if matmul (Matrix X) Si is Some XS then
       if getitem (nQudit_quadratures w d n) (j + 1)%N is Some Sj then
         if matmul (Matrix XS) (dag_value Sj) is Some P then
           Some (setentry V i j (Tr P))
         else None
       else None
     else None
   else None) = Some (setentry V i j (cov_entry w X d n i j)).
Proof.
move=> d1 n0 sX lt_i lt_j.
have N0 : (0 < d ^ n)%N by rewrite expn_gt0 (ltnW d1).
rewrite !getitem_quadratures // !quadrature_matrix //; cbv beta iota.
rewrite (matmul_shaped sX (has_shape_quadrature n i d1)) //; cbv beta iota.
rewrite [dag_value _]/= (@matmul_shaped (d ^ n) (d ^ n) (d ^ n)) //.
- exact: (has_shape_mmul sX (has_shape_quadrature n i d1)).
- exact: has_shape_dag (has_shape_quadrature n j d1) N0.
Qed.

(** What [nQudit_cov_matrix] returns, entry by entry. *)
Lemma nQudit_cov_matrix_closed X d n :
  (1 < d)%N -> (0 < n)%N -> has_shape (d ^ n) (d ^ n) X ->
  exists V,
    [/\ nQudit_cov_matrix w X d n = Some V,
        has_shape (2 * n) (2 * n) V
      & forall i j, (i < 2 * n)%N -> (j < 2 * n)%N ->
          item V i j = cov_entry w X d n i j].
Proof.
move=> d1 n0 sX.
pose f := cov_entry w X d n.
pose rs := range 0 (2 * n).
have in_rs i : (i \in rs) = (i < 2 * n)%N by rewrite /rs /range subn0 mem_iota.
have all_rs : all (fun i => i < 2 * n)%N rs by apply/allP => i; rewrite in_rs.
have [sV HV] := foldl_setentry f (has_shape_mkarray (2 * n) (2 * n) (fun _ _ => 0))
                  all_rs all_rs.
exists (foldl (fun V i => foldl (fun V j => setentry V i j (f i j)) V rs)
              (zeros C (2 * n) (2 * n)) rs); split=> //.
- rewrite /nQudit_cov_matrix -/rs -for_each_pure.
  apply: for_each_ext => i; rewrite in_rs => lt_i V.
  rewrite -for_each_pure; apply: for_each_ext => j; rewrite in_rs => lt_j V'.
  exact: cov_body.
by move=> i j lt_i lt_j; rewrite HV !in_rs lt_i lt_j.
Qed.

(** C4, as the code has it.  For every [d >= 2], [n >= 1] and every
    [d^n x d^n] operator [X], [nQudit_cov_matrix(X, d, n)] returns a
    [2n x 2n] matrix [V] of complex numbers whose entry [V[i,j]] is
    [Tr(X @ S[i+1] @ dag(S[j+1]))] for all [i], [j] in [0, 2n), where
    [S = nQudit_quadratures(d, n)]. *)
Theorem nQudit_cov_matrix_entries X d n :
  (1 < d)%N -> (0 < n)%N -> has_shape (d ^ n) (d ^ n) X ->
  exists V,
    [/\ nQudit_cov_matrix w X d n = Some V,
        has_shape (2 * n) (2 * n) V
      & forall i j, (i < 2 * n)%N -> (j < 2 * n)%N ->
        exists Si Sj,
          [/\ getitem (nQudit_quadratures w d n) (i + 1)%N = Some (Matrix Si),
              getitem (nQudit_quadratures w d n) (j + 1)%N = Some (Matrix Sj)
            & item V i j = Tr (mmul (mmul X Si) (dag Sj))]].
Proof.
move=> d1 n0 sX.
have [V [HV sV Hent]] := nQudit_cov_matrix_closed d1 n0 sX.
exists V; split=> // i j lt_i lt_j.
exists (quadrature_array w d n i), (quadrature_array w d n j).
by rewrite !getitem_quadratures // !quadrature_matrix // Hent.
Qed.

End Covariance.

(** ** The keys of the coefficient table *)

Section Keys.

Implicit Types (s t u v : string) (l : seq nat).

Lemma append_assoc s t u :
  String.append (String.append s t) u = String.append s (String.append t u).
Proof. by elim: s => [//|c s IHs] /=; rewrite IHs. Qed.

Lemma digit_string_uint (u : Decimal.uint) :
  digit_string (DecimalString.NilEmpty.string_of_uint u).
Proof. by elim: u => [//|u IHu|u IHu|u IHu|u IHu|u IHu|u IHu|u IHu|u IHu|u IHu|u IHu]. Qed.

Lemma digit_string_str_int n : digit_string (str_int n).
Proof. exact: digit_string_uint. Qed.

Lemma str_int_inj : injective str_int.
Proof.
move=> a b e; apply: DecimalNat.Unsigned.to_uint_inj.
have := DecimalString.NilEmpty.usu (Nat.to_uint a).
by rewrite -/(str_int a) e /str_int DecimalString.NilEmpty.usu => -[].
Qed.

Lemma str_int_nonempty n : str_int n <> EmptyString.
Proof.
move=> e; have e0 : n = 0%N.
  rewrite -(DecimalNat.Unsigned.of_to n).
  have := DecimalString.NilEmpty.usu (Nat.to_uint n).
  by rewrite -/(str_int n) e /= => -[<-].
by move: e; rewrite e0.
Qed.

Lemma digit_prefix_inj u v s t :
  digit_string u -> digit_string v -> starts_nondigit s -> starts_nondigit t ->
  String.append u s = String.append v t -> u = v /\ s = t.
Proof.
elim: u v => [|c u IHu] [|c' v] //=.
- by move=> _ /andP[dc _]; case: s => [//|c0 s] /= nd _ [e _]; rewrite e dc in nd.
- move=> {IHu} /andP[dc _] _ _.
  by case: t => [//|c0 t] /= nd [e _]; rewrite -e dc in nd.
move=> /andP[_ du] /andP[_ dv] ns nt [-> e].
by have [-> ->] := IHu _ du dv ns nt e.
Qed.

Lemma starts_nondigit_render_tail l : starts_nondigit (render_tail l).
Proof. by case: l. Qed.

Lemma render_tail_inj : injective render_tail.
Proof.
elim=> [|x l IHl] [|y l'] //= [e].
have [ex el] := digit_prefix_inj (digit_string_str_int x) (digit_string_str_int y)
  (starts_nondigit_render_tail l) (starts_nondigit_render_tail l') e.
by rewrite (str_int_inj ex) (IHl _ el).
Qed.

Lemma str_list_cons x l :
  str_list (x :: l) =
  String.append "[" (String.append (str_int x) (render_tail l)).
Proof.
rewrite /str_list; congr (String.append _ _).
elim: l x => [//|y l IHl] x.
rewrite [render_tail _]/= -IHl.
rewrite [map _ _]/= [String.concat _ _]/= -/(String.concat _ _).
by rewrite append_assoc.
Qed.

Lemma str_list_inj : injective str_list.
Proof.
case=> [|x l] [|y l'] //; rewrite ?str_list_cons.
- move=> [e].
  have [e' _] := @digit_prefix_inj EmptyString (str_int y) "]" (render_tail l')
    isT (digit_string_str_int y) isT (starts_nondigit_render_tail l') e.
  by case: (@str_int_nonempty y).
- move=> [e].
  have [e' _] := @digit_prefix_inj (str_int x) EmptyString (render_tail l) "]"
    (digit_string_str_int x) isT (starts_nondigit_render_tail l) isT e.
  by case: (@str_int_nonempty x).
move=> [e].
have [ex el] := digit_prefix_inj (digit_string_str_int x) (digit_string_str_int y)
  (starts_nondigit_render_tail l) (starts_nondigit_render_tail l') e.
by rewrite (str_int_inj ex) (render_tail_inj el).
Qed.

Lemma key_inj (p q : seq nat * seq nat) :
  (str_list p.1, str_list p.2) = (str_list q.1, str_list q.2) -> p = q.
Proof.
case: p q => [a b] [a' b'] /= e.
have /= ea := congr1 fst e; have /= eb := congr1 snd e.
by rewrite (str_list_inj ea) (str_list_inj eb).
Qed.

End Keys.

(** ** Tables filled by nested loops *)

Section Tables.

Lemma foldl_mapE (T U A : Type) (f : A -> U -> A) (g : T -> U) (a : A)
    (xs : seq T) :
  foldl f a (map g xs) = foldl (fun a x => f a (g x)) a xs.
Proof. by elim: xs a => [//|x xs IHxs] a /=; rewrite IHxs. Qed.

Lemma foldl_allpairs (T U A : Type) (f : A -> T -> U -> A) (a : A)
    (xs : seq T) (ys : seq U) :
  foldl (fun a x => foldl (fun a y => f a x y) a ys) a xs =
  foldl (fun a p => f a p.1 p.2) a [seq (x, y) | x <- xs, y <- ys].
Proof.
elim: xs a => [//|x xs IHxs] a /=.
by rewrite foldl_cat -IHxs foldl_mapE.
Qed.

Variables (K T : eqType) (V : Type).
Implicit Types (D : dict K V) (key : T -> K) (val : T -> V) (items : seq T).

Lemma foldl_setitem_fresh D key val items :
  uniq (keys D ++ map key items) ->
  foldl (fun D it => setitem D (key it) (val it)) D items =
  D ++ [seq (key it, val it) | it <- items].
Proof.
elim: items D => [|it items IHitems] D /=; first by rewrite !cats0.
rewrite cat_uniq /= => /and3P[uD /norP[nit nD] /andP[nk uk]].
rewrite setitem_fresh // IHitems ?cat_rcons //.
rewrite keys_rcons cat_uniq rcons_uniq nit uD uk /= andbT.
apply/hasPn => k kin; rewrite mem_rcons in_cons negb_or.
apply/andP; split; first by apply: contraNneq nk => <-.
by move/hasPn: nD => /(_ k kin).
Qed.

Lemma getitem_map_uniq key val items it :
  {in items &, injective key} -> it \in items ->
  getitem [seq (key x, val x) | x <- items] (key it) = Some (val it).
Proof.
elim: items => [//|x items IHitems] inj itin /=.
case: (key x =P key it) => [e|ne].
  by rewrite (inj _ _ (mem_head _ _) itin e).
move: itin; rewrite in_cons => /orP[/eqP e|itin]; first by rewrite e in ne.
apply: IHitems => // y z yin zin; apply: inj.
  by rewrite in_cons yin orbT.
by rewrite in_cons zin orbT.
Qed.

End Tables.

(** ** The coefficient table of the Weyl decomposition *)

Section WeylCoefficients.

Variable C : archiClosedFieldType.
Variable w : nat -> C.

Implicit Types (d n : nat) (X : ndarray C) (s t : seq nat).

Lemma uniq_product d n : uniq (product (nseq n (range 0 d))).
Proof.
rewrite product_digits map_inj_in_uniq ?iota_uniq // => i j.
rewrite !mem_iota !add0n /= => lt_i lt_j e.
by rewrite -(digits_valueK lt_i) e digits_valueK.
Qed.

Lemma uniq_pairs (T : eqType) (xs ys : seq T) :
  uniq xs -> uniq ys -> uniq [seq (x, y) | x <- xs, y <- ys].
Proof. by move=> uxs uys; apply: allpairs_uniq => // -[x y] [x' y']. Qed.

Lemma matmul_XZ_weyl_array d n s t :
  (1 < d)%N -> (0 < n)%N -> size s = n -> size t = n ->
  matmul (generate_nQudit_X C d s) (generate_nQudit_Z w d t) =
  Some (weyl_array w d n s t).
Proof. exact: matmul_XZ. Qed.

Lemma coeff_body X d n (Ctab : dict (string * string)%type C) s t :
  (1 < d)%N -> (0 < n)%N -> has_shape (d ^ n) (d ^ n) X ->
  size s = n -> size t = n ->
  (if matmul (generate_nQudit_X C d s) (generate_nQudit_Z w d t) is Some G then
     if matmul_arrays (dag G) X is Some P then
       Some (setitem Ctab (str_list s, str_list t)
                     ((d ^ n)%:R^-1 * around (Tr P) 10))
     else None
   else None) =
  Some (setitem Ctab (str_list s, str_list t) (weyl_coefficient w X d n s t)).
Proof.
move=> d1 n0 sX ss st.
have N0 : (0 < d ^ n)%N by rewrite expn_gt0 (ltnW d1).
rewrite (matmul_XZ_weyl_array d1 n0 ss st); cbv beta iota.
rewrite /matmul_arrays {1}/weyl_array dag_mkarray // ncols_mkarray //.
by rewrite (has_shape_nrows sX) eqxx /weyl_coefficient /weyl_array dag_mkarray.
Qed.

Lemma nQudit_Weyl_coeff_eq X d n :
  (1 < d)%N -> (0 < n)%N -> has_shape (d ^ n) (d ^ n) X ->
  let S := product (nseq n (range 0 d)) in
  nQudit_Weyl_coeff w X d n =
  Some [seq ((str_list p.1, str_list p.2), weyl_coefficient w X d n p.1 p.2)
       | p <- [seq (s, t) | s <- S, t <- S]].
Proof.
move=> d1 n0 sX S; have d0 : (0 < d)%N by exact: ltnW.
rewrite /nQudit_Weyl_coeff -/S.
pose f (Ctab : dict (string * string)%type C) s t :=
  setitem Ctab (str_list s, str_list t) (weyl_coefficient w X d n s t).
rewrite (@for_each_ext _ _ _ _
  (fun Ctab s => Some (foldl (fun Ctab t => f Ctab s t) Ctab S))).
  move=> s /(mem_product d0)[ss _] Ctab.
  rewrite -for_each_pure; apply: for_each_ext => t /(mem_product d0)[st _] Ctab'.
  exact: coeff_body.
rewrite for_each_pure foldl_allpairs.
rewrite (@foldl_setitem_fresh _ _ _ [::] (fun p => (str_list p.1, str_list p.2))
           (fun p => weyl_coefficient w X d n p.1 p.2)) //=.
rewrite map_inj_uniq ?uniq_pairs ?uniq_product //.
by move=> p q; apply: key_inj.
Qed.

Lemma getitem_weyl_coeff X d n s t :
  (1 < d)%N -> (0 < n)%N ->
  let S := product (nseq n (range 0 d)) in
  s \in S -> t \in S ->
  getitem [seq ((str_list p.1, str_list p.2), weyl_coefficient w X d n p.1 p.2)
          | p <- [seq (s, t) | s <- S, t <- S]]
          (str_list s, str_list t)
  = Some (weyl_coefficient w X d n s t).
Proof.
move=> d1 n0 S sS tS.
rewrite (@getitem_map_uniq _ _ _ (fun p => (str_list p.1, str_list p.2))
           (fun p => weyl_coefficient w X d n p.1 p.2) _ (s, t)) //.
  by move=> p q _ _; apply: key_inj.
by apply/allpairsP; exists (s, t).
Qed.

(** C3, as the code has it.  For every [d >= 2], [n >= 1] and operator [X],
    [nQudit_Weyl_coeff(X, d, n)] returns a mapping whose keys are exactly the
    pairs [(str(s), str(t))] for all [s], [t] in [[0,d)^n], each once and in
    the order of the loops, and whose value at [(s, t)] is
    [(1/d^n) * np.around(Tr(dag(G) @ X), 10)] with
    [G = generate_nQudit_X(d, s) @ generate_nQudit_Z(d, t)]: the trace is
    rounded to 10 decimal places and then scaled by [1/d^n]. *)
Theorem nQudit_Weyl_coeff_table X d n :
  (1 < d)%N -> (0 < n)%N -> has_shape (d ^ n) (d ^ n) X ->
  let S := product (nseq n (range 0 d)) in
  exists Ctab,
    [/\ nQudit_Weyl_coeff w X d n = Some Ctab,
        keys Ctab = [seq (str_list s, str_list t) | s <- S, t <- S],
        uniq (keys Ctab)
      & forall s t, s \in S -> t \in S ->
        exists G,
          matmul (generate_nQudit_X C d s) (generate_nQudit_Z w d t) = Some G /\
          getitem Ctab (str_list s, str_list t) =
          Some ((d ^ n)%:R^-1 * around (Tr (mmul (dag G) X)) 10)].
Proof.
move=> d1 n0 sX S; have d0 : (0 < d)%N by exact: ltnW.
exists [seq ((str_list p.1, str_list p.2), weyl_coefficient w X d n p.1 p.2)
       | p <- [seq (s, t) | s <- S, t <- S]].
have eK : keys [seq ((str_list p.1, str_list p.2),
                     weyl_coefficient w X d n p.1 p.2)
               | p <- [seq (s, t) | s <- S, t <- S]]
          = [seq (str_list s, str_list t) | s <- S, t <- S].
  rewrite /keys /unzip1 -map_comp.
  by rewrite -(map_allpairs (fun p => (str_list p.1, str_list p.2)) pair).
split.
- exact: nQudit_Weyl_coeff_eq.
- exact: eK.
- rewrite eK -(map_allpairs (fun p => (str_list p.1, str_list p.2)) pair).
  rewrite map_inj_uniq ?uniq_pairs ?uniq_product //.
  by move=> p q; apply: key_inj.
move=> s t sS tS; exists (weyl_array w d n s t).
have [ss _] := mem_product d0 sS; have [st _] := mem_product d0 tS.
by rewrite getitem_weyl_coeff // (matmul_XZ_weyl_array d1 n0 ss st).
Qed.

End WeylCoefficients.

(** ** The error of [np.around] *)

Section Rounding.

Variable C : archiClosedFieldType.
Implicit Types (x y z : C) (k : nat).

Lemma rint_error y : y \is Num.real -> `|(rint y)%:~R - y| <= 2%:R^-1.
Proof.
move=> ry; rewrite /rint.
set f := Num.floor y; set r := y - f%:~R.
have rf : f%:~R \is @Num.real C by rewrite realz.
have rr : r \is Num.real by rewrite /r realB.
have r0 : 0 <= r by rewrite /r subr_ge0 real_floor_le.
have r1 : r < 1.
  have := real_floorD1_gt ry; rewrite -/f rmorphD /= mulr1z.
  by rewrite /r ltrBlDl.
have half_real : (2%:R^-1 : C) \is Num.real by rewrite realV realn.
have ef : f%:~R - y = - r by rewrite /r opprB.
have ef1 : (f + 1)%:~R - y = 1 - r.
  by rewrite rmorphD /= mulr1z /r opprB [_ + 1]addrC addrA.
have two : (2%:R^-1 : C) + 2%:R^-1 = 1.
  by rewrite -mulr2n -mulr_natr mulVf // pnatr_eq0.
have up : 1 - r <= 2%:R^-1 -> `|1 - r| <= 2%:R^-1.
  by move=> h; rewrite ger0_norm // subr_ge0 ltW.
have dn : r <= 2%:R^-1 -> `|- r| <= 2%:R^-1 by move=> h; rewrite normrN ger0_norm.
case: (real_ltgtP rr half_real) => [lt_r|gt_r|eq_r].
- by rewrite ef dn // ltW.
- by rewrite ef1 up // lerBlDl -lerBlDr -{1}two addrK ltW.
- have h1 : 1 - r <= 2%:R^-1 by rewrite eq_r -{1}two addrK.
  have h2 : r <= 2%:R^-1 by rewrite eq_r.
  by case: (odd _); rewrite ?ef1 ?ef ?up ?dn.
Qed.

Lemma around_real_error x k :
  x \is Num.real -> `|around_real x k - x| <= 2%:R^-1 / 10%:R ^+ k.
Proof.
move=> rx; rewrite /around_real.
have p0 : 0 < (10%:R ^+ k : C) by rewrite exprn_gt0 // ltr0n.
have ry : x * 10%:R ^+ k \is Num.real by rewrite realM // realX // realn.
have -> : (rint (x * 10%:R ^+ k))%:~R / 10%:R ^+ k - x
          = ((rint (x * 10%:R ^+ k))%:~R - x * 10%:R ^+ k) / 10%:R ^+ k.
  by rewrite mulrBl mulfK // gt_eqF.
by rewrite normrM normfV (gtr0_norm p0) ler_pM2r ?invr_gt0 // rint_error.
Qed.

Lemma around_real_real x k : around_real x k \is Num.real.
Proof. by rewrite /around_real realM ?realz // realV realX // realn. Qed.

Lemma around_error z k : `|around z k - z| <= (10%:R ^+ k)^-1.
Proof.
rewrite /around {3}[z]Crect.
have -> : around_real ('Re z) k + 'i * around_real ('Im z) k
          - ('Re z + 'i * 'Im z)
          = (around_real ('Re z) k - 'Re z)
            + 'i * (around_real ('Im z) k - 'Im z).
  by rewrite mulrBr opprD addrACA.
apply: le_trans (ler_normD _ _) _.
rewrite normrM normCi mul1r.
have two : (2%:R^-1 : C) + 2%:R^-1 = 1.
  by rewrite -mulr2n -mulr_natr mulVf // pnatr_eq0.
have -> : (10%:R ^+ k)^-1 = 2%:R^-1 / 10%:R ^+ k + 2%:R^-1 / 10%:R ^+ k :> C.
  by rewrite -mulrDl two mul1r.
by apply: lerD; apply: around_real_error; rewrite ?Creal_Re ?Creal_Im.
Qed.

(** *** Values of [np.around] *)

Lemma rintz (m : int) : rint (m%:~R : C) = m.
Proof.
rewrite /rint intrKfloor subrr.
by rewrite invr_gt0 ltr0n.
Qed.

Lemma floor_half : Num.floor (2%:R^-1 : C) = 0.
Proof.
apply: floor_def; rewrite add0r invr_ge0 ler0n /= invf_lt1 ?ltr0n //.
by rewrite ltr1n.
Qed.

Lemma rint_half : rint (2%:R^-1 : C) = 0.
Proof. by rewrite /rint floor_half subr0 ltxx. Qed.

Lemma around_real0 k : around_real (0 : C) k = 0.
Proof. by rewrite /around_real mul0r (rintz 0) mul0r. Qed.

Lemma around_of_real x k : x \is Num.real -> around x k = around_real x k.
Proof.
move=> rx; rewrite /around (Creal_ReP _ rx) (Creal_ImP _ rx).
by rewrite around_real0 mulr0 addr0.
Qed.

Lemma around_real_decimal (m : int) k :
  around_real (m%:~R / 10%:R ^+ k : C) k = m%:~R / 10%:R ^+ k.
Proof.
by rewrite /around_real divfK ?rintz // expf_neq0 // pnatr_eq0.
Qed.

End Rounding.

(** ** Completeness of the n-qudit Weyl operators *)

Section Completeness.

Variable C : archiClosedFieldType.
Variable w : nat -> C.
Hypothesis w_prim : forall d, (0 < d)%N -> d.-primitive_root (w d).

Implicit Types (d n : nat) (s t : seq nat).

Local Notation tuples d n := (product (nseq n (range 0 d))).

Lemma big_tuples d n (F : seq nat -> C) :
  \sum_(s <- tuples d n.+1) F s =
  \sum_(s <- tuples d n) \sum_(0 <= x < d) F (rcons s x).
Proof. by rewrite product_nseqS big_allpairs_dep. Qed.

Lemma sum_tuples0 d (F : seq nat -> C) : \sum_(s <- tuples d 0) F s = F [::].
Proof. by rewrite /product /= big_seq1. Qed.

Lemma sum_shift_digit d k0 a0 b0 :
  (0 < d)%N -> (k0 < d)%N -> (a0 < d)%N ->
  \sum_(0 <= x < d) (k0 == (b0 + x) %% d)%N%:R * (a0 == (b0 + x) %% d)%N%:R
  = (k0 == a0)%:R :> C.
Proof.
move=> d0 k0d a0d.
rewrite (eq_big_nat _ _ (F2 := fun x =>
           (a0 == (b0 + x) %% d)%N%:R * (x == sub_mod k0 b0 d)%:R)).
  move=> x /andP[_ xd].
  by rewrite mulrC [(b0 + x)%N]addnC (shift_eq b0 d0 k0d xd).
rewrite sum_delta_rsym sub_mod_lt // [(b0 + _)%N]addnC add_sub_mod //.
by rewrite eq_sym.
Qed.

Lemma sum_shift_pair d n k a b :
  (0 < d)%N -> (k < d ^ n)%N -> (a < d ^ n)%N ->
  \sum_(s <- tuples d n)
     (shift_entry d (rev s) k b)%:R * (shift_entry d (rev s) a b)%:R
  = (k == a)%:R :> C.
Proof.
move=> d0; elim: n k a b => [|n IHn] k a b.
  rewrite expn0 !ltnS !leqn0 => /eqP -> /eqP ->.
  by rewrite sum_tuples0 /= mulr1.
rewrite expnSr => lt_k lt_a; rewrite big_tuples.
rewrite (eq_bigr (fun s =>
   ((shift_entry d (rev s) (k %/ d) (b %/ d))%:R
    * (shift_entry d (rev s) (a %/ d) (b %/ d))%:R) * (k %% d == a %% d)%N%:R)).
  move=> s _; rewrite -(sum_shift_digit (b %% d) d0 (ltn_pmod k d0) (ltn_pmod a d0)).
  rewrite big_distrr /=; apply: eq_bigr => x _.
  by rewrite rev_rcons /= -!mulnb !natrM mulrACA.
by rewrite -big_distrl /= IHn ?ltn_divLR // -natrM mulnb divmod_eq.
Qed.

Lemma sum_shift d n a b :
  (0 < d)%N -> (a < d ^ n)%N ->
  \sum_(s <- tuples d n) (shift_entry d (rev s) a b)%:R = 1 :> C.
Proof.
move=> d0 lt_a.
transitivity (\sum_(s <- tuples d n)
    (shift_entry d (rev s) a b)%:R * (shift_entry d (rev s) a b)%:R : C).
  by apply: eq_bigr => s _; rewrite -natrM mulnb andbb.
by rewrite sum_shift_pair // eqxx.
Qed.

Lemma sum_phase_digit d i0 b0 :
  (0 < d)%N -> (i0 < d)%N -> (b0 < d)%N ->
  \sum_(0 <= z < d) (w d ^+ (i0 * z))^* * w d ^+ (b0 * z)
  = d%:R * (i0 == b0)%:R.
Proof.
move=> d0 i0d b0d.
rewrite (eq_bigr (fun z => (w d ^+ (z * i0))^* * w d ^+ (z * b0))).
  by move=> z _; rewrite ![(z * _)%N]mulnC.
rewrite (sum_w_orth w_prim) //.
by case: (i0 == b0); rewrite ?mulr1 ?mulr0.
Qed.

Lemma sum_phase d n i b :
  (0 < d)%N -> (i < d ^ n)%N -> (b < d ^ n)%N ->
  \sum_(t <- tuples d n) (phase_entry w d (rev t) i)^* * phase_entry w d (rev t) b
  = (d ^ n)%:R * (i == b)%:R.
Proof.
move=> d0; elim: n i b => [|n IHn] i b.
  rewrite expn0 !ltnS !leqn0 => /eqP -> /eqP ->.
  by rewrite sum_tuples0 /= rmorph1 !mulr1.
rewrite expnSr => lt_i lt_b; rewrite big_tuples.
rewrite (eq_bigr (fun t =>
   ((phase_entry w d (rev t) (i %/ d))^* * phase_entry w d (rev t) (b %/ d))
   * (d%:R * (i %% d == b %% d)%N%:R))).
  move=> t _; rewrite -(sum_phase_digit d0 (ltn_pmod i d0) (ltn_pmod b d0)).
  rewrite big_distrr /=; apply: eq_bigr => z _.
  by rewrite rev_rcons /= rmorphM /= mulrACA.
rewrite -big_distrl /= IHn ?ltn_divLR // natrM mulrACA.
by rewrite -[in RHS](divmod_eq i b d) -mulnb [in RHS]natrM.
Qed.

Lemma norm_phase d s b : (0 < d)%N -> `|phase_entry w d s b| = 1.
Proof.
move=> d0; elim: s b => [|z s IHs] b /=; first by rewrite normr1.
rewrite normrM IHs mul1r normrX.
have : `|w d| ^+ d == 1.
  by rewrite -normrX (prim_expr_order (w_prim d0)) normr1.
by rewrite pexpr_eq1 // => /eqP ->; rewrite expr1n.
Qed.

Lemma sum_tuples_const d n (c : C) :
  \sum_(t <- tuples d n) c = (d ^ n)%:R * c.
Proof.
by rewrite big_const_seq count_predT size_product iter_addr_0 mulr_natl.
Qed.

End Completeness.

(** ** The round trip of the Weyl decomposition *)

Section SumsOfArrays.

Variable C : archiClosedFieldType.

Lemma foldl_madd_seq (T : eqType) (m n : nat) (f0 : nat -> nat -> C)
    (g : T -> nat -> nat -> C) (term : T -> ndarray C) (s : seq T) :
  (0 < m)%N ->
  {in s, forall i, term i = mkarray m n (g i)} ->
  foldl (fun A i => madd A (term i)) (mkarray m n f0) s =
  mkarray m n (fun r c => f0 r c + \sum_(i <- s) g i r c).
Proof.
move=> m0; elim: s f0 => [|i s IHs] f0 Hterm /=.
  by apply: eq_mkarray => r c _ _; rewrite big_nil addr0.
rewrite Hterm ?mem_head // madd_mkarray // IHs.
  by move=> k ks; apply: Hterm; rewrite in_cons ks orbT.
by apply: eq_mkarray => r c _ _; rewrite big_cons addrA.
Qed.

Lemma distr_sum2 (c g : C) (N : nat) (F : nat -> nat -> C) :
  c * (\sum_(0 <= i < N) \sum_(0 <= k < N) F i k) * g =
  \sum_(0 <= i < N) \sum_(0 <= k < N) c * F i k * g.
Proof.
rewrite mulr_sumr mulr_suml; apply: eq_bigr => i _.
by rewrite mulr_sumr mulr_suml.
Qed.

Lemma exchange_sum4 (I J : Type) (r1 : seq I) (r2 : seq J) (N : nat)
    (H : I -> J -> nat -> nat -> C) :
  \sum_(s <- r1) \sum_(t <- r2) \sum_(0 <= i < N) \sum_(0 <= k < N) H s t i k =
  \sum_(0 <= i < N) \sum_(0 <= k < N) \sum_(s <- r1) \sum_(t <- r2) H s t i k.
Proof.
transitivity (\sum_(s <- r1) \sum_(0 <= i < N) \sum_(0 <= k < N)
                \sum_(t <- r2) H s t i k).
  apply: eq_bigr => s _; rewrite exchange_big /=.
  by apply: eq_bigr => i _; rewrite exchange_big.
rewrite exchange_big /=; apply: eq_bigr => i _.
by rewrite exchange_big.
Qed.

End SumsOfArrays.

Section RoundTrip.

Variable C : archiClosedFieldType.
Variable w : nat -> C.
Hypothesis w_prim : forall d, (0 < d)%N -> d.-primitive_root (w d).

Implicit Types (d n : nat) (X : ndarray C) (s t : seq nat).

Local Notation tuples d n := (product (nseq n (range 0 d))).
Local Notation sh d s a b := ((shift_entry d (rev s) a b)%:R : C).
Local Notation ph d t b := (phase_entry w d (rev t) b).

(** The trace that [nQudit_Weyl_coeff] rounds. *)
Lemma weyl_trace X d n s t :
  (0 < d)%N -> has_shape (d ^ n) (d ^ n) X ->
  Tr (mmul (dag (weyl_array w d n s t)) X) =
  \sum_(0 <= i < d ^ n) \sum_(0 <= k < d ^ n)
     sh d s k i * (ph d t i)^* * item X k i.
Proof.
move=> d0 sX; have N0 : (0 < d ^ n)%N by rewrite expn_gt0 d0.
rewrite /weyl_array dag_mkarray // -{1}(mkarray_item sX) mmul_mkarray //.
rewrite Tr_mkarray; apply: eq_bigr => i _; apply: eq_bigr => k _.
by rewrite rmorphM /= conjC_nat.
Qed.

(** Without rounding the decomposition is exact. *)
Lemma weyl_reconstruction X d n a b :
  (0 < d)%N -> has_shape (d ^ n) (d ^ n) X ->
  (a < d ^ n)%N -> (b < d ^ n)%N ->
  \sum_(s <- tuples d n) \sum_(t <- tuples d n)
     (d ^ n)%:R^-1 * Tr (mmul (dag (weyl_array w d n s t)) X)
     * (sh d s a b * ph d t b)
  = item X a b.
Proof.
move=> d0 sX lt_a lt_b.
have N0 : (0 < d ^ n)%N by rewrite expn_gt0 d0.
have Nne0 : (d ^ n)%:R != 0 :> C by rewrite pnatr_eq0 -lt0n.
transitivity (\sum_(s <- tuples d n) \sum_(t <- tuples d n)
    \sum_(0 <= i < d ^ n) \sum_(0 <= k < d ^ n)
      (d ^ n)%:R^-1 * (sh d s k i * (ph d t i)^* * item X k i)
      * (sh d s a b * ph d t b)).
  apply: eq_bigr => s _; apply: eq_bigr => t _.
  by rewrite weyl_trace // distr_sum2.
rewrite exchange_sum4.
transitivity (\sum_(0 <= i < d ^ n) \sum_(0 <= k < d ^ n)
    ((k == a)%:R * item X k i) * (i == b)%:R).
  apply: eq_big_nat => i /andP[_ lt_i]; apply: eq_big_nat => k /andP[_ lt_k].
  transitivity ((d ^ n)%:R^-1 * item X k i
     * ((\sum_(s <- tuples d n) sh d s k i * sh d s a b)
        * (\sum_(t <- tuples d n) (ph d t i)^* * ph d t b))).
    rewrite big_distrlr /= mulr_sumr; apply: eq_bigr => s _.
    by rewrite mulr_sumr; apply: eq_bigr => t _; ring.
  rewrite (sum_phase w_prim) //.
  case: (i =P b) => [->|_]; last by rewrite !mulr0.
  by rewrite sum_shift_pair // mulr1 [_ * (d ^ n)%:R]mulrC mulrACA mulVf // mul1r mulrC mulr1n mulr1.
transitivity (\sum_(0 <= i < d ^ n) item X a i * (i == b)%:R).
  apply: eq_bigr => i _.
  by rewrite -mulr_suml sum_delta_sym lt_a.
by rewrite sum_delta_rsym lt_b.
Qed.

Lemma weighted_sum_table X d n :
  (1 < d)%N -> (0 < n)%N ->
  let S := tuples d n in
  weyl_weighted_sum w
    [seq ((str_list p.1, str_list p.2), weyl_coefficient w X d n p.1 p.2)
    | p <- [seq (s, t) | s <- S, t <- S]] d n =
  Some (mkarray (d ^ n) (d ^ n) (fun a b =>
          \sum_(s <- S) \sum_(t <- S)
             weyl_coefficient w X d n s t * (sh d s a b * ph d t b))).
Proof.
move=> d1 n0 S; have d0 : (0 < d)%N by exact: ltnW.
have N0 : (0 < d ^ n)%N by rewrite expn_gt0 d0.
rewrite /weyl_weighted_sum -/S.
pose term (p : seq nat * seq nat) :=
  mscale (weyl_coefficient w X d n p.1 p.2) (weyl_array w d n p.1 p.2).
rewrite (@for_each_ext _ _ _ _
  (fun R s => Some (foldl (fun R t => madd R (term (s, t))) R S))).
  move=> s sS R.
  rewrite -for_each_pure; apply: for_each_ext => t tS R'.
  have [ss _] := mem_product d0 sS; have [st _] := mem_product d0 tS.
  by rewrite getitem_weyl_coeff // (matmul_XZ_weyl_array w d1 n0 ss st).
rewrite for_each_pure (foldl_allpairs (fun R s t => madd R (term (s, t)))).
rewrite (@foldl_madd_seq _ _ _ _ _
  (fun p a b => weyl_coefficient w X d n p.1 p.2
                * (sh d p.1 a b * ph d p.2 b))).
- exact: N0.
- by move=> p _; rewrite /term /weyl_array mscale_mkarray.
- congr Some; apply: eq_mkarray => a b _ _.
  by rewrite add0r big_allpairs.
Qed.

(** The entries of the rebuilt operator are within [10^-10] of those of
    [X]: the only error is that of rounding the traces. *)
Lemma weyl_round_trip_error X d n a b :
  (0 < d)%N -> has_shape (d ^ n) (d ^ n) X ->
  (a < d ^ n)%N -> (b < d ^ n)%N ->
  `|\sum_(s <- tuples d n) \sum_(t <- tuples d n)
       weyl_coefficient w X d n s t * (sh d s a b * ph d t b)
    - item X a b| <= (10%:R ^+ 10)^-1.
Proof.
move=> d0 sX lt_a lt_b.
have N0 : (0 < d ^ n)%N by rewrite expn_gt0 d0.
have Npos : 0 < (d ^ n)%:R :> C by rewrite ltr0n.
have Nne0 : (d ^ n)%:R != 0 :> C by rewrite pnatr_eq0 -lt0n.
set eps : C := (10%:R ^+ 10)^-1.
have eps0 : 0 <= eps by rewrite /eps invr_ge0 exprn_ge0 // ler0n.
rewrite -(weyl_reconstruction d0 sX lt_a lt_b) -sumrB.
apply: le_trans (ler_norm_sum _ _ _) _.
apply: (@le_trans _ _ (\sum_(s <- tuples d n) eps * sh d s a b)); last first.
  by rewrite -mulr_sumr sum_shift // mulr1.
apply: ler_sum => s _; rewrite -sumrB.
apply: le_trans (ler_norm_sum _ _ _) _.
apply: (@le_trans _ _ (\sum_(t <- tuples d n)
                        (d ^ n)%:R^-1 * (eps * sh d s a b))).
  apply: ler_sum => t _.
  rewrite /weyl_coefficient -mulrBl -mulrBr !normrM (norm_phase w_prim _ _ d0).
  rewrite mulr1 normfV (gtr0_norm Npos) -mulrA normr_nat.
  rewrite ler_pM2l ?invr_gt0 // ler_wpM2r ?ler0n //.
  exact: around_error.
by rewrite sum_tuples_const mulrA mulfV // mul1r.
Qed.

(** C1.  The round trip of the Weyl decomposition: for every [d >= 2],
    [n >= 1] and every [d^n x d^n] operator [X], the coefficient table
    [C = nQudit_Weyl_coeff(X, d, n)] exists, and the weighted sum over all
    pairs [(s, t)] of [C[(str(s), str(t))]] times
    [generate_nQudit_X(d, s) @ generate_nQudit_Z(d, t)] recovers [X] up to
    the rounding of the coefficients: every entry is within [10^-10], so
    within [10^-8], of the entry of [X] (for Hermitian [X] and any other). *)
Theorem weyl_round_trip X d n :
  (1 < d)%N -> (0 < n)%N -> has_shape (d ^ n) (d ^ n) X ->
  exists Ctab R,
    [/\ nQudit_Weyl_coeff w X d n = Some Ctab,
        weyl_weighted_sum w Ctab d n = Some R,
        has_shape (d ^ n) (d ^ n) R
      & forall a b, (a < d ^ n)%N -> (b < d ^ n)%N ->
          `|item R a b - item X a b| <= (10%:R ^+ 10)^-1 /\
          `|item R a b - item X a b| <= (10%:R ^+ 8)^-1].
Proof.
move=> d1 n0 sX; have d0 : (0 < d)%N by exact: ltnW.
exists [seq ((str_list p.1, str_list p.2), weyl_coefficient w X d n p.1 p.2)
       | p <- [seq (s, t) | s <- tuples d n, t <- tuples d n]].
exists (mkarray (d ^ n) (d ^ n) (fun a b =>
          \sum_(s <- tuples d n) \sum_(t <- tuples d n)
             weyl_coefficient w X d n s t * (sh d s a b * ph d t b))).
split.
- exact: nQudit_Weyl_coeff_eq.
- exact: weighted_sum_table.
- exact: has_shape_mkarray.
move=> a b lt_a lt_b; rewrite item_mkarray //.
have bound := weyl_round_trip_error d0 sX lt_a lt_b.
split=> //; apply: le_trans bound _.
rewrite lef_pV2 ?posrE ?exprn_gt0 ?ltr0n //.
by apply: ler_weXn2l; rewrite ?ler1n.
Qed.

End RoundTrip.

(** * The theorems at concrete inputs *)

Section Instances.

Lemma wC_prim d : (0 < d)%N -> d.-primitive_root (wC d).
Proof. by case: d => [//|d] _; rewrite /wC; case: (C_prim_root_exists _). Qed.

Lemma wC2 : wC 2 = -1.
Proof.
have w2 := wC_prim (isT : (0 < 2)%N).
have /eqP := prim_expr_order w2; rewrite sqrf_eq1 => /orP[/eqP e|/eqP //].
by have := prim_order_dvd w2 1; rewrite expr1 e eqxx.
Qed.

(** Witness of C2 at [d = 2]. *)
Lemma weyl_commutation_witness :
  (forall d, (0 < d)%N -> d.-primitive_root (wC d)) /\ (1 < 2)%N /\
  mmul (discrete_Weyl_Z wC 2) (discrete_Weyl_X algC 2) =
  mscale (wC 2) (mmul (discrete_Weyl_X algC 2) (discrete_Weyl_Z wC 2)).
Proof.
split; first exact: wC_prim.
split; first by [].
exact: (@weyl_commutation algC wC wC_prim 2 isT).
Defined.

(** Witness of C7 at [d = 2], for the basis elements 1 and 2. *)
Lemma discrete_Weyl_basis_witness :
  let B := discrete_Weyl_basis wC 2 in
  [/\ (1 < 2)%N /\ (1 < 2 ^ 2)%N /\ (2 < 2 ^ 2)%N,
      size B = (2 ^ 2)%N,
      mmul (nth [::] B 1) (dag (nth [::] B 1)) = eye algC 2
    & Tr (mmul (dag (nth [::] B 1)) (nth [::] B 2)) = 0].
Proof.
have [H1 H2 H3] := @discrete_Weyl_basis_unitary_orthogonal algC wC wC_prim 2 isT.
split; [by [] | exact: H1 | exact: (H2 1%N isT) | exact: (H3 1%N 2%N isT isT)].
Defined.

(** Witness of C5 at [d = 3], control [i = 1], target [j = 2]. *)
Lemma CNOT_qudit_witness :
  [/\ (1 < 3)%N /\ (0 < 1 < 3)%N /\ (2 < 3)%N,
      CNOT_qudit algC 3 false =
        msum (3 * 3) (3 * 3)
          [seq kron (mmul (ket algC 3 i) (dag (ket algC 3 i)))
                    (CNOT_block algC 3 false i)
          | i <- iota 0 3],
      mmul (CNOT_qudit algC 3 false) (kron (ket algC 3 1) (ket algC 3 2)) =
        kron (ket algC 3 1) (ket algC 3 ((1 + (3 - 2)) %% 3))
    & mmul (CNOT_qudit algC 3 true) (kron (ket algC 3 1) (ket algC 3 2)) =
        kron (ket algC 3 1) (ket algC 3 ((1 + 2) %% 3))].
Proof.
have [H1 H2 H3] := @CNOT_qudit_blocks_and_action algC 3 isT.
split; [by [] | exact: (H1 false) | exact: (H2 1%N 2%N isT isT)
       | exact: (H3 1%N 2%N isT isT)].
Defined.

(** Witness of C9 at [d = 2], for the index lists [[1]] and [[1, 0]]. *)
Lemma generate_nQudit_witness :
  [/\ (1 < 2)%N,
      generate_nQudit_X algC 2 [::] = Scalar 1 /\
      generate_nQudit_Z wC 2 [::] = Scalar 1,
      generate_nQudit_X algC 2 (rcons [:: 1%N] 0%N) =
        tensor (generate_nQudit_X algC 2 [:: 1%N])
               (Matrix (matrix_power (discrete_Weyl_X algC 2) 0))
    & generate_nQudit_Z wC 2 [:: 1%N] =
        Matrix (matrix_power (discrete_Weyl_Z wC 2) 1)].
Proof.
have [H1 H2 H3] := @generate_nQudit_empty_and_fold algC wC 2 isT.
split; [by [] | exact: H1 | exact: (proj1 (H2 [:: 1%N] 0%N))
       | exact: (proj2 (H3 1%N [::]))].
Defined.

(** Witness of C10, for the index lists [[0, 1, 2, 1]] and [[1, 0]]. *)
Lemma generate_nQubit_Pauli_Z_witness :
  [/\ all is_bit [:: 0; 1] /\ ~~ is_bit 2 /\ has (predC is_bit) [:: 0; 1; 2; 1]
      /\ all is_bit [:: 1; 0],
      pauli_loop 0 (Scalar 1) ([:: 0; 1] ++ 2 :: [:: 1]) =
        (size [:: (0 : int); 1], Message algC pauli_error),
      generate_nQubit_Pauli_Z algC [:: 0; 1; 2; 1] = Message algC pauli_error
    & generate_nQubit_Pauli_Z algC [:: 1; 0] =
        Out (foldl (fun out index => tensor out (pauli_factor algC index))
                   (Scalar 1) [:: 1; 0])].
Proof.
have [H1 H2 H3] := generate_nQubit_Pauli_Z_spec algC.
split; [by [] | exact: (H1 [:: 0; 1] 2 [:: 1] isT isT)
       | exact: (H2 [:: 0; 1; 2; 1] isT) | exact: (H3 [:: 1; 0] isT)].
Defined.

(** Witness of C8 at [d = 2], [n = 1]. *)
Lemma nQudit_discrete_Weyl_basis_witness :
  (forall d, (0 < d)%N -> d.-primitive_root (wC d)) /\
  (1 < 2)%N /\ (0 < 1)%N /\
  exists Bs,
    [/\ nQudit_discrete_Weyl_basis wC 2 1 = Some Bs,
        size Bs = (2 ^ (2 * 1))%N,
        product (nseq 1 (range 0 2)) = [seq digits 2 1 i | i <- iota 0 (2 ^ 1)],
        forall i, (i < 2 ^ 1)%N ->
          [/\ size (digits 2 1 i) = 1%N,
              all (fun x => x < 2)%N (digits 2 1 i)
            & digits_value 2 (digits 2 1 i) = i]
      & forall i1 i2, (i1 < 2 ^ 1)%N -> (i2 < 2 ^ 1)%N ->
          matmul (generate_nQudit_Z wC 2 (digits 2 1 i1))
                 (generate_nQudit_X algC 2 (digits 2 1 i2))
          = Some (nth [::] Bs (i1 * 2 ^ 1 + i2))].
Proof.
split; first exact: wC_prim.
split; first by [].
split; first by [].
exact: (@nQudit_discrete_Weyl_basis_enumeration algC wC 2 1 isT isT).
Defined.

(** Witness of C4 (as amended) at [d = 2], [n = 1], [X] the identity. *)
Lemma nQudit_cov_matrix_witness :
  (1 < 2)%N /\ (0 < 1)%N /\ has_shape (2 ^ 1) (2 ^ 1) identity2 /\
  exists V,
    [/\ nQudit_cov_matrix wC identity2 2 1 = Some V,
        has_shape (2 * 1) (2 * 1) V
      & forall i j, (i < 2 * 1)%N -> (j < 2 * 1)%N ->
        exists Si Sj,
          [/\ getitem (nQudit_quadratures wC 2 1) (i + 1)%N = Some (Matrix Si),
              getitem (nQudit_quadratures wC 2 1) (j + 1)%N = Some (Matrix Sj)
            & item V i j = Tr (mmul (mmul identity2 Si) (dag Sj))]].
Proof.
split; first by [].
split; first by [].
split; first by [].
exact: (@nQudit_cov_matrix_entries algC wC identity2 2 1 isT isT isT).
Defined.

(** Witness of C3 (as amended) at [d = 2], [n = 1], [X] the identity. *)
Lemma nQudit_Weyl_coeff_witness :
  (1 < 2)%N /\ (0 < 1)%N /\ has_shape (2 ^ 1) (2 ^ 1) identity2 /\
  let S := product (nseq 1 (range 0 2)) in
  exists Ctab,
    [/\ nQudit_Weyl_coeff wC identity2 2 1 = Some Ctab,
        keys Ctab = [seq (str_list s, str_list t) | s <- S, t <- S],
        uniq (keys Ctab)
      & forall s t, s \in S -> t \in S ->
        exists G,
          matmul (generate_nQudit_X algC 2 s) (generate_nQudit_Z wC 2 t)
            = Some G /\
          getitem Ctab (str_list s, str_list t) =
          Some ((2 ^ 1)%:R^-1 * around (Tr (mmul (dag G) identity2)) 10)].
Proof.
split; first by [].
split; first by [].
split; first by [].
exact: (@nQudit_Weyl_coeff_table algC wC identity2 2 1 isT isT isT).
Defined.

(** Witness of C1 at [d = 2], [n = 1], [X] the identity. *)
Lemma weyl_round_trip_witness :
  (forall d, (0 < d)%N -> d.-primitive_root (wC d)) /\
  (1 < 2)%N /\ (0 < 1)%N /\ has_shape (2 ^ 1) (2 ^ 1) identity2 /\
  exists Ctab R,
    [/\ nQudit_Weyl_coeff wC identity2 2 1 = Some Ctab,
        weyl_weighted_sum wC Ctab 2 1 = Some R,
        has_shape (2 ^ 1) (2 ^ 1) R
      & forall a b, (a < 2 ^ 1)%N -> (b < 2 ^ 1)%N ->
          `|item R a b - item identity2 a b| <= (10%:R ^+ 10)^-1 /\
          `|item R a b - item identity2 a b| <= (10%:R ^+ 8)^-1].
Proof.
split; first exact: wC_prim.
split; first by [].
split; first by [].
split; first by [].
exact: (@weyl_round_trip algC wC wC_prim identity2 2 1 isT isT isT).
Defined.

(** Counterexample to C4 as stated: the Pauli-Y operator is Hermitian, and
    the entry [V[0,1]] of its matrix of second moments is not real. *)
Lemma nQudit_cov_matrix_not_real :
  exists V,
    nQudit_cov_matrix wC pauli_Y 2 1 = Some V /\
    item V 0 1 \isn't Num.real.
Proof.
have [V [HV sV Hent]] :=
  @nQudit_cov_matrix_closed algC wC pauli_Y 2 1 isT isT isT.
exists V; split=> //.
rewrite (Hent 0%N 1%N isT isT) /cov_entry.
have -> : quadrature_array wC 2 1 0 = as_array (generate_nQudit_X algC 2 [:: 1%N]).
  by [].
have -> : quadrature_array wC 2 1 1 = as_array (generate_nQudit_Z wC 2 [:: 1%N]).
  by [].
rewrite generate_nQudit_X_array // generate_nQudit_Z_array //.
rewrite /mkarray /mkseq /= -/(wC 2) wC2.
rewrite /dag /mmul /nrows /ncols /= /mkarray /mkseq /=.
rewrite /Tr /nrows /item /=.
expand_sums.
rewrite (_ : (0 %% 2 * 1)%N = 0%N) // (_ : (1 %% 2 * 1)%N = 1%N) //.
rewrite expr0 expr1 !(mul0r, mulr0, add0r, addr0, mul1r, mulr1).
rewrite !(rmorph0, rmorph1, rmorphN) /= !(mul0r, mulr0, add0r, addr0, mulr1).
rewrite mulrN1 -opprD rpredN -mulr2n.
apply/negP => /Creal_ImP; rewrite raddfMn /= Im_i => /eqP.
by rewrite pnatr_eq0.
Qed.

Lemma half_not_int : (2%:R^-1 : algC) \isn't a Num.int.
Proof.
apply/negP => /intrP[m em].
have : (2%:R * m%:~R : algC) = 1 by rewrite -em divff // pnatr_eq0.
rewrite -[2%:R]/(2%:~R) -intrM -[1]/(1%:~R) => /intr_inj e.
have : (2 %| 1)%Z by apply/dvdzP; exists m; rewrite mulrC.
by [].
Qed.

(** The trace that [nQudit_Weyl_coeff] rounds for [s = t = [0]] is the
    entry [10^-10] of the operator. *)
Lemma weyl_trace_tiny :
  Tr (mmul (dag (weyl_array wC 2 1 [:: 0%N] [:: 0%N])) tiny_operator)
  = (10%:R ^+ 10)^-1.
Proof.
rewrite /weyl_array /mkarray /mkseq /=.
rewrite /dag /mmul /nrows /ncols /= /mkarray /mkseq /=.
rewrite /Tr /nrows /item /=.
expand_sums.
by rewrite !(mul0r, mulr0, add0r, addr0, mul1r, mulr1, expr0, rmorph0, rmorph1).
Qed.

(** Counterexample to C3 as stated.  For the operator whose only entry is
    [10^-10], with [d = 2], [n = 1] and [s = t = [0]], the stored value is
    [(1/2) * 10^-10]: it is not [(1/d^n) * Tr(dag(G) @ X)] rounded to 10
    decimal places, and it is no number of 10 decimal places at all. *)
Lemma nQudit_Weyl_coeff_not_rounded :
  exists Ctab G v,
    [/\ nQudit_Weyl_coeff wC tiny_operator 2 1 = Some Ctab,
        matmul (generate_nQudit_X algC 2 [:: 0%N])
               (generate_nQudit_Z wC 2 [:: 0%N]) = Some G,
        getitem Ctab (str_list [:: 0%N], str_list [:: 0%N]) = Some v,
        v != claimed_coefficient tiny_operator G 2 1
      & v * 10%:R ^+ 10 \isn't a Num.int].
Proof.
have p0 : (10%:R ^+ 10 : algC) != 0 by rewrite expf_neq0 // pnatr_eq0.
have h0 : (2%:R^-1 : algC) != 0 by rewrite invr_eq0 pnatr_eq0.
have rp : ((10%:R ^+ 10)^-1 : algC) \is Num.real by rewrite realV realX // realn.
have ev : weyl_coefficient wC tiny_operator 2 1 [:: 0%N] [:: 0%N]
          = 2%:R^-1 * (10%:R ^+ 10)^-1.
  rewrite /weyl_coefficient weyl_trace_tiny expn1 around_of_real //.
  have -> : ((10%:R ^+ 10)^-1 : algC) = 1%:~R / 10%:R ^+ 10 by rewrite mul1r.
  by rewrite around_real_decimal.
exists [seq ((str_list p.1, str_list p.2),
             weyl_coefficient wC tiny_operator 2 1 p.1 p.2)
       | p <- [seq (s, t) | s <- product (nseq 1 (range 0 2)),
                            t <- product (nseq 1 (range 0 2))]].
exists (weyl_array wC 2 1 [:: 0%N] [:: 0%N]).
exists (2%:R^-1 * (10%:R ^+ 10)^-1); split.
- exact: (@nQudit_Weyl_coeff_eq algC wC tiny_operator 2 1 isT isT isT).
- exact: (@matmul_XZ_weyl_array algC wC 2 1 [:: 0%N] [:: 0%N] isT isT erefl erefl).
- by rewrite (@getitem_weyl_coeff algC wC tiny_operator 2 1) ?ev.
- rewrite /claimed_coefficient weyl_trace_tiny expn1 around_of_real.
    by rewrite realM ?realV ?realX ?realn.
  rewrite /around_real divfK // rint_half mul0r.
  by rewrite mulf_neq0 // invr_eq0.
- by rewrite divfK // half_not_int.
Qed.

End Instances.

(** * Further properties of the code *)

(** ** The single-qudit operators on the standard basis *)

Section SingleQuditAction.

Variable C : archiClosedFieldType.
Variable w : nat -> C.

Implicit Types (d : nat).

Lemma mmul_ket d (f : nat -> nat -> C) j :
  (0 < d)%N -> (j < d)%N ->
  mmul (mkarray d d f) (ket C d j) = mkarray d 1 (fun r _ => f r j).
Proof.
move=> d0 jd; rewrite ket_mkarray mmul_mkarray //.
apply: eq_mkarray => r c rd _.
by rewrite sum_delta_rsym jd.
Qed.

Lemma mscale_ket d (c : C) j :
  (0 < d)%N -> mscale c (ket C d j) = mkarray d 1 (fun r _ => c * (r == j)%:R).
Proof. by move=> d0; rewrite ket_mkarray mscale_mkarray. Qed.

(** X1.  For every [d >= 2] and [j < d]: [discrete_Weyl_X(d)] sends the basis
    vector [|j>] to [|(j+1) mod d>], [discrete_Weyl_Z(d)] multiplies [|j>] by
    [w^j], and [discrete_Weyl(d, z, x)] sends [|j>] to
    [w^(k*z) |k>] with [k = (j + x) mod d]. *)
Theorem discrete_Weyl_action d z x j :
  (1 < d)%N -> (j < d)%N ->
  [/\ mmul (discrete_Weyl_X C d) (ket C d j) = ket C d ((j + 1) %% d),
      mmul (discrete_Weyl_Z w d) (ket C d j) = mscale (w d ^+ j) (ket C d j)
    & mmul (discrete_Weyl w d z x) (ket C d j) =
      mscale (w d ^+ ((j + x) %% d * z)) (ket C d ((j + x) %% d))].
Proof.
move=> d1 jd; have d0 : (0 < d)%N by exact: ltnW.
split.
- by rewrite discrete_Weyl_X_mkarray // mmul_ket // ket_mkarray.
- rewrite discrete_Weyl_Z_mkarray // mmul_ket // mscale_ket //.
  apply: eq_mkarray => r c rd _; rewrite mulrC.
  by case: eqP => [->|_]; rewrite ?mulr0.
rewrite discrete_Weyl_mkarray // mmul_ket // mscale_ket //.
apply: eq_mkarray => r c rd _.
by case: eqP => [->|_]; rewrite ?mulr0.
Qed.

End SingleQuditAction.

(** ** The group law of the discrete Weyl operators *)

Section WeylGroupLaw.

Variable C : archiClosedFieldType.
Variable w : nat -> C.
Hypothesis w_prim : forall d, (0 < d)%N -> d.-primitive_root (w d).

Implicit Types (d : nat).

Lemma w_expr_mod d k : (0 < d)%N -> w d ^+ (k %% d) = w d ^+ k.
Proof. by move=> d0; rewrite expr_mod // (prim_expr_order (w_prim d0)). Qed.

Lemma w_expr_modl d a b : (0 < d)%N -> w d ^+ (a %% d * b) = w d ^+ (a * b).
Proof.
by move=> d0; rewrite -(w_expr_mod _ d0) modnMml w_expr_mod.
Qed.

Lemma w_expr_modr d a b : (0 < d)%N -> w d ^+ (a * (b %% d)) = w d ^+ (a * b).
Proof.
by move=> d0; rewrite -(w_expr_mod _ d0) modnMmr w_expr_mod.
Qed.

(** X2.  The shift and the phase operator have order [d], so
    [discrete_Weyl(d, z, x)] only depends on [z] and [x] modulo [d]. *)
Theorem discrete_Weyl_periodic d z x :
  (1 < d)%N ->
  [/\ matrix_power (discrete_Weyl_X C d) d = eye C d,
      matrix_power (discrete_Weyl_Z w d) d = eye C d
    & discrete_Weyl w d z x = discrete_Weyl w d (z %% d) (x %% d)].
Proof.
move=> d1; have d0 : (0 < d)%N by exact: ltnW.
split.
- rewrite matrix_power_X //; apply: eq_mkarray => i j id jd.
  by rewrite modnDr modn_small.
- rewrite matrix_power_Z //; apply: eq_mkarray => i j id jd.
  by rewrite exprM exprAC (prim_expr_order (w_prim d0)) expr1n mulr1.
rewrite !discrete_Weyl_mkarray //; apply: eq_mkarray => i j id jd.
by rewrite w_expr_modr // modnDmr.
Qed.

(** X3.  The product of two discrete Weyl operators is a discrete Weyl
    operator up to a phase:
    [w^(x*z') * (discrete_Weyl(d,z,x) @ discrete_Weyl(d,z',x'))] is
    [discrete_Weyl(d, z + z', x + x')]. *)
Theorem discrete_Weyl_product d z x z' x' :
  (1 < d)%N ->
  mscale (w d ^+ (x * z'))
    (mmul (discrete_Weyl w d z x) (discrete_Weyl w d z' x'))
  = discrete_Weyl w d (z + z') (x + x').
Proof.
move=> d1; have d0 : (0 < d)%N by exact: ltnW.
rewrite !discrete_Weyl_mkarray // mmul_mkarray // mscale_mkarray //.
apply: eq_mkarray => i j id jd.
under eq_bigr do rewrite mulrACA -natrM mulnb andbC -mulnb natrM mulrCA.
rewrite sum_delta_sym ltn_pmod // modnDml.
have -> : (j + x' + x = j + (x + x'))%N by rewrite -addnA [(x' + x)%N]addnC.
case: eqP => [e|_]; last by rewrite !(mulr0, mul0r).
rewrite !mulr1 mulnDr exprD mulrCA; congr (_ * _).
rewrite -exprD -mulnDl [in RHS]e w_expr_modl // -[LHS]w_expr_modl // modnDmr.
by rewrite w_expr_modl // addnCA.
Qed.

End WeylGroupLaw.

(** ** The sign flip *)

Section FlipSign.

Variable C : archiClosedFieldType.

Implicit Types (d : nat).

Lemma mod_negK j d : (j < d)%N -> mod_neg (mod_neg j d) d = j.
Proof.
case: j => [|j] jd; first by rewrite !mod_neg0.
rewrite (@mod_neg_small j.+1) // mod_neg_small ?subKn //; last exact: ltnW.
by rewrite subn_gt0 jd ltn_subrL ltn0Sn (leq_trans _ jd).
Qed.

Lemma mod_neg_sym i j d :
  (i < d)%N -> (j < d)%N -> (i == mod_neg j d) = (j == mod_neg i d).
Proof.
move=> id jd; apply/eqP/eqP => ->; by rewrite mod_negK.
Qed.

(** X4.  For every [d >= 1], [flip_sign(d)] sends [|j>] to [|(-j) mod d>],
    it is its own inverse and its own conjugate transpose. *)
Theorem flip_sign_involution d :
  (0 < d)%N ->
  [/\ forall j, (j < d)%N ->
        mmul (flip_sign C d) (ket C d j) = ket C d (mod_neg j d),
      mmul (flip_sign C d) (flip_sign C d) = eye C d
    & dag (flip_sign C d) = flip_sign C d].
Proof.
move=> d0; rewrite flip_sign_mkarray //; split.
- by move=> j jd; rewrite mmul_ket // ket_mkarray.
- rewrite mmul_mkarray //; apply: eq_mkarray => i j id jd.
  under eq_bigr do rewrite mulrC.
  by rewrite sum_delta_sym mod_neg_lt // mod_negK.
rewrite dag_mkarray //; apply: eq_mkarray => i j id jd.
by rewrite conjC_nat mod_neg_sym.
Qed.

End FlipSign.

(** ** The qudit CNOT as a permutation of the standard basis *)

Section QuditCNOTPermutation.

Variable C : archiClosedFieldType.

Implicit Types (d : nat) (alt : bool).

Lemma sub_mod_neg i x d : (0 < d)%N -> sub_mod i x d = ((i + mod_neg x d) %% d)%N.
Proof. by move=> d0; rewrite /sub_mod /mod_neg modnDmr. Qed.

Lemma addn_mod_inj a b u d :
  (0 < d)%N -> (a < d)%N -> (b < d)%N ->
  ((a + u) %% d = (b + u) %% d)%N -> a = b.
Proof.
by move=> d0 ad bd e; rewrite -(sub_add_mod u d0 ad) e sub_add_mod.
Qed.

Lemma neg_add_mod m d : (0 < d)%N -> ((mod_neg m d + m) %% d = 0)%N.
Proof. by move=> d0; rewrite /mod_neg modnDml compl_mod. Qed.

Lemma CNOT_target_lt d alt i j : (0 < d)%N -> (j < d)%N -> (CNOT_target d alt i j < d)%N.
Proof. by move=> d0 jd; rewrite /CNOT_target; case: eqP => // _; case: alt; rewrite ltn_pmod. Qed.

Lemma CNOT_source_lt d alt i j : (0 < d)%N -> (j < d)%N -> (CNOT_source d alt i j < d)%N.
Proof.
move=> d0 jd; rewrite /CNOT_source; case: eqP => // _.
by case: alt; rewrite ?mod_neg_lt ?sub_mod_lt.
Qed.

Lemma CNOT_targetK d alt i j :
  (0 < d)%N -> (i < d)%N -> (j < d)%N ->
  CNOT_source d alt i (CNOT_target d alt i j) = j.
Proof.
move=> d0 id jd; rewrite /CNOT_source /CNOT_target; case: eqP => // _.
case: alt; first by rewrite sub_add_mod.
by rewrite sub_add_mod ?mod_neg_lt // mod_negK.
Qed.

Lemma CNOT_sourceK d alt i j :
  (0 < d)%N -> (i < d)%N -> (j < d)%N ->
  CNOT_target d alt i (CNOT_source d alt i j) = j.
Proof.
move=> d0 id jd; rewrite /CNOT_source /CNOT_target; case: eqP => // _.
case: alt; first by rewrite add_sub_mod.
by rewrite mod_negK ?sub_mod_lt // add_sub_mod.
Qed.

(** Without [alt] the map on the target digit is an involution. *)
Lemma CNOT_source_target d i j :
  (0 < d)%N -> (i < d)%N -> (j < d)%N ->
  CNOT_source d false i j = CNOT_target d false i j.
Proof.
move=> d0 id jd; rewrite /CNOT_source /CNOT_target; case: eqP => // _.
apply: (@addn_mod_inj _ _ (sub_mod j i d) d) => //.
- by rewrite mod_neg_lt.
- by rewrite ltn_pmod.
rewrite neg_add_mod // modnDml -addnA -modnDmr [(i + _)%N]addnC add_sub_mod //.
by rewrite neg_add_mod.
Qed.

Lemma index_divmod d q r : (r < d)%N -> ((q * d + r) %/ d = q)%N /\ ((q * d + r) %% d = r)%N.
Proof.
move=> rd; have d0 : (0 < d)%N by exact: leq_ltn_trans rd.
by rewrite divnMDl // divn_small // addn0 modnMDl modn_small.
Qed.

Lemma index_lt d q r : (q < d)%N -> (r < d)%N -> (q * d + r < d * d)%N.
Proof.
move=> qd rd; apply: (@leq_trans (q.+1 * d)); first by rewrite mulSn addnC ltn_add2r.
by rewrite leq_mul2r qd orbT.
Qed.

Lemma CNOT_image_lt d alt c :
  (0 < d)%N -> (c < d * d)%N -> (CNOT_image d alt c < d * d)%N.
Proof.
move=> d0 cd; apply: index_lt; first by rewrite ltn_divLR.
by rewrite CNOT_target_lt // ltn_pmod.
Qed.

Lemma CNOT_preimage_lt d alt c :
  (0 < d)%N -> (c < d * d)%N -> (CNOT_preimage d alt c < d * d)%N.
Proof.
move=> d0 cd; apply: index_lt; first by rewrite ltn_divLR.
by rewrite CNOT_source_lt // ltn_pmod.
Qed.

Lemma CNOT_imageK d alt c :
  (0 < d)%N -> (c < d * d)%N -> CNOT_preimage d alt (CNOT_image d alt c) = c.
Proof.
move=> d0 cd; rewrite /CNOT_preimage /CNOT_image.
have td : (CNOT_target d alt (c %/ d) (c %% d) < d)%N.
  by rewrite CNOT_target_lt // ltn_pmod.
have [-> ->] := index_divmod (c %/ d) td.
by rewrite CNOT_targetK ?ltn_pmod ?ltn_divLR // -divn_eq.
Qed.

Lemma CNOT_preimageK d alt c :
  (0 < d)%N -> (c < d * d)%N -> CNOT_image d alt (CNOT_preimage d alt c) = c.
Proof.
move=> d0 cd; rewrite /CNOT_preimage /CNOT_image.
have td : (CNOT_source d alt (c %/ d) (c %% d) < d)%N.
  by rewrite CNOT_source_lt // ltn_pmod.
have [-> ->] := index_divmod (c %/ d) td.
by rewrite CNOT_sourceK ?ltn_pmod ?ltn_divLR // -divn_eq.
Qed.

Lemma CNOT_image_involution d c :
  (0 < d)%N -> (c < d * d)%N -> CNOT_image d false (CNOT_image d false c) = c.
Proof.
move=> d0 cd; rewrite /CNOT_image.
have qd : (c %/ d < d)%N by rewrite ltn_divLR.
have rd : (c %% d < d)%N by rewrite ltn_pmod.
have td : (CNOT_target d false (c %/ d) (c %% d) < d)%N by rewrite CNOT_target_lt.
have [-> ->] := index_divmod (c %/ d) td.
by rewrite -(CNOT_source_target d0 qd td) CNOT_targetK // -divn_eq.
Qed.

(** The entries of the gate are those of the permutation [CNOT_image]. *)
Lemma CNOT_entry_image d alt r c :
  (0 < d)%N -> (c < d * d)%N ->
  CNOT_entry C d alt r c = (r == CNOT_image d alt c)%:R.
Proof.
move=> d0 cd; rewrite /CNOT_entry /CNOT_image.
have td : (CNOT_target d alt (c %/ d) (c %% d) < d)%N.
  by rewrite CNOT_target_lt // ltn_pmod.
rewrite -(divmod_eq r _ d); have [-> ->] := index_divmod (c %/ d) td; move=> {td}.
case: (r %/ d =P c %/ d)%N => [->|_]; last by rewrite mul0r.
rewrite mul1r /CNOT_target /block_entry /=.
by case: eqP => // _; case: alt.
Qed.

Lemma CNOT_qudit_image d alt :
  (1 < d)%N ->
  CNOT_qudit C d alt =
  mkarray (d * d) (d * d) (fun r c => (r == CNOT_image d alt c)%:R).
Proof.
move=> d1; have d0 : (0 < d)%N by exact: ltnW.
rewrite CNOT_qudit_mkarray //; apply: eq_mkarray => r c rd cd.
exact: CNOT_entry_image.
Qed.

(** A 0-1 matrix of a bijection times its transpose. *)
Lemma sum_perm_delta N (p q : nat -> nat) r c :
  (forall k, (k < N)%N -> (q k < N)%N) ->
  (forall k, (k < N)%N -> q (p k) = k) ->
  (forall k, (k < N)%N -> p (q k) = k) ->
  (r < N)%N -> (c < N)%N ->
  \sum_(0 <= k < N) (r == p k)%:R * (c == p k)%:R = (r == c)%:R :> C.
Proof.
move=> qN qp pq rN cN.
have -> : \sum_(0 <= k < N) (r == p k)%:R * (c == p k)%:R
          = \sum_(0 <= k < N) (k == q r)%:R * (c == p k)%:R :> C.
  apply: eq_big_nat => k /andP[_ kN].
  have -> // : (r == p k) = (k == q r).
  by apply/eqP/eqP => [->|->]; rewrite ?qp ?pq.
by rewrite sum_delta_sym qN // pq // eq_sym.
Qed.

(** X5.  For every [d >= 2], both variants of [CNOT_qudit(d)] permute the
    standard basis: [|i>|j>] goes to [|i>|j'>] where [j' = j] when the control
    [i] is 0, and otherwise [j' = (i + j) mod d] with [alt] and
    [j' = (i - j) mod d] without.  In particular [|0>|j>] is left as it is. *)
Theorem CNOT_qudit_basis_action d alt i j :
  (1 < d)%N -> (i < d)%N -> (j < d)%N ->
  mmul (CNOT_qudit C d alt) (kron (ket C d i) (ket C d j)) =
    kron (ket C d i) (ket C d (CNOT_target d alt i j)) /\
  mmul (CNOT_qudit C d alt) (kron (ket C d 0) (ket C d j)) =
    kron (ket C d 0) (ket C d j).
Proof.
move=> d1 id jd; have d0 : (0 < d)%N by exact: ltnW.
have act i' : (i' < d)%N ->
    mmul (CNOT_qudit C d alt) (kron (ket C d i') (ket C d j)) =
    kron (ket C d i') (ket C d (CNOT_target d alt i' j)).
  move=> i'd; rewrite CNOT_qudit_ket // kron_ket_mkarray //.
  apply: eq_mkarray => r c rd _.
  rewrite CNOT_entry_image ?index_lt // /CNOT_image.
  have [-> ->] := index_divmod i' jd.
  have td : (CNOT_target d alt i' j < d)%N by rewrite CNOT_target_lt.
  rewrite -(divmod_eq r _ d); have [-> ->] := index_divmod i' td.
  by rewrite -natrM mulnb.
by split; [exact: act | rewrite (act 0%N d0)].
Qed.

(** X6.  For every [d >= 2], [CNOT_qudit(d)] is unitary in both variants,
    and the default variant ([alt=False]) is its own inverse. *)
Theorem CNOT_qudit_unitary_involution d :
  (1 < d)%N ->
  (forall alt,
     mmul (CNOT_qudit C d alt) (dag (CNOT_qudit C d alt)) = eye C (d * d)) /\
  mmul (CNOT_qudit C d false) (CNOT_qudit C d false) = eye C (d * d).
Proof.
move=> d1; have d0 : (0 < d)%N by exact: ltnW.
have N0 : (0 < d * d)%N by rewrite muln_gt0 d0.
split=> [alt|]; rewrite CNOT_qudit_image //.
  rewrite dag_mkarray // mmul_mkarray //; apply: eq_mkarray => r c rd cd.
  under eq_bigr do rewrite conjC_nat.
  apply: (@sum_perm_delta _ _ (CNOT_preimage d alt)) => // k kd.
  - exact: CNOT_preimage_lt.
  - exact: CNOT_imageK.
  - exact: CNOT_preimageK.
rewrite mmul_mkarray //; apply: eq_mkarray => r c rd cd.
under eq_bigr do rewrite mulrC.
by rewrite sum_delta_sym CNOT_image_lt // CNOT_image_involution.
Qed.

End QuditCNOTPermutation.

(** ** Tensor products of shift and phase operators *)

Section NQuditAlgebra.

Variable C : archiClosedFieldType.
Variable w : nat -> C.
Hypothesis w_prim : forall d, (0 < d)%N -> d.-primitive_root (w d).

Implicit Types (d n : nat) (r u s t : seq nat).

Local Notation sh d r a b := ((shift_entry d r a b)%:R : C).
Local Notation ph d u a := (phase_entry w d u a).

Lemma dot_cons x r z u : dot (x :: r) (z :: u) = (x * z + dot r u)%N.
Proof. by []. Qed.

Lemma dot_rev s t : size s = size t -> dot (rev s) (rev t) = dot s t.
Proof.
by move=> st; rewrite /dot -rev_zip // map_rev sumn_rev.
Qed.

(** Where the shift has an entry, the phases of the row and of the column
    differ by [w^(r . u)]. *)
Lemma phase_shift d r u a b :
  (0 < d)%N -> size r = size u -> shift_entry d r a b ->
  ph d u a = w d ^+ dot r u * ph d u b.
Proof.
move=> d0; elim: r u a b => [|x r IHr] [|z u] //= a b; first by rewrite expr0 mul1r.
case=> sz /andP[sh_ab /eqP e]; rewrite dot_cons (IHr _ _ _ sz sh_ab) e.
rewrite (w_expr_modl w_prim) // mulnDl !exprD.
by ring.
Qed.

(** X7.  The commutation relation of the n-qudit operators: for [d >= 2] and
    index lists [s], [t] of the same length [n >= 1],
    [generate_nQudit_Z(d, t) @ generate_nQudit_X(d, s)] is
    [w^(s . t) * (generate_nQudit_X(d, s) @ generate_nQudit_Z(d, t))], where
    [s . t] is the sum of the products [s[k] * t[k]]. *)
Theorem nQudit_commutation d s t :
  (1 < d)%N -> (0 < size s)%N -> size s = size t ->
  exists ZX XZ,
    [/\ matmul (generate_nQudit_Z w d t) (generate_nQudit_X C d s) = Some ZX,
        matmul (generate_nQudit_X C d s) (generate_nQudit_Z w d t) = Some XZ
      & ZX = mscale (w d ^+ dot s t) XZ].
Proof.
move=> d1 n0 st; have d0 : (0 < d)%N by exact: ltnW.
have N0 : (0 < d ^ size s)%N by rewrite expn_gt0 d0.
rewrite (@matmul_ZX _ w d (size s)) // (@matmul_XZ _ w d (size s)) //.
do 2!eexists; split; [by [] | by [] |].
rewrite mscale_mkarray //; apply: eq_mkarray => a b _ _.
case sh_ab: (shift_entry d (rev s) a b); last by rewrite !(mulr0, mul0r).
rewrite (@phase_shift d (rev s) (rev t) a b) ?size_rev // dot_rev //.
by rewrite mulr1 mul1r.
Qed.

(** *** Sums over the rows and the columns *)

Lemma index_sum d N (F : nat -> C) :
  (0 < d)%N ->
  \sum_(0 <= b < N * d) F b =
  \sum_(0 <= i < N) \sum_(0 <= j < d) F (i * d + j)%N.
Proof. by move=> _; exact: sum_divmod. Qed.

Lemma sum_shift_rows d r a c :
  (0 < d)%N -> (a < d ^ size r)%N -> (c < d ^ size r)%N ->
  \sum_(0 <= b < d ^ size r) sh d r a b * sh d r c b = (a == c)%:R.
Proof.
move=> d0; elim: r a c => [|x r IHr] a c /=.
  rewrite expn0 !ltnS !leqn0 => /eqP -> /eqP ->.
  by rewrite big_nat1 mulr1.
rewrite expnSr => lt_a lt_c; rewrite sum_divmod.
rewrite (eq_big_nat _ _ (F2 := fun i =>
   (sh d r (a %/ d) i * sh d r (c %/ d) i) * (a %% d == c %% d)%N%:R)).
  move=> i _.
  rewrite -(sum_shift_digit C x d0 (ltn_pmod a d0) (ltn_pmod c d0)).
  rewrite big_distrr /=; apply: eq_big_nat => j /andP[_ jd].
  have [-> ->] := index_divmod i jd.
  by rewrite -!mulnb !natrM mulrACA [(x + j)%N]addnC.
by rewrite -big_distrl /= IHr ?ltn_divLR // -natrM mulnb divmod_eq.
Qed.

Lemma sum_shift_digit_cols d a0 x1 x2 :
  (0 < d)%N -> (a0 < d)%N -> (x1 < d)%N -> (x2 < d)%N ->
  \sum_(0 <= j < d) (a0 == (j + x1) %% d)%N%:R * (a0 == (j + x2) %% d)%N%:R
  = (x1 == x2)%:R :> C.
Proof.
move=> d0 a0d x1d x2d.
rewrite (eq_big_nat _ _ (F2 := fun j =>
           (j == sub_mod a0 x1 d)%:R * (a0 == (j + x2) %% d)%N%:R)).
  by move=> j /andP[_ jd]; rewrite (shift_eq x1 d0 a0d jd).
rewrite sum_delta_sym sub_mod_lt //.
by rewrite (shift_eq x2 d0 a0d (sub_mod_lt a0 x1 d0)) sub_mod_inj_shift // eq_sym.
Qed.

Lemma sum_shift_cols d r1 r2 a :
  (0 < d)%N -> size r1 = size r2 ->
  all (fun x => x < d)%N r1 -> all (fun x => x < d)%N r2 ->
  (a < d ^ size r1)%N ->
  \sum_(0 <= b < d ^ size r1) sh d r1 a b * sh d r2 a b = (r1 == r2)%:R.
Proof.
move=> d0; elim: r1 r2 a => [|x1 r1 IHr] [|x2 r2] //= a.
  by move=> _ _ _ _; rewrite expn0 big_nat1 mulr1.
case=> sz /andP[x1d a1] /andP[x2d a2]; rewrite expnSr => lt_a.
rewrite sum_divmod.
rewrite (eq_big_nat _ _ (F2 := fun i =>
   (sh d r1 (a %/ d) i * sh d r2 (a %/ d) i) * (x1 == x2)%:R)).
  move=> i _.
  rewrite -(sum_shift_digit_cols d0 (ltn_pmod a d0) x1d x2d).
  rewrite big_distrr /=; apply: eq_big_nat => j /andP[_ jd].
  have [-> ->] := index_divmod i jd.
  by rewrite -!mulnb !natrM mulrACA.
rewrite -big_distrl /= IHr ?ltn_divLR // -natrM mulnb eqseq_cons andbC.
by [].
Qed.

Lemma sum_shift_digit_rows d b0 x1 x2 :
  (0 < d)%N -> (x1 < d)%N -> (x2 < d)%N ->
  \sum_(0 <= j < d) (j == (b0 + x1) %% d)%N%:R * (j == (b0 + x2) %% d)%N%:R
  = (x1 == x2)%:R :> C.
Proof.
move=> d0 x1d x2d; rewrite sum_delta_sym ltn_pmod //.
have -> // : ((b0 + x1) %% d == (b0 + x2) %% d)%N = (x1 == x2).
apply/eqP/eqP => [e|-> //].
apply: (@addn_mod_inj _ _ b0 d) => //.
by rewrite ![(_ + b0)%N]addnC.
Qed.

Lemma sum_shift_rows2 d r1 r2 b :
  (0 < d)%N -> size r1 = size r2 ->
  all (fun x => x < d)%N r1 -> all (fun x => x < d)%N r2 ->
  \sum_(0 <= a < d ^ size r1) sh d r1 a b * sh d r2 a b = (r1 == r2)%:R.
Proof.
move=> d0; elim: r1 r2 b => [|x1 r1 IHr] [|x2 r2] //= b.
  by move=> _ _ _; rewrite expn0 big_nat1 mulr1.
case=> sz /andP[x1d a1] /andP[x2d a2]; rewrite expnSr.
rewrite sum_divmod.
rewrite (eq_big_nat _ _ (F2 := fun i =>
   (sh d r1 i (b %/ d) * sh d r2 i (b %/ d)) * (x1 == x2)%:R)).
  move=> i _.
  rewrite -(sum_shift_digit_rows (b %% d) d0 x1d x2d).
  rewrite big_distrr /=; apply: eq_big_nat => j /andP[_ jd].
  have [-> ->] := index_divmod i jd.
  by rewrite -!mulnb !natrM mulrACA.
by rewrite -big_distrl /= IHr // -natrM mulnb eqseq_cons andbC.
Qed.

Lemma sum_phase_rows d u1 u2 :
  (0 < d)%N -> size u1 = size u2 ->
  all (fun x => x < d)%N u1 -> all (fun x => x < d)%N u2 ->
  \sum_(0 <= a < d ^ size u1) (ph d u1 a)^* * ph d u2 a
  = (d ^ size u1)%:R * (u1 == u2)%:R.
Proof.
move=> d0; elim: u1 u2 => [|z1 u1 IHu] [|z2 u2] //=.
  by move=> _ _ _; rewrite expn0 big_nat1 rmorph1 !mulr1.
case=> sz /andP[z1d a1] /andP[z2d a2]; rewrite expnSr.
rewrite sum_divmod.
rewrite (eq_big_nat _ _ (F2 := fun i =>
   ((ph d u1 i)^* * ph d u2 i) * (if z1 == z2 then d%:R else 0))).
  move=> i _.
  rewrite -(sum_w_orth w_prim d0 z1d z2d).
  rewrite big_distrr /=; apply: eq_big_nat => j /andP[_ jd].
  have [-> ->] := index_divmod i jd.
  by rewrite rmorphM /= mulrACA.
rewrite -big_distrl /= IHu // eqseq_cons natrM -!mulrA; congr (_ * _).
by case: (z1 == z2); case: (u1 == u2); rewrite /= ?mulr1 ?mulr0 ?mul0r ?mul1r.
Qed.

Lemma phase_conj d u a : (0 < d)%N -> ph d u a * (ph d u a)^* = 1.
Proof. by move=> d0; rewrite -normCK (norm_phase w_prim) // expr1n. Qed.

Lemma digits_inj d n i j :
  (i < d ^ n)%N -> (j < d ^ n)%N -> (digits d n i == digits d n j) = (i == j).
Proof.
move=> lt_i lt_j; apply/eqP/eqP => [e|-> //].
by rewrite -(digits_valueK lt_i) e digits_valueK.
Qed.

(** The products [Z-type @ X-type] are unitary. *)
Lemma weyl_ZX_unitary d n s t :
  (0 < d)%N -> size s = n -> size t = n ->
  let G := mkarray (d ^ n) (d ^ n)
             (fun a b => ph d (rev s) a * sh d (rev t) a b) in
  mmul G (dag G) = eye C (d ^ n).
Proof.
move=> d0 ss st G; have N0 : (0 < d ^ n)%N by rewrite expn_gt0 d0.
rewrite /G dag_mkarray // mmul_mkarray //; apply: eq_mkarray => a c lt_a lt_c.
rewrite (eq_bigr (fun b =>
  (ph d (rev s) a * (ph d (rev s) c)^* ) * (sh d (rev t) a b * sh d (rev t) c b))).
  by move=> b _; rewrite rmorphM /= conjC_nat mulrACA.
rewrite -big_distrr /= -{1}st -(size_rev t) sum_shift_rows ?size_rev ?st //.
by case: eqP => [->|_]; rewrite ?mulr0 // mulr1 phase_conj.
Qed.

(** The products [Z-type @ X-type] are orthogonal for the trace. *)
Lemma weyl_ZX_orthogonal d n s1 t1 s2 t2 :
  (0 < d)%N ->
  size s1 = n -> size t1 = n -> size s2 = n -> size t2 = n ->
  all (fun x => x < d)%N s1 -> all (fun x => x < d)%N t1 ->
  all (fun x => x < d)%N s2 -> all (fun x => x < d)%N t2 ->
  Tr (mmul (dag (mkarray (d ^ n) (d ^ n)
                   (fun a b => ph d (rev s1) a * sh d (rev t1) a b)))
           (mkarray (d ^ n) (d ^ n)
              (fun a b => ph d (rev s2) a * sh d (rev t2) a b)))
  = if (s1 == s2) && (t1 == t2) then (d ^ n)%:R else 0.
Proof.
move=> d0 ss1 st1 ss2 st2 as1 at1 as2 at2.
have N0 : (0 < d ^ n)%N by rewrite expn_gt0 d0.
rewrite dag_mkarray // mmul_mkarray // Tr_mkarray exchange_big /=.
rewrite (eq_big_nat _ _ (F2 := fun a =>
  ((ph d (rev s1) a)^* * ph d (rev s2) a) * (t1 == t2)%:R)).
  move=> a /andP[_ lt_a].
  rewrite -(can_eq revK) -(@sum_shift_cols d (rev t1) (rev t2) a) ?size_rev ?all_rev ?st1 //.
  rewrite big_distrr /=; apply: eq_bigr => b _.
  by rewrite rmorphM /= conjC_nat mulrACA.
rewrite -big_distrl /= -{1}ss1 -(size_rev s1).
rewrite sum_phase_rows ?size_rev ?all_rev ?ss1 // (can_eq revK).
by case: (s1 == s2); case: (t1 == t2); rewrite /= ?mulr1 ?mulr0 ?mul0r.
Qed.

(** X8.  For [d >= 2] and [n >= 1] the [d^(2n)] operators of
    [nQudit_discrete_Weyl_basis(d, n)] are unitary and pairwise orthogonal
    for the trace: [Tr(dag(B[a]) @ B[b])] is [d^n] for [a == b] and [0]
    otherwise. *)
Theorem nQudit_discrete_Weyl_basis_orthogonal d n :
  (1 < d)%N -> (0 < n)%N ->
  exists Bs,
    [/\ nQudit_discrete_Weyl_basis w d n = Some Bs,
        forall a, (a < d ^ (2 * n))%N ->
          mmul (nth [::] Bs a) (dag (nth [::] Bs a)) = eye C (d ^ n)
      & forall a b, (a < d ^ (2 * n))%N -> (b < d ^ (2 * n))%N ->
          Tr (mmul (dag (nth [::] Bs a)) (nth [::] Bs b)) =
          if a == b then (d ^ n)%:R else 0].
Proof.
move=> d1 n0; have d0 : (0 < d)%N by exact: ltnW.
have N0 : (0 < d ^ n)%N by rewrite expn_gt0 d0.
pose g s1 s2 := mkarray (d ^ n) (d ^ n)
  (fun a b => ph d (rev s1) a * sh d (rev s2) a b).
set S := product (nseq n (range 0 d)).
have HS : {in S & S, forall s1 s2,
    matmul (generate_nQudit_Z w d s1) (generate_nQudit_X C d s2)
    = Some (g s1 s2)}.
  move=> s1 s2 /(mem_product d0)[sz1 _] /(mem_product d0)[sz2 _].
  exact: matmul_ZX.
have nthB a : (a < d ^ (2 * n))%N ->
    nth [::] [seq g s1 s2 | s1 <- S, s2 <- S] a =
    g (digits d n (a %/ d ^ n)) (digits d n (a %% d ^ n)).
  rewrite mul2n -addnn expnD => lt_a.
  rewrite {1}(divn_eq a (d ^ n)) -{2}(size_product d n) -/S.
  rewrite (nth_allpairs [::] [::]) ?size_product ?ltn_pmod ?ltn_divLR //.
  by rewrite !nth_product ?ltn_pmod ?ltn_divLR.
exists [seq g s1 s2 | s1 <- S, s2 <- S]; split.
- by rewrite /nQudit_discrete_Weyl_basis -/S (for_each_allpairs _ HS).
- by move=> a lt_a; rewrite nthB // /g weyl_ZX_unitary ?size_digits.
move=> a b lt_a lt_b; rewrite !nthB // /g.
rewrite weyl_ZX_orthogonal ?size_digits ?all_digits //.
move: lt_a lt_b; rewrite mul2n -addnn expnD => lt_a lt_b.
by rewrite !digits_inj ?ltn_pmod ?ltn_divLR // divmod_eq.
Qed.

End NQuditAlgebra.

(** ** The coefficient table of a basis operator *)

Section CoefficientsOfBasis.

Variable C : archiClosedFieldType.
Variable w : nat -> C.
Hypothesis w_prim : forall d, (0 < d)%N -> d.-primitive_root (w d).

Implicit Types (d n : nat) (s t : seq nat).

Lemma around_nat (m k : nat) : around (m%:R : C) k = m%:R.
Proof.
rewrite around_of_real ?realn //.
have p0 : (10%:R ^+ k : C) != 0 by rewrite expf_neq0 // pnatr_eq0.
have -> : (m%:R : C) = ((m * 10 ^ k)%N%:Z)%:~R / 10%:R ^+ k.
  by rewrite -pmulrn natrM natrX mulfK.
by rewrite around_real_decimal.
Qed.

(** The products [X-type @ Z-type] are orthogonal for the trace. *)
Lemma weyl_array_orthogonal d n s t s0 t0 :
  (0 < d)%N ->
  size s = n -> size t = n -> size s0 = n -> size t0 = n ->
  all (fun x => x < d)%N s -> all (fun x => x < d)%N t ->
  all (fun x => x < d)%N s0 -> all (fun x => x < d)%N t0 ->
  Tr (mmul (dag (weyl_array w d n s t)) (weyl_array w d n s0 t0))
  = if (s == s0) && (t == t0) then (d ^ n)%:R else 0.
Proof.
move=> d0 ss st ss0 st0 als alt als0 alt0.
have N0 : (0 < d ^ n)%N by rewrite expn_gt0 d0.
rewrite /weyl_array dag_mkarray // mmul_mkarray // Tr_mkarray.
rewrite (eq_big_nat _ _ (F2 := fun b =>
  ((phase_entry w d (rev t) b)^* * phase_entry w d (rev t0) b) * (s == s0)%:R)).
  move=> b /andP[_ lt_b].
  rewrite -(can_eq revK) -(@sum_shift_rows2 C d (rev s) (rev s0) b)
          ?size_rev ?all_rev ?ss //.
  rewrite big_distrr /=; apply: eq_bigr => a _.
  by rewrite rmorphM /= conjC_nat mulrACA mulrC.
rewrite -big_distrl /= -{1}st -(size_rev t).
rewrite (sum_phase_rows w_prim) ?size_rev ?all_rev ?st // (can_eq revK).
by case: (s == s0); case: (t == t0); rewrite /= ?mulr1 ?mulr0 ?mul0r.
Qed.

(** X9.  For [d >= 2], [n >= 1] and index lists [s0], [t0] in [[0,d)^n], the
    coefficient table that [nQudit_Weyl_coeff] computes for the operator
    [generate_nQudit_X(d, s0) @ generate_nQudit_Z(d, t0)] itself holds 1 at
    the key of [(s0, t0)] and 0 at every other key. *)
Theorem nQudit_Weyl_coeff_of_basis d n s0 t0 :
  (1 < d)%N -> (0 < n)%N ->
  let S := product (nseq n (range 0 d)) in
  s0 \in S -> t0 \in S ->
  exists G Ctab,
    [/\ matmul (generate_nQudit_X C d s0) (generate_nQudit_Z w d t0) = Some G,
        nQudit_Weyl_coeff w G d n = Some Ctab
      & forall s t, s \in S -> t \in S ->
          getitem Ctab (str_list s, str_list t) =
          Some (if (s == s0) && (t == t0) then 1 else 0)].
Proof.
move=> d1 n0 S s0S t0S; have d0 : (0 < d)%N by exact: ltnW.
have [ss0 als0] := mem_product d0 s0S; have [st0 alt0] := mem_product d0 t0S.
have N0 : (d ^ n)%:R != 0 :> C by rewrite pnatr_eq0 -lt0n expn_gt0 d0.
exists (weyl_array w d n s0 t0); eexists; split.
- exact: matmul_XZ_weyl_array.
- by apply: nQudit_Weyl_coeff_eq => //; rewrite /weyl_array has_shape_mkarray.
move=> s t sS tS; rewrite getitem_weyl_coeff //; congr Some.
have [ss als] := mem_product d0 sS; have [st alt] := mem_product d0 tS.
rewrite /weyl_coefficient weyl_array_orthogonal //.
case: ifP => _; first by rewrite around_nat mulVf.
by rewrite (around_nat 0) mulr0.
Qed.

End CoefficientsOfBasis.

(** ** The quadrature map and the matrix of second moments *)

Section QuadratureMap.

Variable C : archiClosedFieldType.
Variable w : nat -> C.

Implicit Types (d n : nat) (X Y : ndarray C).

Lemma getitem_missing (K : eqType) (V : Type) (D : dict K V) k :
  k \notin keys D -> getitem D k = None.
Proof.
elim: D => [|kv D IHD] //=; rewrite inE negb_or eq_sym => /andP[/negPf -> nk].
exact: IHD.
Qed.

(** The keys after [k] iterations of the loop of [nQudit_quadratures]. *)
Lemma quadratures_loop_keys d n k :
  keys (foldl (fun st i =>
            let: (S0, count) := st in
            let v := [seq astype_int x | x <- flatten (dag (ket C n count))] in
            let S1 := setitem S0 i (generate_nQudit_X C d v) in
            let S2 := setitem S1 (i + 1)%N (generate_nQudit_Z w d v) in
            (S2, (count + 1)%N))
         ([::], 0%N) [seq (2 * k + 1)%N | k <- iota 0 k]).1 = iota 1 (2 * k).
Proof.
elim: k => [|k IHk] //.
have -> : iota 0 k.+1 = rcons (iota 0 k) k by rewrite -addn1 iotaD /= cats1.
rewrite map_rcons foldl_rcons.
case: (foldl _ _ _) IHk => S0 count; rewrite [X in X -> _]/= => eS0.
rewrite [LHS]/=.
have nin1 : (2 * k + 1)%N \notin keys S0.
  by rewrite eS0 mem_iota addn1 ltnS add1n ltnn andbF.
rewrite (setitem_fresh _ nin1) setitem_fresh.
  rewrite keys_rcons mem_rcons inE eS0 mem_iota !addn1 add1n.
  rewrite negb_or eqSS gtn_eqF //=.
  by rewrite -leqNgt leqnSn.
rewrite !keys_rcons eS0 -!cats1.
have -> : (2 * k.+1 = 2 * k + 1 + 1)%N by rewrite mulnS addnC -addnA.
by rewrite !iotaD /= !add1n !addn1.
Qed.

(** X10.  For every [d] and [n], [nQudit_quadratures(d, n)] is a map with the
    keys [1, ..., 2n] in this order, so that the keys [0] and [2n + 1] are
    missing, and for [k < n] the key [2k + 1] holds the X-type and the key
    [2k + 2] the Z-type operator of the [k]-th unit vector. *)
Theorem nQudit_quadratures_keys d n :
  [/\ keys (nQudit_quadratures w d n) = iota 1 (2 * n),
      forall k, (k == 0)%N || (2 * n < k)%N ->
        getitem (nQudit_quadratures w d n) k = None
    & forall k, (k < n)%N ->
        getitem (nQudit_quadratures w d n) (2 * k + 1)%N =
          Some (generate_nQudit_X C d (unit_vector n k)) /\
        getitem (nQudit_quadratures w d n) (2 * k + 2)%N =
          Some (generate_nQudit_Z w d (unit_vector n k))].
Proof.
have eK : keys (nQudit_quadratures w d n) = iota 1 (2 * n).
  by rewrite /nQudit_quadratures range_step2_odd quadratures_loop_keys.
split=> // k.
  move=> Hk; apply: getitem_missing; rewrite eK mem_iota add1n ltnS.
  by case/orP: Hk => [/eqP ->|] //; rewrite ltnNge => /negPf ->; rewrite andbF.
move=> lt_k; have n0 : (0 < n)%N by exact: leq_ltn_trans lt_k.
have lt0 : (2 * k < 2 * n)%N by rewrite ltn_mul2l.
have lt1 : (2 * k + 1 < 2 * n)%N.
  by rewrite addn1 !mul2n -doubleS leq_double.
rewrite (getitem_quadratures w d n0 lt0).
have -> : (2 * k + 2 = 2 * k + 1 + 1)%N by rewrite -addnA.
rewrite (getitem_quadratures w d n0 lt1) /quadrature.
by rewrite addn1 /= !mul2n odd_double /= uphalf_double doubleK.
Qed.

End QuadratureMap.

Section SecondMoments.

Variable C : archiClosedFieldType.
Variable w : nat -> C.

Implicit Types (d n N : nat) (X Y A B : ndarray C).

Lemma Tr_sandwich N X A B :
  (0 < N)%N -> has_shape N N X -> has_shape N N A -> has_shape N N B ->
  Tr (mmul (mmul X A) (dag B)) =
  \sum_(0 <= r < N) \sum_(0 <= k < N)
     (\sum_(0 <= l < N) item X r l * item A l k) * (item B r k)^*.
Proof.
move=> N0 sX sA sB.
rewrite -[in LHS](mkarray_item sX) -[in LHS](mkarray_item sA).
rewrite -[in LHS](mkarray_item sB).
by rewrite mmul_mkarray // dag_mkarray // mmul_mkarray // Tr_mkarray.
Qed.

Lemma has_shape_madd m n X Y : has_shape m n X -> (0 < m)%N -> has_shape m n (madd X Y).
Proof.
by move=> sX m0; rewrite /madd (has_shape_nrows sX) (has_shape_ncols m0 sX) has_shape_mkarray.
Qed.

Lemma has_shape_mscale m n c X : has_shape m n X -> (0 < m)%N -> has_shape m n (mscale c X).
Proof.
by move=> sX m0; rewrite /mscale (has_shape_nrows sX) (has_shape_ncols m0 sX) has_shape_mkarray.
Qed.

Lemma item_madd m n X Y i j :
  has_shape m n X -> (i < m)%N -> (j < n)%N ->
  item (madd X Y) i j = item X i j + item Y i j.
Proof.
move=> sX im jn; have m0 : (0 < m)%N by exact: leq_ltn_trans im.
by rewrite /madd (has_shape_nrows sX) (has_shape_ncols m0 sX) item_mkarray.
Qed.

Lemma item_mscale m n c X i j :
  has_shape m n X -> (i < m)%N -> (j < n)%N ->
  item (mscale c X) i j = c * item X i j.
Proof.
move=> sX im jn; have m0 : (0 < m)%N by exact: leq_ltn_trans im.
by rewrite /mscale (has_shape_nrows sX) (has_shape_ncols m0 sX) item_mkarray.
Qed.

Lemma item_dag m n X i j :
  has_shape m n X -> (i < n)%N -> (j < m)%N ->
  item (dag X) i j = (item X j i)^*.
Proof.
move=> sX im jn; have m0 : (0 < m)%N by exact: leq_ltn_trans jn.
by rewrite /dag (has_shape_nrows sX) (has_shape_ncols m0 sX) item_mkarray.
Qed.

Lemma cov_entry_madd X Y d n i j :
  (1 < d)%N -> has_shape (d ^ n) (d ^ n) X -> has_shape (d ^ n) (d ^ n) Y ->
  cov_entry w (madd X Y) d n i j = cov_entry w X d n i j + cov_entry w Y d n i j.
Proof.
move=> d1 sX sY; have N0 : (0 < d ^ n)%N by rewrite expn_gt0 (ltnW d1).
rewrite /cov_entry !(@Tr_sandwich (d ^ n)) ?has_shape_quadrature ?has_shape_madd //.
rewrite -big_split /=; apply: eq_big_nat => r /andP[_ rN].
rewrite -big_split /=; apply: eq_big_nat => k /andP[_ kN].
rewrite -mulrDl -big_split /=; congr (_ * _); apply: eq_big_nat => l /andP[_ lN].
by rewrite (item_madd _ sX) // mulrDl.
Qed.

Lemma cov_entry_mscale c X d n i j :
  (1 < d)%N -> has_shape (d ^ n) (d ^ n) X ->
  cov_entry w (mscale c X) d n i j = c * cov_entry w X d n i j.
Proof.
move=> d1 sX; have N0 : (0 < d ^ n)%N by rewrite expn_gt0 (ltnW d1).
rewrite /cov_entry !(@Tr_sandwich (d ^ n)) ?has_shape_quadrature ?has_shape_mscale //.
rewrite big_distrr /=; apply: eq_big_nat => r /andP[_ rN].
rewrite big_distrr /=; apply: eq_big_nat => k /andP[_ kN].
rewrite mulrA big_distrr /=; congr (_ * _); apply: eq_big_nat => l /andP[_ lN].
by rewrite (item_mscale _ sX) // mulrA.
Qed.

(** X11.  [nQudit_cov_matrix] is linear in the operator: for [d >= 2],
    [n >= 1] and [d^n x d^n] operators [X] and [Y], the matrix of [X + Y] is
    the sum of the matrices of [X] and [Y], and the matrix of [c * X] is [c]
    times the matrix of [X]. *)
Theorem nQudit_cov_matrix_linear X Y c d n :
  (1 < d)%N -> (0 < n)%N ->
  has_shape (d ^ n) (d ^ n) X -> has_shape (d ^ n) (d ^ n) Y ->
  exists VX VY,
    [/\ nQudit_cov_matrix w X d n = Some VX,
        nQudit_cov_matrix w Y d n = Some VY,
        nQudit_cov_matrix w (madd X Y) d n = Some (madd VX VY)
      & nQudit_cov_matrix w (mscale c X) d n = Some (mscale c VX)].
Proof.
move=> d1 n0 sX sY; have N0 : (0 < d ^ n)%N by rewrite expn_gt0 (ltnW d1).
have n2 : (0 < 2 * n)%N by rewrite muln_gt0.
have [VX [eX sVX HX]] := nQudit_cov_matrix_closed w d1 n0 sX.
have [VY [eY sVY HY]] := nQudit_cov_matrix_closed w d1 n0 sY.
have [VS [eS sVS HS]] := nQudit_cov_matrix_closed w d1 n0 (has_shape_madd Y sX N0).
have [VC [eC sVC HC]] := nQudit_cov_matrix_closed w d1 n0 (has_shape_mscale c sX N0).
exists VX, VY; split=> //.
- rewrite eS; congr Some; apply: (eq_array sVS (has_shape_madd VY sVX n2)).
  move=> i j lt_i lt_j.
  by rewrite (item_madd _ sVX) // HS // HX // HY // cov_entry_madd.
rewrite eC; congr Some; apply: (eq_array sVC (has_shape_mscale c sVX n2)).
move=> i j lt_i lt_j.
by rewrite (item_mscale _ sVX) // HC // HX // cov_entry_mscale.
Qed.

Lemma Tr_sandwich_conj N X A B :
  (0 < N)%N -> has_shape N N X -> has_shape N N A -> has_shape N N B ->
  dag X = X ->
  (Tr (mmul (mmul X A) (dag B)))^* = Tr (mmul (mmul X B) (dag A)).
Proof.
move=> N0 sX sA sB hX.
have cX r l : (r < N)%N -> (l < N)%N -> (item X r l)^* = item X l r.
  by move=> rN lN; rewrite -(item_dag sX) // hX.
rewrite !(@Tr_sandwich N) //.
rewrite rmorph_sum /=.
rewrite (eq_big_nat _ _ (F2 := fun r => \sum_(0 <= k < N) \sum_(0 <= l < N)
           item X l r * (item A l k)^* * item B r k)).
  move=> r /andP[_ rN]; rewrite rmorph_sum /=.
  apply: eq_big_nat => k /andP[_ kN].
  rewrite rmorphM /= conjCK rmorph_sum /= big_distrl /=.
  by apply: eq_big_nat => l /andP[_ lN]; rewrite rmorphM /= cX.
rewrite exchange_big /=.
rewrite (eq_bigr (fun k => \sum_(0 <= l < N) \sum_(0 <= r < N)
           item X l r * (item A l k)^* * item B r k)).
  by move=> k _; rewrite exchange_big.
rewrite exchange_big /=; apply: eq_bigr => l _; apply: eq_bigr => k _.
rewrite big_distrl /=; apply: eq_bigr => r _.
by rewrite mulrAC.
Qed.

(** X12.  For [d >= 2], [n >= 1] and a Hermitian [d^n x d^n] operator [X]
    ([dag(X) = X]), the matrix that [nQudit_cov_matrix(X, d, n)] returns is
    Hermitian: it equals its own conjugate transpose. *)
Theorem nQudit_cov_matrix_hermitian X d n :
  (1 < d)%N -> (0 < n)%N -> has_shape (d ^ n) (d ^ n) X -> dag X = X ->
  exists V, nQudit_cov_matrix w X d n = Some V /\ dag V = V.
Proof.
move=> d1 n0 sX hX; have N0 : (0 < d ^ n)%N by rewrite expn_gt0 (ltnW d1).
have n2 : (0 < 2 * n)%N by rewrite muln_gt0.
have [V [eV sV HV]] := nQudit_cov_matrix_closed w d1 n0 sX.
exists V; split=> //; apply: (eq_array (has_shape_dag sV n2) sV) => i j lt_i lt_j.
rewrite (item_dag sV) // !HV // /cov_entry.
by rewrite (@Tr_sandwich_conj (d ^ n)) ?has_shape_quadrature.
Qed.

End SecondMoments.

Section SecondMomentsOfIdentity.

Variable C : archiClosedFieldType.
Variable w : nat -> C.
Hypothesis w_prim : forall d, (0 < d)%N -> d.-primitive_root (w d).

Implicit Types (d n N : nat).

Lemma shift_diag d r a :
  (0 < d)%N -> has (fun x => 0 < x < d)%N r -> shift_entry d r a a = false.
Proof.
move=> d0; elim: r a => [|x r IHr] //= a /orP[/andP[x0 xd]|hr]; last first.
  by rewrite IHr.
apply/negP => /andP[_ /eqP e].
have : 0%N = x.
  apply: (@addn_mod_inj _ _ (a %% d)%N d) => //.
  by rewrite add0n modn_mod [(x + _)%N]addnC.
by move=> e0; rewrite -e0 in x0.
Qed.

Lemma all_unit_vector d n k : (1 < d)%N -> all (fun x => x < d)%N (unit_vector n k).
Proof.
move=> d1; apply/allP => x /mapP[j _ ->].
by case: (j == k) => //=; exact: ltnW.
Qed.

Lemma has_unit_vector d n k :
  (1 < d)%N -> (k < n)%N -> has (fun x => 0 < x < d)%N (unit_vector n k).
Proof.
move=> d1 kn; apply/hasP; exists 1%N => //.
by apply/mapP; exists k; rewrite ?mem_iota ?eqxx.
Qed.

Lemma unit_vector_inj n k k' :
  (k < n)%N -> (k' < n)%N -> (unit_vector n k == unit_vector n k') = (k == k').
Proof.
move=> kn k'n; apply/eqP/eqP => [e|-> //].
have := congr1 (fun s => nth 0%N s k) e.
rewrite /unit_vector !(nth_map 0%N) ?size_iota // !nth_iota // add0n eqxx.
by case: eqP.
Qed.

Lemma Tr_eye_sandwich N (f g : nat -> nat -> C) :
  (0 < N)%N ->
  Tr (mmul (mmul (eye C N) (mkarray N N f)) (dag (mkarray N N g))) =
  \sum_(0 <= r < N) \sum_(0 <= k < N) f r k * (g r k)^*.
Proof.
move=> N0; rewrite /eye mmul_mkarray // dag_mkarray // mmul_mkarray // Tr_mkarray.
apply: eq_big_nat => r /andP[_ rN]; apply: eq_bigr => k _.
by rewrite sum_delta_l rN.
Qed.

Lemma cov_entry_eye d n i j :
  (1 < d)%N -> (0 < n)%N -> (i < 2 * n)%N -> (j < 2 * n)%N ->
  cov_entry w (eye C (d ^ n)) d n i j = (d ^ n)%:R * (i == j)%:R.
Proof.
move=> d1 n0 lt_i lt_j; have d0 : (0 < d)%N by exact: ltnW.
have N0 : (0 < d ^ n)%N by rewrite expn_gt0 d0.
have hi : (i./2 < n)%N by rewrite -divn2 ltn_divLR // mulnC.
have hj : (j./2 < n)%N by rewrite -divn2 ltn_divLR // mulnC.
have eij : (i == j) = (odd i == odd j) && (i./2 == j./2).
  apply/eqP/andP => [-> //|[/eqP eo /eqP eh]].
  by rewrite -(odd_double_half i) -(odd_double_half j) eo eh.
have sr k : size (rev (unit_vector n k)) = n by rewrite size_rev size_unit_vector.
rewrite /cov_entry /quadrature_array /quadrature.
have eZ k : as_array (generate_nQudit_Z w d (unit_vector n k)) =
    mkarray (d ^ n) (d ^ n)
      (fun a b => (a == b)%:R * phase_entry w d (rev (unit_vector n k)) a).
  by rewrite generate_nQudit_Z_array ?size_unit_vector.
have eX k : as_array (generate_nQudit_X C d (unit_vector n k)) =
    mkarray (d ^ n) (d ^ n)
      (fun a b => (shift_entry d (rev (unit_vector n k)) a b)%:R).
  by rewrite generate_nQudit_X_array ?size_unit_vector.
rewrite eij.
case: (odd i); case: (odd j); rewrite ?eZ ?eX (Tr_eye_sandwich _ _ N0);
  rewrite ?eqxx ?andTb ?andFb.
- rewrite (eq_big_nat _ _ (F2 := fun r =>
     (phase_entry w d (rev (unit_vector n j./2)) r)^*
     * phase_entry w d (rev (unit_vector n i./2)) r)).
    move=> r /andP[_ rN].
    rewrite (eq_bigr (fun k => (phase_entry w d (rev (unit_vector n i./2)) r
               * (phase_entry w d (rev (unit_vector n j./2)) r)^* ) * (r == k)%:R)).
      move=> k _; rewrite rmorphM /= conjC_nat.
      by case: (r == k); rewrite ?mul0r ?mulr0 ?mul1r ?mulr1.
    by rewrite sum_delta_r rN mulrC.
  rewrite -{1}(sr j./2) (sum_phase_rows w_prim) ?sr ?all_rev ?all_unit_vector //.
  by rewrite (can_eq revK) unit_vector_inj // eq_sym.
- rewrite big_nat_cond big1 ?mulr0 // => r /andP[/andP[_ rN] _].
  rewrite (eq_bigr (fun k =>
     (phase_entry w d (rev (unit_vector n i./2)) r
      * (shift_entry d (rev (unit_vector n j./2)) r k)%:R) * (r == k)%:R)).
    by move=> k _; rewrite conjC_nat -mulrA mulrC.
  by rewrite sum_delta_r rN shift_diag ?mulr0 // has_rev has_unit_vector.
- rewrite big_nat_cond big1 ?mulr0 // => r /andP[/andP[_ rN] _].
  rewrite (eq_bigr (fun k =>
     ((shift_entry d (rev (unit_vector n i./2)) r k)%:R
      * (phase_entry w d (rev (unit_vector n j./2)) r)^* ) * (r == k)%:R)).
    by move=> k _; rewrite rmorphM /= conjC_nat mulrCA mulrC.
  by rewrite sum_delta_r rN shift_diag ?mul0r // has_rev has_unit_vector.
rewrite (eq_big_nat _ _ (F2 := fun r =>
   ((rev (unit_vector n i./2)) == (rev (unit_vector n j./2)))%:R)).
  move=> r /andP[_ rN].
  rewrite -(@sum_shift_cols C d _ _ r) ?sr ?all_rev ?all_unit_vector //.
  by apply: eq_bigr => k _; rewrite conjC_nat.
rewrite big_const_nat subn0 iter_addr_0 (can_eq revK) unit_vector_inj //.
by rewrite mulr_natl.
Qed.

(** X13.  For [d >= 2] and [n >= 1], the matrix of second moments of the
    identity operator on [d^n] dimensions is [d^n] times the [2n x 2n]
    identity: [nQudit_cov_matrix(eye(d^n), d, n) = d^n * eye(2n)]. *)
Theorem nQudit_cov_matrix_identity d n :
  (1 < d)%N -> (0 < n)%N ->
  nQudit_cov_matrix w (eye C (d ^ n)) d n =
  Some (mscale (d ^ n)%:R (eye C (2 * n))).
Proof.
move=> d1 n0; have n2 : (0 < 2 * n)%N by rewrite muln_gt0.
have sE : has_shape (d ^ n) (d ^ n) (eye C (d ^ n)) by rewrite has_shape_mkarray.
have [V [-> sV HV]] := nQudit_cov_matrix_closed w d1 n0 sE.
congr Some; rewrite /eye mscale_mkarray //.
apply: (eq_array sV (has_shape_mkarray _ _ _)) => i j lt_i lt_j.
by rewrite HV // item_mkarray // cov_entry_eye.
Qed.

End SecondMomentsOfIdentity.

(** ** Pauli-Z strings and the phase operator on qubits *)

Section PauliStrings.

Variable C : archiClosedFieldType.

Implicit Types (indices : seq int) (w : nat -> C).

Lemma foldl_ext_in (T : eqType) (A : Type) (f g : A -> T -> A) (s : seq T) a :
  {in s, forall x a', f a' x = g a' x} -> foldl f a s = foldl g a s.
Proof.
elim: s a => [|x s IHs] //= a fg; rewrite fg ?mem_head //.
by apply: IHs => y ys a'; rewrite fg // in_cons ys orbT.
Qed.

Lemma pauli_factor_power w index :
  w 2 = -1 -> is_bit index ->
  pauli_factor C index = Matrix (matrix_power (discrete_Weyl_Z w 2) `|index|).
Proof.
move=> w2 /orP[] /eqP ->; rewrite /pauli_factor matrix_power_Z //.
  by congr Matrix; apply: eq_mkarray => i j _ _; rewrite muln0 expr0 mulr1.
rewrite /mkarray /mkseq /= w2.
by rewrite !(mul0r, mul1r, expr0, expr1).
Qed.

Lemma pauli_fold w indices :
  w 2 = -1 -> all is_bit indices ->
  foldl (fun out index => tensor out (pauli_factor C index)) (Scalar 1) indices
  = generate_nQudit_Z w 2 [seq `|i|%N | i <- indices].
Proof.
move=> w2 bits; rewrite /generate_nQudit_Z foldl_mapE.
apply: foldl_ext_in => x xs out; rewrite (pauli_factor_power w2) //.
by move/allP: bits; apply.
Qed.

(** X14.  On a list of bits, [generate_nQubit_Pauli_Z] returns what
    [generate_nQudit_Z(2, indices)] returns, the phase [w] of dimension 2
    being [exp(2*pi*i/2) = -1]. *)
Theorem generate_nQubit_Pauli_Z_is_nQudit_Z w indices :
  w 2 = -1 -> all is_bit indices ->
  generate_nQubit_Pauli_Z C indices =
  Out (generate_nQudit_Z w 2 [seq `|i|%N | i <- indices]).
Proof.
move=> w2 bits.
rewrite /generate_nQubit_Pauli_Z -{1}[indices]cats0 pauli_loop_bits //=.
by rewrite (pauli_fold w2).
Qed.

Lemma sign_phase_sq u a :
  phase_entry (fun _ => -1 : C) 2 u a * phase_entry (fun _ => -1 : C) 2 u a = 1.
Proof.
elim: u a => [|z u IHu] a /=; first by rewrite mulr1.
by rewrite mulrACA IHu mul1r -expr2 -exprM mulnC exprM sqrrN expr1n expr1n.
Qed.

Lemma sign_phase_conj u a :
  (phase_entry (fun _ => -1 : C) 2 u a)^* = phase_entry (fun _ => -1 : C) 2 u a.
Proof.
elim: u a => [|z u IHu] a /=; first by rewrite rmorph1.
by rewrite rmorphM /= IHu rmorphXn /= rmorphN1.
Qed.

(** X15.  On a non-empty list of [n] bits, [generate_nQubit_Pauli_Z] returns
    a [2^n x 2^n] matrix that is its own inverse and its own conjugate
    transpose. *)
Theorem generate_nQubit_Pauli_Z_involution indices :
  all is_bit indices -> (0 < size indices)%N ->
  exists M,
    [/\ generate_nQubit_Pauli_Z C indices = Out (Matrix M),
        has_shape (2 ^ size indices) (2 ^ size indices) M,
        mmul M M = eye C (2 ^ size indices)
      & dag M = M].
Proof.
move=> bits n0; pose w (_ : nat) : C := -1.
pose s := [seq `|i|%N | i <- indices].
have ss : size s = size indices by rewrite size_map.
have N0 : (0 < 2 ^ size indices)%N by rewrite expn_gt0.
exists (as_array (generate_nQudit_Z w 2 s)).
have eM : as_array (generate_nQudit_Z w 2 s) =
    mkarray (2 ^ size indices) (2 ^ size indices)
      (fun a b => (a == b)%:R * phase_entry w 2 (rev s) a).
  by rewrite generate_nQudit_Z_array // ss.
split.
- rewrite /generate_nQubit_Pauli_Z -{1}[indices]cats0 pauli_loop_bits //=.
  rewrite (@pauli_fold w) // -/s.
  by rewrite [in LHS]generate_nQudit_Z_matrix // ss.
- by rewrite eM has_shape_mkarray.
- rewrite eM mmul_mkarray //; apply: eq_mkarray => a b lt_a lt_b.
  under eq_bigr do rewrite -mulrA.
  by rewrite sum_delta_l lt_a mulrCA /w sign_phase_sq mulr1.
rewrite eM dag_mkarray //; apply: eq_mkarray => a b lt_a lt_b.
rewrite rmorphM /= conjC_nat /w sign_phase_conj eq_sym.
by case: eqP => [->|_] //; rewrite !mul0r.
Qed.

End PauliStrings.

(** ** Inputs that the functions reject *)

Section Rejected.

Variable C : archiClosedFieldType.
Variable w : nat -> C.

Implicit Types (d n : nat) (X : ndarray C).

Lemma for_each_None (T St : Type) (xs : seq T) (body : St -> T -> option St) :
  foldl (fun st x => obind (fun s => body s x) st) None xs = None.
Proof. by elim: xs. Qed.

Lemma for_each_first (T St : Type) x (xs : seq T) (body : St -> T -> option St)
    (init : St) :
  body init x = None -> for_each (x :: xs) body init = None.
Proof. by move=> e; rewrite /for_each /= e for_each_None. Qed.

(** X16.  With [n = 0] and [d >= 2], [nQudit_discrete_Weyl_basis(d, 0)] and
    [nQudit_Weyl_coeff(X, d, 0)] raise whatever [X] is: the only index list
    is the empty one, the two tensor products are the Python integer 1, and
    [1 @ 1] is a [TypeError].  [nQudit_quadratures(d, 0)] is the empty map
    and [nQudit_cov_matrix(X, d, 0)] the empty [0 x 0] array. *)
Theorem nQudit_zero_qudits X d :
  (1 < d)%N ->
  [/\ nQudit_discrete_Weyl_basis w d 0 = None,
      nQudit_Weyl_coeff w X d 0 = None,
      nQudit_quadratures w d 0 = [::]
    & nQudit_cov_matrix w X d 0 = Some [::]].
Proof. by []. Qed.

Lemma tuples_nonempty d n :
  (0 < d)%N ->
  exists s S', product (nseq n (range 0 d)) = s :: S' /\ size s = n.
Proof.
move=> d0; have := size_product d n.
case eS: (product _) => [|s S'] /=.
  by move/esym/eqP; rewrite expn_eq0 eqn0Ngt d0.
move=> _; exists s, S'; split=> //.
have : s \in product (nseq n (range 0 d)) by rewrite eS mem_head.
by case/(mem_product d0).
Qed.

(** X17.  For [d >= 2] and [n >= 1], an operator of the wrong size is
    rejected by the first matrix product of the loops:
    [nQudit_Weyl_coeff(X, d, n)] raises when the [r x c] array [X] has
    [r != d^n] rows, and [nQudit_cov_matrix(X, d, n)] raises when it has
    [c != d^n] columns. *)
Theorem nQudit_wrong_shape X d n r c :
  (1 < d)%N -> (0 < n)%N -> has_shape r c X ->
  ((r != d ^ n)%N -> nQudit_Weyl_coeff w X d n = None) /\
  ((0 < r)%N -> (c != d ^ n)%N -> nQudit_cov_matrix w X d n = None).
Proof.
move=> d1 n0 sX; have d0 : (0 < d)%N by exact: ltnW.
have N0 : (0 < d ^ n)%N by rewrite expn_gt0 d0.
split=> [ne_r|r0 ne_c].
  have [s [S' [eS ss]]] := tuples_nonempty n d0.
  rewrite /nQudit_Weyl_coeff eS; apply: for_each_first.
  apply: for_each_first.
  rewrite (matmul_XZ_weyl_array w d1 n0 ss ss) /=.
  rewrite /matmul_arrays /weyl_array dag_mkarray // ncols_mkarray //.
  by rewrite (has_shape_nrows sX) eq_sym (negPf ne_r).
rewrite /nQudit_cov_matrix.
have -> : range 0 (2 * n) = 0%N :: range 1 (2 * n).
  by rewrite /range !subn0 subn1 mul2n -(prednK (n := n.*2)) // double_gt0.
apply: for_each_first; apply: for_each_first.
have lt0 : (0 < 2 * n)%N by rewrite muln_gt0.
rewrite (getitem_quadratures w d n0 lt0) quadrature_matrix //=.
rewrite /matmul_arrays (has_shape_ncols r0 sX).
by rewrite (has_shape_nrows (has_shape_quadrature w n 0 d1)) (negPf ne_c).
Qed.

End Rejected.

(** ** Index lists, the order of the basis and the accuracy of the table *)

Section IndexLists.

Variable C : archiClosedFieldType.
Variable w : nat -> C.
Hypothesis w_prim : forall d, (0 < d)%N -> d.-primitive_root (w d).

Implicit Types (d n : nat) (s t : seq nat) (X : ndarray C).

(** X18.  For [d >= 2] the index lists of [generate_nQudit_X] and
    [generate_nQudit_Z] are not checked against the range [[0, d)]: an index
    outside of it is accepted and acts as its remainder modulo [d]. *)
Theorem generate_nQudit_mod d s :
  (1 < d)%N ->
  generate_nQudit_X C d s = generate_nQudit_X C d [seq (x %% d)%N | x <- s] /\
  generate_nQudit_Z w d s = generate_nQudit_Z w d [seq (x %% d)%N | x <- s].
Proof.
move=> d1; have d0 : (0 < d)%N by exact: ltnW.
rewrite /generate_nQudit_X /generate_nQudit_Z !foldl_mapE.
split; apply: foldl_ext_in => x _ out; congr (tensor _ (Matrix _)).
  rewrite !matrix_power_X //; apply: eq_mkarray => i j _ _.
  by rewrite modnDmr.
rewrite !matrix_power_Z //; apply: eq_mkarray => i j _ _.
by rewrite (w_expr_modr w_prim).
Qed.

(** X19.  The order of [discrete_Weyl_basis(d)]: the operator
    [discrete_Weyl(d, z, x)] stands at the position [z * d + x], the loop on
    [z] being the outer one. *)
Theorem discrete_Weyl_basis_order d z x :
  (z < d)%N -> (x < d)%N ->
  nth [::] (discrete_Weyl_basis w d) (z * d + x) = discrete_Weyl w d z x.
Proof.
move=> zd xd; rewrite discrete_Weyl_basis_allpairs.
by rewrite (nth_allpairs_iota [::] (discrete_Weyl w d) 0 zd xd).
Qed.

(** X20.  For [d >= 2], [n >= 1] and a [d^n x d^n] operator [X], every value
    of the table of [nQudit_Weyl_coeff(X, d, n)] differs from the exact
    coefficient [(1/d^n) * Tr(dag(G) @ X)] by at most [10^-10 / d^n]. *)
Theorem nQudit_Weyl_coeff_accuracy X d n :
  (1 < d)%N -> (0 < n)%N -> has_shape (d ^ n) (d ^ n) X ->
  let S := product (nseq n (range 0 d)) in
  exists Ctab,
    nQudit_Weyl_coeff w X d n = Some Ctab /\
    forall s t, s \in S -> t \in S ->
      exists G v,
        [/\ matmul (generate_nQudit_X C d s) (generate_nQudit_Z w d t) = Some G,
            getitem Ctab (str_list s, str_list t) = Some v
          & `|v - (d ^ n)%:R^-1 * Tr (mmul (dag G) X)|
            <= (d ^ n)%:R^-1 * (10%:R ^+ 10)^-1].
Proof.
move=> d1 n0 sX S; have d0 : (0 < d)%N by exact: ltnW.
eexists; split; first exact: nQudit_Weyl_coeff_eq.
move=> s t sS tS.
have [ss _] := mem_product d0 sS; have [st _] := mem_product d0 tS.
exists (weyl_array w d n s t), (weyl_coefficient w X d n s t); split.
- exact: matmul_XZ_weyl_array.
- exact: getitem_weyl_coeff.
rewrite /weyl_coefficient -mulrBr normrM.
have N0 : 0 < ((d ^ n)%:R^-1 : C) by rewrite invr_gt0 ltr0n expn_gt0 d0.
by rewrite (gtr0_norm N0) ler_pM2l // around_error.
Qed.

End IndexLists.

(** ** Concatenation of index lists *)

Section Concatenation.

Variable C : archiClosedFieldType.
Variable w : nat -> C.

Implicit Types (d : nat) (r u s t : seq nat).

Lemma split_index d k a :
  (0 < d)%N ->
  [/\ ((a %/ d) %% d ^ k = (a %% d ^ k.+1) %/ d)%N,
      ((a %% d ^ k.+1) %% d = a %% d)%N
    & ((a %/ d) %/ d ^ k = a %/ d ^ k.+1)%N].
Proof.
move=> d0; split.
- by rewrite modn_divl -expnSr.
- by rewrite modn_dvdm // expnS dvdn_mulr.
by rewrite -divnMA -expnS.
Qed.

Lemma shift_cat d r1 r2 a b :
  (0 < d)%N ->
  shift_entry d (r1 ++ r2) a b =
  shift_entry d r1 (a %% d ^ size r1) (b %% d ^ size r1)
  && shift_entry d r2 (a %/ d ^ size r1) (b %/ d ^ size r1).
Proof.
move=> d0; elim: r1 a b => [|x r1 IHr] a b /=.
  by rewrite expn0 !divn1.
rewrite IHr.
have [-> -> ->] := split_index (size r1) a d0.
have [-> -> ->] := split_index (size r1) b d0.
by rewrite andbAC.
Qed.

Lemma phase_cat d u1 u2 a :
  (0 < d)%N ->
  phase_entry w d (u1 ++ u2) a =
  phase_entry w d u1 (a %% d ^ size u1) * phase_entry w d u2 (a %/ d ^ size u1).
Proof.
move=> d0; elim: u1 a => [|z u1 IHu] a /=.
  by rewrite expn0 divn1 mul1r.
rewrite IHu.
have [-> -> ->] := split_index (size u1) a d0.
by rewrite mulrAC.
Qed.

(** X21.  For [d >= 2] and non-empty index lists [s] and [t], the operator
    of the concatenated list is the tensor product of the operators of the
    two lists, for [generate_nQudit_X] and for [generate_nQudit_Z]. *)
Theorem generate_nQudit_concat d s t :
  (1 < d)%N -> (0 < size s)%N -> (0 < size t)%N ->
  generate_nQudit_X C d (s ++ t) =
    tensor (generate_nQudit_X C d s) (generate_nQudit_X C d t) /\
  generate_nQudit_Z w d (s ++ t) =
    tensor (generate_nQudit_Z w d s) (generate_nQudit_Z w d t).
Proof.
move=> d1 s0 t0; have d0 : (0 < d)%N by exact: ltnW.
have st0 : (0 < size (s ++ t))%N by rewrite size_cat addn_gt0 s0.
have S0 : (0 < d ^ size s)%N by rewrite expn_gt0 d0.
have T0 : (0 < d ^ size t)%N by rewrite expn_gt0 d0.
split.
  rewrite (generate_nQudit_X_matrix C d st0) (generate_nQudit_X_matrix C d s0).
  rewrite (generate_nQudit_X_matrix C d t0) /=; congr Matrix.
  rewrite !generate_nQudit_X_array // kron_mkarray // size_cat expnD.
  apply: eq_mkarray => a b _ _.
  by rewrite rev_cat shift_cat // size_rev -natrM mulnb andbC.
rewrite (generate_nQudit_Z_matrix w d st0) (generate_nQudit_Z_matrix w d s0).
rewrite (generate_nQudit_Z_matrix w d t0) /=; congr Matrix.
rewrite !generate_nQudit_Z_array // kron_mkarray // size_cat expnD.
apply: eq_mkarray => a b _ _.
rewrite rev_cat phase_cat // size_rev mulrACA -natrM mulnb divmod_eq.
by rewrite [X in _ * X]mulrC.
Qed.

End Concatenation.

(** ** Powers of the alternative qudit CNOT *)

Section CNOTPowers.

Variable C : archiClosedFieldType.

Implicit Types (d k : nat).

Lemma CNOT_image_alt d c :
  (0 < d)%N ->
  CNOT_image d true c = (c %/ d * d + (c %% d + c %/ d) %% d)%N.
Proof.
move=> d0; rewrite /CNOT_image /CNOT_target; case: eqP => // ->.
by rewrite addn0 modn_mod.
Qed.

Lemma CNOT_alt_power d k :
  (1 < d)%N ->
  matrix_power (CNOT_qudit C d true) k =
  mkarray (d * d) (d * d)
    (fun r c => (r == c %/ d * d + (c %% d + k * (c %/ d)) %% d)%N%:R).
Proof.
move=> d1; have d0 : (0 < d)%N by exact: ltnW.
have N0 : (0 < d * d)%N by rewrite muln_gt0 d0.
rewrite CNOT_qudit_image //; elim: k => [|k IHk] /=.
  rewrite nrows_mkarray; apply: eq_mkarray => r c _ _.
  by rewrite mul0n addn0 modn_mod -divn_eq.
rewrite IHk mmul_mkarray //; apply: eq_mkarray => r c rd cd.
under eq_bigr do rewrite mulrC.
rewrite sum_delta_sym CNOT_image_lt // CNOT_image_alt //.
have td : ((c %% d + c %/ d) %% d < d)%N by rewrite ltn_pmod.
have [-> ->] := index_divmod (c %/ d) td.
by rewrite modnDml -addnA -mulSn.
Qed.

(** X22.  For every [d >= 2], the [d]-th power of [CNOT_qudit(d, alt=True)]
    is the identity. *)
Theorem CNOT_qudit_alt_order d :
  (1 < d)%N -> matrix_power (CNOT_qudit C d true) d = eye C (d * d).
Proof.
move=> d1; have d0 : (0 < d)%N by exact: ltnW.
rewrite CNOT_alt_power //; apply: eq_mkarray => r c _ _.
by rewrite [(c %% d + _)%N]addnC [(d * _)%N]mulnC modnMDl modn_mod -divn_eq.
Qed.

End CNOTPowers.

(** ** The further properties at concrete inputs *)

Section FurtherInstances.

Lemma dag_identity2 : dag identity2 = identity2.
Proof.
rewrite /dag /identity2 /mkarray /mkseq /= /item /=.
by rewrite !(rmorph0, rmorph1).
Qed.

(** Witness of X1 at [d = 2], [z = x = 1], [j = 0]. *)
Lemma discrete_Weyl_action_witness :
  (1 < 2)%N /\ (0 < 2)%N /\
  [/\ mmul (discrete_Weyl_X algC 2) (ket algC 2 0) = ket algC 2 ((0 + 1) %% 2),
      mmul (discrete_Weyl_Z wC 2) (ket algC 2 0) =
        mscale (wC 2 ^+ 0) (ket algC 2 0)
    & mmul (discrete_Weyl wC 2 1 1) (ket algC 2 0) =
      mscale (wC 2 ^+ ((0 + 1) %% 2 * 1)) (ket algC 2 ((0 + 1) %% 2))].
Proof.
split; first by [].
split; first by [].
exact: (@discrete_Weyl_action algC wC 2 1 1 0 isT isT).
Defined.

(** Witness of X2 at [d = 2], [z = 3], [x = 2]. *)
Lemma discrete_Weyl_periodic_witness :
  (forall d, (0 < d)%N -> d.-primitive_root (wC d)) /\ (1 < 2)%N /\
  [/\ matrix_power (discrete_Weyl_X algC 2) 2 = eye algC 2,
      matrix_power (discrete_Weyl_Z wC 2) 2 = eye algC 2
    & discrete_Weyl wC 2 3 2 = discrete_Weyl wC 2 (3 %% 2) (2 %% 2)].
Proof.
split; first exact: wC_prim.
split; first by [].
exact: (@discrete_Weyl_periodic algC wC wC_prim 2 3 2 isT).
Defined.

(** Witness of X3 at [d = 3]. *)
Lemma discrete_Weyl_product_witness :
  (forall d, (0 < d)%N -> d.-primitive_root (wC d)) /\ (1 < 3)%N /\
  mscale (wC 3 ^+ (2 * 1))
    (mmul (discrete_Weyl wC 3 1 2) (discrete_Weyl wC 3 1 1))
  = discrete_Weyl wC 3 (1 + 1) (2 + 1).
Proof.
split; first exact: wC_prim.
split; first by [].
exact: (@discrete_Weyl_product algC wC wC_prim 3 1 2 1 1 isT).
Defined.

(** Witness of X4 at [d = 3]. *)
Lemma flip_sign_involution_witness :
  (0 < 3)%N /\
  [/\ forall j, (j < 3)%N ->
        mmul (flip_sign algC 3) (ket algC 3 j) = ket algC 3 (mod_neg j 3),
      mmul (flip_sign algC 3) (flip_sign algC 3) = eye algC 3
    & dag (flip_sign algC 3) = flip_sign algC 3].
Proof.
split; first by [].
exact: (@flip_sign_involution algC 3 isT).
Defined.

(** Witness of X5 at [d = 3], default variant, [i = 2], [j = 1]. *)
Lemma CNOT_qudit_basis_action_witness :
  (1 < 3)%N /\ (2 < 3)%N /\ (1 < 3)%N /\
  (mmul (CNOT_qudit algC 3 false) (kron (ket algC 3 2) (ket algC 3 1)) =
     kron (ket algC 3 2) (ket algC 3 (CNOT_target 3 false 2 1)) /\
   mmul (CNOT_qudit algC 3 false) (kron (ket algC 3 0) (ket algC 3 1)) =
     kron (ket algC 3 0) (ket algC 3 1)).
Proof.
split; first by [].
split; first by [].
split; first by [].
exact: (@CNOT_qudit_basis_action algC 3 false 2 1 isT isT isT).
Defined.

(** Witness of X6 at [d = 3]. *)
Lemma CNOT_qudit_unitary_involution_witness :
  (1 < 3)%N /\
  ((forall alt,
      mmul (CNOT_qudit algC 3 alt) (dag (CNOT_qudit algC 3 alt))
      = eye algC (3 * 3)) /\
   mmul (CNOT_qudit algC 3 false) (CNOT_qudit algC 3 false) = eye algC (3 * 3)).
Proof.
split; first by [].
exact: (@CNOT_qudit_unitary_involution algC 3 isT).
Defined.

(** Witness of X7 at [d = 3], [s = [1, 2]], [t = [2, 0]]. *)
Lemma nQudit_commutation_witness :
  (forall d, (0 < d)%N -> d.-primitive_root (wC d)) /\ (1 < 3)%N /\
  (0 < size [:: 1; 2]%N)%N /\ size [:: 1; 2]%N = size [:: 2; 0]%N /\
  exists ZX XZ,
    [/\ matmul (generate_nQudit_Z wC 3 [:: 2; 0]%N)
               (generate_nQudit_X algC 3 [:: 1; 2]%N) = Some ZX,
        matmul (generate_nQudit_X algC 3 [:: 1; 2]%N)
               (generate_nQudit_Z wC 3 [:: 2; 0]%N) = Some XZ
      & ZX = mscale (wC 3 ^+ dot [:: 1; 2]%N [:: 2; 0]%N) XZ].
Proof.
split; first exact: wC_prim.
split; first by [].
split; first by [].
split; first by [].
exact: (@nQudit_commutation algC wC wC_prim 3 [:: 1; 2]%N [:: 2; 0]%N isT isT erefl).
Defined.

(** Witness of X8 at [d = 2], [n = 1]. *)
Lemma nQudit_discrete_Weyl_basis_orthogonal_witness :
  (forall d, (0 < d)%N -> d.-primitive_root (wC d)) /\
  (1 < 2)%N /\ (0 < 1)%N /\
  exists Bs,
    [/\ nQudit_discrete_Weyl_basis wC 2 1 = Some Bs,
        forall a, (a < 2 ^ (2 * 1))%N ->
          mmul (nth [::] Bs a) (dag (nth [::] Bs a)) = eye algC (2 ^ 1)
      & forall a b, (a < 2 ^ (2 * 1))%N -> (b < 2 ^ (2 * 1))%N ->
          Tr (mmul (dag (nth [::] Bs a)) (nth [::] Bs b)) =
          if a == b then (2 ^ 1)%:R else 0].
Proof.
split; first exact: wC_prim.
split; first by [].
split; first by [].
exact: (@nQudit_discrete_Weyl_basis_orthogonal algC wC wC_prim 2 1 isT isT).
Defined.

(** Witness of X9 at [d = 2], [n = 1], [s0 = [1]], [t0 = [0]]. *)
Lemma nQudit_Weyl_coeff_of_basis_witness :
  (forall d, (0 < d)%N -> d.-primitive_root (wC d)) /\
  (1 < 2)%N /\ (0 < 1)%N /\
  let S := product (nseq 1 (range 0 2)) in
  [:: 1%N] \in S /\ [:: 0%N] \in S /\
  exists G Ctab,
    [/\ matmul (generate_nQudit_X algC 2 [:: 1%N])
               (generate_nQudit_Z wC 2 [:: 0%N]) = Some G,
        nQudit_Weyl_coeff wC G 2 1 = Some Ctab
      & forall s t, s \in S -> t \in S ->
          getitem Ctab (str_list s, str_list t) =
          Some (if (s == [:: 1%N]) && (t == [:: 0%N]) then 1 else 0)].
Proof.
split; first exact: wC_prim.
split; first by [].
split; first by [].
split; first by [].
split; first by [].
exact: (@nQudit_Weyl_coeff_of_basis algC wC wC_prim 2 1 [:: 1%N] [:: 0%N]
          isT isT isT isT).
Defined.

(** Witness of X11 at [d = 2], [n = 1], [X] the identity, [Y] Pauli Y,
    [c = 2]. *)
Lemma nQudit_cov_matrix_linear_witness :
  (1 < 2)%N /\ (0 < 1)%N /\
  has_shape (2 ^ 1) (2 ^ 1) identity2 /\ has_shape (2 ^ 1) (2 ^ 1) pauli_Y /\
  exists VX VY,
    [/\ nQudit_cov_matrix wC identity2 2 1 = Some VX,
        nQudit_cov_matrix wC pauli_Y 2 1 = Some VY,
        nQudit_cov_matrix wC (madd identity2 pauli_Y) 2 1 = Some (madd VX VY)
      & nQudit_cov_matrix wC (mscale 2%:R identity2) 2 1
        = Some (mscale 2%:R VX)].
Proof.
split; first by [].
split; first by [].
split; first by [].
split; first by [].
exact: (@nQudit_cov_matrix_linear algC wC identity2 pauli_Y 2%:R 2 1
          isT isT isT isT).
Defined.

(** Witness of X12 at [d = 2], [n = 1], [X] the identity. *)
Lemma nQudit_cov_matrix_hermitian_witness :
  (1 < 2)%N /\ (0 < 1)%N /\ has_shape (2 ^ 1) (2 ^ 1) identity2 /\
  dag identity2 = identity2 /\
  exists V, nQudit_cov_matrix wC identity2 2 1 = Some V /\ dag V = V.
Proof.
split; first by [].
split; first by [].
split; first by [].
split; first exact: dag_identity2.
exact: (@nQudit_cov_matrix_hermitian algC wC identity2 2 1 isT isT isT
          dag_identity2).
Defined.

(** Witness of X13 at [d = 2], [n = 1]. *)
Lemma nQudit_cov_matrix_identity_witness :
  (forall d, (0 < d)%N -> d.-primitive_root (wC d)) /\
  (1 < 2)%N /\ (0 < 1)%N /\
  nQudit_cov_matrix wC (eye algC (2 ^ 1)) 2 1 =
  Some (mscale (2 ^ 1)%:R (eye algC (2 * 1))).
Proof.
split; first exact: wC_prim.
split; first by [].
split; first by [].
exact: (@nQudit_cov_matrix_identity algC wC wC_prim 2 1 isT isT).
Defined.

(** Witness of X14 for the index list [[1, 0, 1]]. *)
Lemma generate_nQubit_Pauli_Z_is_nQudit_Z_witness :
  wC 2 = -1 /\ all is_bit [:: 1; 0; 1] /\
  generate_nQubit_Pauli_Z algC [:: 1; 0; 1] =
  Out (generate_nQudit_Z wC 2 [seq `|i|%N | i <- [:: 1; 0; 1]]).
Proof.
split; first exact: wC2.
split; first by [].
exact: (@generate_nQubit_Pauli_Z_is_nQudit_Z algC wC [:: 1; 0; 1] wC2 isT).
Defined.

(** Witness of X15 for the index list [[1, 0]]. *)
Lemma generate_nQubit_Pauli_Z_involution_witness :
  all is_bit [:: 1; 0] /\ (0 < size [:: (1 : int)%R; 0%R])%N /\
  exists M,
    [/\ generate_nQubit_Pauli_Z algC [:: 1; 0] = Out (Matrix M),
        has_shape (2 ^ size [:: (1 : int)%R; 0%R]) (2 ^ size [:: (1 : int)%R; 0%R]) M,
        mmul M M = eye algC (2 ^ size [:: (1 : int)%R; 0%R])
      & dag M = M].
Proof.
split; first by [].
split; first by [].
exact: (@generate_nQubit_Pauli_Z_involution algC [:: 1; 0] isT isT).
Defined.

(** Witness of X16 at [d = 2], [X] the identity. *)
Lemma nQudit_zero_qudits_witness :
  (1 < 2)%N /\
  [/\ nQudit_discrete_Weyl_basis wC 2 0 = None,
      nQudit_Weyl_coeff wC identity2 2 0 = None,
      nQudit_quadratures wC 2 0 = [::]
    & nQudit_cov_matrix wC identity2 2 0 = Some [::]].
Proof.
split; first by [].
exact: (@nQudit_zero_qudits algC wC identity2 2 isT).
Defined.

(** Witness of X17 at [d = 3], [n = 1], [X] the 2 x 2 identity. *)
Lemma nQudit_wrong_shape_witness :
  (1 < 3)%N /\ (0 < 1)%N /\ has_shape 2 2 identity2 /\
  (((2 != 3 ^ 1)%N -> nQudit_Weyl_coeff wC identity2 3 1 = None) /\
   ((0 < 2)%N -> (2 != 3 ^ 1)%N -> nQudit_cov_matrix wC identity2 3 1 = None)).
Proof.
split; first by [].
split; first by [].
split; first by [].
exact: (@nQudit_wrong_shape algC wC identity2 3 1 2 2 isT isT isT).
Defined.

(** Witness of X18 at [d = 2], for the index list [[3, 4]]. *)
Lemma generate_nQudit_mod_witness :
  (forall d, (0 < d)%N -> d.-primitive_root (wC d)) /\ (1 < 2)%N /\
  (generate_nQudit_X algC 2 [:: 3; 4]%N =
     generate_nQudit_X algC 2 [seq (x %% 2)%N | x <- [:: 3; 4]%N] /\
   generate_nQudit_Z wC 2 [:: 3; 4]%N =
     generate_nQudit_Z wC 2 [seq (x %% 2)%N | x <- [:: 3; 4]%N]).
Proof.
split; first exact: wC_prim.
split; first by [].
exact: (@generate_nQudit_mod algC wC wC_prim 2 [:: 3; 4]%N isT).
Defined.

(** Witness of X19 at [d = 3], [z = 2], [x = 1]. *)
Lemma discrete_Weyl_basis_order_witness :
  (2 < 3)%N /\ (1 < 3)%N /\
  nth [::] (discrete_Weyl_basis wC 3) (2 * 3 + 1) = discrete_Weyl wC 3 2 1.
Proof.
split; first by [].
split; first by [].
exact: (@discrete_Weyl_basis_order algC wC 3 2 1 isT isT).
Defined.

(** Witness of X20 at [d = 2], [n = 1], [X] the identity. *)
Lemma nQudit_Weyl_coeff_accuracy_witness :
  (1 < 2)%N /\ (0 < 1)%N /\ has_shape (2 ^ 1) (2 ^ 1) identity2 /\
  let S := product (nseq 1 (range 0 2)) in
  exists Ctab,
    nQudit_Weyl_coeff wC identity2 2 1 = Some Ctab /\
    forall s t, s \in S -> t \in S ->
      exists G v,
        [/\ matmul (generate_nQudit_X algC 2 s) (generate_nQudit_Z wC 2 t)
              = Some G,
            getitem Ctab (str_list s, str_list t) = Some v
          & `|v - (2 ^ 1)%:R^-1 * Tr (mmul (dag G) identity2)|
            <= (2 ^ 1)%:R^-1 * (10%:R ^+ 10)^-1].
Proof.
split; first by [].
split; first by [].
split; first by [].
exact: (@nQudit_Weyl_coeff_accuracy algC wC identity2 2 1 isT isT isT).
Defined.

(** Witness of X21 at [d = 2], [s = [1]], [t = [0, 1]]. *)
Lemma generate_nQudit_concat_witness :
  (1 < 2)%N /\ (0 < size [:: 1%N])%N /\ (0 < size [:: 0; 1]%N)%N /\
  (generate_nQudit_X algC 2 ([:: 1%N] ++ [:: 0; 1]%N) =
     tensor (generate_nQudit_X algC 2 [:: 1%N])
            (generate_nQudit_X algC 2 [:: 0; 1]%N) /\
   generate_nQudit_Z wC 2 ([:: 1%N] ++ [:: 0; 1]%N) =
     tensor (generate_nQudit_Z wC 2 [:: 1%N])
            (generate_nQudit_Z wC 2 [:: 0; 1]%N)).
Proof.
split; first by [].
split; first by [].
split; first by [].
exact: (@generate_nQudit_concat algC wC 2 [:: 1%N] [:: 0; 1]%N isT isT isT).
Defined.

(** Witness of X22 at [d = 3]. *)
Lemma CNOT_qudit_alt_order_witness :
  (1 < 3)%N /\ matrix_power (CNOT_qudit algC 3 true) 3 = eye algC (3 * 3).
Proof.
split; first by [].
exact: (@CNOT_qudit_alt_order algC 3 isT).
Defined.

End FurtherInstances.
